(** * taskflow: graph flow pattern and result storage

    A shallow embedding of [taskflow/patterns/graph_flow.py] and
    [taskflow/storage.py], with the properties their specification states.

    Python objects that are mutated in place become explicit state: the
    flow's graph and the storage's fields are threaded through a state and
    exception monad in which, as in Python, the state reached when an
    exception is raised stays visible to the caller. *)

From Stdlib Require Import ZArith QArith.
From stdpp Require Import base option list strings gmap relations.

Open Scope string_scope.
Open Scope list_scope.

(** ** Tasks and exceptions *)

(** A task or subflow object.  The flow reads [name], [requires] and
    [provides], taken as fixed once the object is handed to the flow;
    [tid] stands for the identity of the Python object, which is what the
    graph library hashes and compares.  [requires] and [provides] are
    Python sets, listed here in their iteration order. *)
Record Task := {
  tid : nat;
  name : string;
  requires : list string;
  provides : list string;
}.

#[global] Instance Task_eq_dec : EqDecision Task.
Proof. solve_decision. Defined.

(** The text of an exception, kept structured. *)
Inductive Message :=
| ItemNotFoundToLinkFrom (u : Task)
| ItemNotFoundToLinkTo (v : Task)
| NoPathThroughItems
| AlreadyProvided (item value flow : string)
| UnknownTaskName (task_name : string)
| UnknownTask (uuid : string)
| ResultNotKnown (uuid : string)
| NameNotMapped (name : string)
| UnableToFindResult (name : string).

(** The exception classes the two files raise: the builtin [ValueError],
    and [DependencyFailure] and [NotFound] of [taskflow.exceptions]. *)
Inductive Exn :=
| ValueError (msg : Message)
| DependencyFailure (msg : Message)
| NotFound (msg : Message).

(** ** State and exception monad *)

Inductive outcome (A : Type) :=
| Returned (a : A)
| Raised (e : Exn).
Arguments Returned {A} a.
Arguments Raised {A} e.

Definition M (S A : Type) : Type := S → outcome A * S.

Definition ret {S A} (a : A) : M S A := λ s, (Returned a, s).
Definition raise {S A} (e : Exn) : M S A := λ s, (Raised e, s).
Definition bind {S A B} (c : M S A) (f : A → M S B) : M S B :=
  λ s, match c s with
       | (Returned a, s') => f a s'
       | (Raised e, s') => (Raised e, s')
       end.
Definition get_state {S} : M S S := λ s, (Returned s, s).
Definition modify {S} (f : S → S) : M S unit := λ s, (Returned tt, f s).
(** [try: c except Exception: h e] *)
Definition try_except {S A} (c : M S A) (h : Exn → M S A) : M S A :=
  λ s, match c s with
       | (Returned a, s') => (Returned a, s')
       | (Raised e, s') => h e s'
       end.

#[global] Instance M_ret {S} : MRet (M S) := λ A, ret.
#[global] Instance M_bind {S} : MBind (M S) := λ A B f c, bind c f.

(** [for x in l: acc = body acc x], stopping at the first exception. *)
Fixpoint for_fold {S A B} (body : B → A → M S B) (acc : B) (l : list A) : M S B :=
  match l with
  | [] => ret acc
  | x :: l' => acc' ← body acc x; for_fold body acc' l'
  end.

Definition for_each {S A} (body : A → M S unit) (l : list A) : M S unit :=
  for_fold (λ _ x, body x) tt l.

(** Partial-correctness triples with one postcondition for a return and
    one for an exception; [stable I c] says that [c] keeps [I] whichever
    way it ends. *)
Definition hoare {S A} (P : S → Prop) (c : M S A)
    (Q : A → S → Prop) (E : Exn → S → Prop) : Prop :=
  ∀ s, P s → match c s with
             | (Returned a, s') => Q a s'
             | (Raised e, s') => E e s'
             end.

Definition stable {S A} (I : S → Prop) (c : M S A) : Prop :=
  hoare I c (λ _, I) (λ _, I).

(** [c] reads the state but never changes it. *)
Definition readonly {S A} (c : M S A) : Prop := ∀ s, (c s).2 = s.

(** ** The graph flow *)

Module GraphFlow.

(** The part of [networkx.DiGraph] the flow uses: a node collection and a
    collection of directed edges, both without repetitions.  The library
    iterates over nodes in an order of its own; the list fixes insertion
    order. *)
Record DiGraph := {
  nodes : list Task;
  edges : list (Task * Task);
}.

Definition empty_graph : DiGraph := {| nodes := []; edges := [] |}.

Definition has_node (g : DiGraph) (n : Task) : bool := bool_decide (n ∈ nodes g).
Definition has_edge (g : DiGraph) (u v : Task) : bool := bool_decide ((u, v) ∈ edges g).

(** [add_node] of a node already present changes nothing. *)
Definition add_node (n : Task) (g : DiGraph) : DiGraph :=
  if has_node g n then g else {| nodes := nodes g ++ [n]; edges := edges g |}.

(** [add_edge] adds missing endpoints, then the edge unless present. *)
Definition add_edge (u v : Task) (g : DiGraph) : DiGraph :=
  let g1 := add_node v (add_node u g) in
  if has_edge g1 u v then g1
  else {| nodes := nodes g1; edges := edges g1 ++ [(u, v)] |}.

(** [remove_edge]; the flow only calls it on an edge it has just added. *)
Definition remove_edge (u v : Task) (g : DiGraph) : DiGraph :=
  {| nodes := nodes g; edges := filter (λ e, e ≠ (u, v)) (edges g) |}.

(** [remove_nodes_from] removes the listed nodes with every edge touching
    them; nodes that are not in the graph are skipped silently. *)
Definition remove_nodes_from (items : list Task) (g : DiGraph) : DiGraph :=
  {| nodes := filter (λ n, n ∉ items) (nodes g);
     edges := filter (λ e, (e.1 ∉ items) ∧ (e.2 ∉ items)) (edges g) |}.

(** [dag.is_directed_acyclic_graph]: does a topological order exist?
    Decided here by peeling off, one at a time, a node without incoming
    edge; [is_directed_acyclic_graph_spec] below shows that this is exactly
    the absence of a cycle. *)
Definition no_pred (es : list (Task * Task)) (n : Task) : bool :=
  forallb (λ e, negb (bool_decide (e.2 = n))) es.

Fixpoint peel (fuel : nat) (ns : list Task) (es : list (Task * Task)) : bool :=
  match ns with
  | [] => true
  | _ :: _ =>
    match fuel with
    | 0 => false
    | S fuel' =>
      match List.find (no_pred es) ns with
      | None => false
      | Some n => peel fuel' (filter (λ m, m ≠ n) ns)
                       (filter (λ e, e.1 ≠ n ∧ e.2 ≠ n) es)
      end
    end
  end.

Definition is_directed_acyclic_graph (g : DiGraph) : bool :=
  peel (length (nodes g)) (nodes g) (edges g).

(** *** [Flow.link] *)

Definition link (u v : Task) : M DiGraph unit :=
  g ← get_state;
  if negb (has_node g u) then raise (ValueError (ItemNotFoundToLinkFrom u))
  else if negb (has_node g v) then raise (ValueError (ItemNotFoundToLinkTo v))
  else
    modify (add_edge u v);;
    g' ← get_state;
    if negb (is_directed_acyclic_graph g') then
      modify (remove_edge u v);;
      raise (DependencyFailure NoPathThroughItems)
    else ret tt.

(** *** [Flow.add] *)

(** [requirements] is a [defaultdict(list)], [provided] a [dict]. *)
Definition update_requirements (node : Task)
    (requirements : gmap string (list Task)) : gmap string (list Task) :=
  foldl (λ r value, <[value := default [] (r !! value) ++ [node]]> r)
        requirements (requires node).

Definition record_provides (node : Task) (provided : gmap string Task) :
    gmap string Task :=
  foldl (λ p value, <[value := node]> p) provided (provides node).

(** The first loop, over the nodes already in the graph. *)
Definition scan (g : DiGraph) : gmap string (list Task) * gmap string Task :=
  foldl (λ rp node, (update_requirements node rp.1, record_provides node rp.2))
        (∅, ∅) (nodes g).

(** [for value in item.provides: if value in provided: raise ...;
     provided[value] = item] *)
Definition claim_provides (item : Task) (provided : gmap string Task) :
    M DiGraph (gmap string Task) :=
  for_fold (λ p value,
      match p !! value with
      | Some flow =>
          raise (DependencyFailure (AlreadyProvided (name item) value (name flow)))
      | None => ret (<[value := item]> p)
      end) provided (provides item).

(** [for value in item.requires: if value in provided:
     self.link(provided[value], item)] *)
Definition link_producers (item : Task) (provided : gmap string Task) :
    M DiGraph unit :=
  for_each (λ value,
      match provided !! value with
      | Some producer => link producer item
      | None => ret tt
      end) (requires item).

(** [for value in item.provides: if value in requirements:
     for node in requirements[value]: self.link(item, node)] *)
Definition link_consumers (item : Task) (requirements : gmap string (list Task)) :
    M DiGraph unit :=
  for_each (λ value,
      match requirements !! value with
      | Some consumers => for_each (λ node, link item node) consumers
      | None => ret tt
      end) (provides item).

(** One round of the loop over [items]. *)
Definition add_item (rp : gmap string (list Task) * gmap string Task)
    (item : Task) : M DiGraph (gmap string (list Task) * gmap string Task) :=
  modify (add_node item);;
  let requirements := update_requirements item rp.1 in
  provided ← claim_provides item rp.2;
  link_producers item provided;;
  link_consumers item requirements;;
  ret (requirements, provided).

Definition add (items : list Task) : M DiGraph unit :=
  g ← get_state;
  let rp := scan g in
  try_except
    (for_fold add_item rp items;; ret tt)
    (λ e, modify (remove_nodes_from items);; raise e).

(** A call on the flow, and the graph a sequence of calls leaves behind
    (calls that raise included: the flow object lives on). *)
Inductive Call :=
| CallAdd (items : list Task)
| CallLink (u v : Task).

Definition run_call (c : Call) : M DiGraph unit :=
  match c with
  | CallAdd items => add items
  | CallLink u v => link u v
  end.

Definition run_calls (cs : list Call) (g : DiGraph) : DiGraph :=
  foldl (λ g c, (run_call c g).2) g cs.

(** *** What the specification says about graphs *)

Definition rel (es : list (Task * Task)) : relation Task := λ u v, (u, v) ∈ es.

(** No node reaches itself along one or more edges. *)
Definition acyclic_edges (es : list (Task * Task)) : Prop := ∀ v, ¬ tc (rel es) v v.
Definition acyclic (g : DiGraph) : Prop := acyclic_edges (edges g).

(** Every edge joins two nodes of the graph, as the graph library keeps it. *)
Definition closed_edges (ns : list Task) (es : list (Task * Task)) : Prop :=
  ∀ u v, (u, v) ∈ es → u ∈ ns ∧ v ∈ ns.
Definition closed (g : DiGraph) : Prop := closed_edges (nodes g) (edges g).

Definition dag (g : DiGraph) : Prop := closed g ∧ acyclic g.

(** The tasks of the specification's scenarios: [A] provides ["x"], [B]
    requires it; object identity and name are arbitrary. *)
Definition producer_of (id : nat) (n x : string) : Task :=
  {| tid := id; name := n; requires := []; provides := [x] |}.
Definition consumer_of (id : nat) (n x : string) : Task :=
  {| tid := id; name := n; requires := [x]; provides := [] |}.

Definition task_A : Task := producer_of 0 "A" "x".
Definition task_B : Task := consumer_of 1 "B" "x".

Definition task_X : Task :=
  {| tid := 2; name := "X"; requires := ["y"]; provides := ["y"] |}.
Definition task_C : Task := producer_of 3 "C" "x".

(** No two nodes share a provided symbol. *)
Definition unique_nodes (ns : list Task) : Prop :=
  ∀ u v s, u ∈ ns → v ∈ ns → s ∈ provides u → s ∈ provides v → u = v.
Definition unique_producer (g : DiGraph) : Prop := unique_nodes (nodes g).

(** The node collection after [add_node]. *)
Definition insert_node (ns : list Task) (n : Task) : list Task :=
  if bool_decide (n ∈ ns) then ns else ns ++ [n].

(** What [add] relies on between two items: the two dictionaries speak
    about nodes of the graph, and [provided] knows every symbol a node
    provides. *)
Record maps_ok (rp : gmap string (list Task) * gmap string Task)
    (ns : list Task) : Prop := {
  provided_in : ∀ s p, rp.2 !! s = Some p → p ∈ ns ∧ s ∈ provides p;
  required_in : ∀ s l n, rp.1 !! s = Some l → n ∈ l → n ∈ ns;
  provided_all : ∀ n s, n ∈ ns → s ∈ provides n → is_Some (rp.2 !! s);
}.

Definition is_DependencyFailure (e : Exn) : Prop := ∃ msg, e = DependencyFailure msg.

(** "A call [add] in which some item provides a symbol that already has
    a producer raises a dependency error naming both producers and the
    symbol", on the graphs a flow can reach. *)
Definition duplicate_producer_is_named : Prop :=
  ∀ cs items item s p,
    let g := run_calls cs empty_graph in
    item ∈ items → s ∈ provides item → p ∈ nodes g → s ∈ provides p →
    ∃ i value flow,
      (add items g).1 = Raised (DependencyFailure (AlreadyProvided i value flow)).

(** The reading of "fails with not-found" in the exception classes of
    the code: [link] on an absent endpoint raises [NotFound]. *)
Definition link_absent_raises_NotFound : Prop :=
  ∀ u v g, u ∉ nodes g ∨ v ∉ nodes g → ∃ msg, (link u v g).1 = Raised (NotFound msg).

(** "If [add] raises, nodes and edges are what they were before". *)
Definition add_rolls_back : Prop :=
  ∀ cs items e,
    let g := run_calls cs empty_graph in
    (add items g).1 = Raised e →
    nodes (add items g).2 = nodes g ∧ edges (add items g).2 = edges g.

(** *** The other members of [Flow] *)

(** [__len__]: the number of nodes. *)
Definition __len__ (g : DiGraph) : nat := length (nodes g).

(** [__iter__]: the nodes, as the graph yields them. *)
Definition __iter__ (g : DiGraph) : list Task := nodes g.

(** [Flow.provides]: the union of what the children provide. *)
Definition flow_provides (g : DiGraph) : gset string :=
  foldl (λ acc subflow, acc ∪ list_to_set (provides subflow)) ∅ (__iter__ g).

(** [Flow.requires]: what the children require, minus [Flow.provides]. *)
Definition flow_requires (g : DiGraph) : gset string :=
  foldl (λ acc subflow, acc ∪ list_to_set (requires subflow)) ∅ (__iter__ g)
  ∖ flow_provides g.

(** *** More of what holds of graphs *)

(** The edges the second loop of a round asks for: from the recorded
    producer of each required symbol to the item. *)
Definition producer_edges (item : Task) (provided : gmap string Task) :
    list (Task * Task) :=
  omap (λ value, (λ producer, (producer, item)) <$> provided !! value) (requires item).

(** The edges the third loop asks for: from the item to every recorded
    consumer of each symbol it provides. *)
Definition consumer_edges (item : Task) (requirements : gmap string (list Task)) :
    list (Task * Task) :=
  value ← provides item;
  (λ node, (item, node)) <$> default [] (requirements !! value).

(** Linking the pairs of a list, in order. *)
Definition link_all (pairs : list (Task * Task)) : M DiGraph unit :=
  for_each (λ uv, link uv.1 uv.2) pairs.

(** Wherever a node provides a symbol a node requires, there is an edge
    from the first to the second. *)
Definition linked (g : DiGraph) : Prop :=
  ∀ u v s, u ∈ nodes g → v ∈ nodes g → s ∈ provides u → s ∈ requires v →
    (u, v) ∈ edges g.

(** Every edge goes from a provider of a symbol to a node requiring it. *)
Definition justified (es : list (Task * Task)) : Prop :=
  ∀ u v, (u, v) ∈ es → ∃ s, s ∈ provides u ∧ s ∈ requires v.

(** [requirements] lists, for each symbol, exactly the nodes requiring it. *)
Definition requirements_ok (requirements : gmap string (list Task))
    (ns : list Task) : Prop :=
  (∀ s l n, requirements !! s = Some l → n ∈ l → s ∈ requires n) ∧
  (∀ n s, n ∈ ns → s ∈ requires n → ∃ l, requirements !! s = Some l ∧ n ∈ l).

(** What holds between two rounds of an [add items] that started at
    [g0], and what holds when a round raises. *)
Record round_inv (g0 : DiGraph) (items : list Task)
    (rp : gmap string (list Task) * gmap string Task) (g : DiGraph) : Prop := {
  round_dag : dag g;
  round_maps : maps_ok rp (nodes g);
  round_requirements : requirements_ok rp.1 (nodes g);
  round_unique : unique_nodes (nodes g);
  round_linked : linked g;
  round_edges_kept : ∀ e, e ∈ edges g0 → e ∈ edges g;
  round_edges_new : ∀ e, e ∈ edges g → e ∈ edges g0 ∨ e.1 ∈ items ∨ e.2 ∈ items;
  round_nodes_kept : ∀ n, n ∈ nodes g0 → n ∈ nodes g;
  round_nodes_new : ∀ n, n ∈ nodes g → n ∈ nodes g0 ∨ n ∈ items;
  round_justified : justified (edges g0) → justified (edges g);
}.

Record raise_inv (g0 : DiGraph) (items : list Task) (e : Exn) (g : DiGraph) : Prop := {
  raise_dependency : is_DependencyFailure e;
  raise_dag : dag g;
  raise_edges_kept : ∀ e, e ∈ edges g0 → e ∈ edges g;
  raise_nodes_new : ∀ n, n ∈ nodes g → n ∈ nodes g0 ∨ n ∈ items;
  raise_justified : justified (edges g0) → justified (edges g);
}.

(** The graph of the first scenario, [A → B]. *)
Definition graph_AB : DiGraph :=
  {| nodes := [task_A; task_B]; edges := [(task_A, task_B)] |}.

Definition is_add (c : Call) : Prop :=
  match c with CallAdd _ => True | CallLink _ _ => False end.

(** A producer and a consumer that close a cycle with each other. *)
Definition task_P : Task :=
  {| tid := 4; name := "P"; requires := ["q"]; provides := ["p"] |}.
Definition task_Q : Task :=
  {| tid := 5; name := "Q"; requires := ["p"]; provides := ["q"] |}.

End GraphFlow.

(** ** The storage *)

Module Storage.

(** Modelled from the spec: the task states of [taskflow.states], which is
    not among the sources. *)
Inductive State := PENDING | RUNNING | SUCCESS | FAILURE | REVERTING | REVERTED.

#[global] Instance State_eq_dec : EqDecision State.
Proof. solve_decision. Defined.

Definition STATES_WITH_RESULTS : list State := [SUCCESS; REVERTING; FAILURE].

(** What a result can be subscripted with: a position or a key. *)
Inductive Key := KInt (z : Z) | KStr (s : string).

#[global] Instance Key_eq_dec : EqDecision Key.
Proof. solve_decision. Defined.

(** An index of a result mapping: [None] names the whole result. *)
Abbreviation Index := (option Key).

(** The payloads a task can hand to [save]: Python's [None], numbers,
    strings, tuples and lists, dictionaries with string keys, and the
    [misc.Failure] wrapper of a captured exception. *)
#[warnings="-register-all"]
Inductive Value :=
| VNone
| VInt (z : Z)
| VFloat (q : Q)
| VStr (s : string)
| VList (l : list Value)
| VDict (d : gmap string Value)
| VFailure (exception_str : string).

Definition is_Failure (data : Value) : bool :=
  match data with VFailure _ => true | _ => false end.

(** Python's positional subscript: negative positions count from the end,
    positions outside the sequence raise [IndexError]. *)
Definition position (len : nat) (z : Z) : option nat :=
  if bool_decide (0 ≤ z < Z.of_nat len)%Z then Some (Z.to_nat z)
  else if bool_decide (- Z.of_nat len ≤ z < 0)%Z then Some (Z.to_nat (Z.of_nat len + z))
  else None.

(** [result[index]]; [None] stands for the [IndexError], [KeyError],
    [ValueError] or [TypeError] Python raises. *)
Definition getitem (result : Value) (index : Key) : option Value :=
  match result, index with
  | VList l, KInt z => i ← position (length l) z; l !! i
  | VStr s, KInt z =>
      i ← position (String.length s) z; Some (VStr (String.substring i 1 s))
  | VDict d, KStr k => d !! k
  | _, _ => None
  end.

Definition _item_from_result {S} (result : Value) (index : Index) (name : string) :
    M S Value :=
  match index with
  | None => ret result
  | Some k =>
      match getitem result k with
      | Some v => ret v
      | None => raise (NotFound (UnableToFindResult name))
      end
  end.

(** Modelled from the spec: [logbook.TaskDetail], which is not among the
    sources: identity, state, results and the optional [meta] mapping. *)
Record TaskDetail := {
  uuid : string;
  name : string;
  state : State;
  results : Value;
  meta : option (gmap string Value);
}.

(** Modelled from the spec: [logbook.FlowDetail], which is not among the
    sources: the flow state and the task details in the order they were
    added; [find] and [find_by_name] return the first match. *)
Record FlowDetail := {
  flow_state : option State;
  taskdetails : list TaskDetail;
}.

Definition fd_add (td : TaskDetail) (fd : FlowDetail) : FlowDetail :=
  {| flow_state := flow_state fd; taskdetails := taskdetails fd ++ [td] |}.

(** The position stands for the reference Python returns. *)
Definition find (u : string) (fd : FlowDetail) : option (nat * TaskDetail) :=
  list_find (λ td, uuid td = u) (taskdetails fd).

Definition find_by_name (n : string) (fd : FlowDetail) : option (nat * TaskDetail) :=
  list_find (λ td, name td = n) (taskdetails fd).

(** Modelled from the spec: [TaskDetail.update] and [FlowDetail.update]
    overlay the fields of the detail the backend returned onto the
    recipient; [uuid] and [name] are immutable. *)
Definition td_update (td other : TaskDetail) : TaskDetail :=
  {| uuid := uuid td; name := name td; state := state other;
     results := results other; meta := meta other |}.

Definition fd_update (fd other : FlowDetail) : FlowDetail :=
  {| flow_state := flow_state other; taskdetails := taskdetails other |}.

(** A connection of the backend driver, which is outside the sources:
    what it answers to the detail it is handed.  The flow detail it
    answers with holds task detail objects of its choosing, and
    [FlowDetail.update] takes that list over: [same_object fd i] is the
    position, in the answer to [fd], of the very object that is at
    position [i] of [fd], if the answer holds that object. *)
Record Backend := {
  update_flow_details : FlowDetail → FlowDetail;
  update_task_details : TaskDetail → TaskDetail;
  same_object : FlowDetail → nat → option nat;
}.

(** A [LOG.warning] record of [_check_all_results_provided]. *)
Record Warning := {
  w_task_name : string;
  w_index : Index;
  w_name : string;
}.

(** The fields of a [Storage], and in [LOG] the records the module's
    logger has received. *)
Record Storage := {
  _result_mappings : gmap string (gmap string Index);
  _reverse_mapping : gmap string (list (string * Index));
  _backend : option Backend;
  _flowdetail : FlowDetail;
  LOG : list Warning;
}.

Definition injector_name : string := "_TaskFlow_INJECTOR".

(** [Storage(flow_detail, backend)] *)
Definition init (flow_detail : FlowDetail) (backend : option Backend) : Storage :=
  {| _result_mappings := ∅; _reverse_mapping := ∅; _backend := backend;
     _flowdetail := flow_detail; LOG := [] |}.

Definition set_flowdetail (f : FlowDetail → FlowDetail) (s : Storage) : Storage :=
  {| _result_mappings := _result_mappings s; _reverse_mapping := _reverse_mapping s;
     _backend := _backend s; _flowdetail := f (_flowdetail s); LOG := LOG s |}.

Definition set_reverse_mapping
    (f : gmap string (list (string * Index)) → gmap string (list (string * Index)))
    (s : Storage) : Storage :=
  {| _result_mappings := _result_mappings s; _reverse_mapping := f (_reverse_mapping s);
     _backend := _backend s; _flowdetail := _flowdetail s; LOG := LOG s |}.

Definition set_result_mappings
    (f : gmap string (gmap string Index) → gmap string (gmap string Index))
    (s : Storage) : Storage :=
  {| _result_mappings := f (_result_mappings s); _reverse_mapping := _reverse_mapping s;
     _backend := _backend s; _flowdetail := _flowdetail s; LOG := LOG s |}.

(** The log after more records were written. *)
Definition logged (ws : list Warning) (s : Storage) : Storage :=
  {| _result_mappings := _result_mappings s; _reverse_mapping := _reverse_mapping s;
     _backend := _backend s; _flowdetail := _flowdetail s; LOG := LOG s ++ ws |}.

(** In-place change of the task detail at position [i]. *)
Definition set_taskdetail (i : nat) (f : TaskDetail → TaskDetail) : Storage → Storage :=
  set_flowdetail (λ fd,
    {| flow_state := flow_state fd; taskdetails := alter f i (taskdetails fd) |}).

Definition _with_connection (functor : Backend → M Storage unit) : M Storage unit :=
  s ← get_state;
  match _backend s with
  | None => ret tt
  | Some conn => functor conn
  end.

Definition _save_flow_detail (conn : Backend) : M Storage unit :=
  modify (set_flowdetail (λ fd, fd_update fd (update_flow_details conn fd))).

Definition _save_task_detail (task_detail : nat) (conn : Backend) : M Storage unit :=
  modify (set_taskdetail task_detail (λ td, td_update td (update_task_details conn td))).

(** [add_task] keeps a reference to the detail it creates.  The detail
    is appended at position [i]; once [_save_flow_detail] has taken the
    backend's list over, the reference points to where that object is in
    the new list, or to an object the flow detail no longer holds, and
    then the last update shows nowhere in the storage. *)
Definition add_task (uuid task_name : string) : M Storage unit :=
  let td := {| uuid := uuid; name := task_name; state := PENDING;
               results := VNone; meta := None |} in
  s ← get_state;
  let i := length (taskdetails (_flowdetail s)) in
  modify (set_flowdetail (fd_add td));;
  s1 ← get_state;
  _with_connection _save_flow_detail;;
  _with_connection (λ conn,
    match same_object conn (_flowdetail s1) i with
    | Some j => _save_task_detail j conn
    | None => ret tt
    end).

Definition get_uuid_by_name (task_name : string) : M Storage string :=
  s ← get_state;
  match find_by_name task_name (_flowdetail s) with
  | Some (_, td) => ret (uuid td)
  | None => raise (NotFound (UnknownTaskName task_name))
  end.

Definition _taskdetail_by_uuid (uuid : string) : M Storage (nat * TaskDetail) :=
  s ← get_state;
  match find uuid (_flowdetail s) with
  | None => raise (NotFound (UnknownTask uuid))
  | Some td => ret td
  end.

Definition with_state (st : State) (td : TaskDetail) : TaskDetail :=
  {| uuid := uuid td; name := name td; state := st; results := results td;
     meta := meta td |}.

Definition with_results (data : Value) (td : TaskDetail) : TaskDetail :=
  {| uuid := uuid td; name := name td; state := state td; results := data;
     meta := meta td |}.

Definition with_meta (m : option (gmap string Value)) (td : TaskDetail) : TaskDetail :=
  {| uuid := uuid td; name := name td; state := state td; results := results td;
     meta := m |}.

Definition set_task_state (uuid : string) (state : State) : M Storage unit :=
  td ← _taskdetail_by_uuid uuid;
  modify (set_taskdetail td.1 (with_state state));;
  _with_connection (_save_task_detail td.1).

Definition get_task_state (uuid : string) : M Storage State :=
  td ← _taskdetail_by_uuid uuid;
  ret (state td.2).

(** [kwargs] are the keyword arguments; a [meta] that is [None] or empty
    is falsy. *)
Definition set_task_progress (uuid : string) (progress : Value)
    (kwargs : gmap string Value) : M Storage unit :=
  td ← _taskdetail_by_uuid uuid;
  let meta0 := default ∅ (meta td.2) in
  let meta1 := <["progress" := progress]> meta0 in
  let meta2 := if decide (kwargs = ∅) then delete "progress_details" meta1
               else <["progress_details" := VDict kwargs]> meta1 in
  modify (set_taskdetail td.1 (with_meta (Some meta2)));;
  _with_connection (_save_task_detail td.1).

Definition get_task_progress (uuid : string) : M Storage Value :=
  td ← _taskdetail_by_uuid uuid;
  ret (default (VFloat 0) (meta td.2 ≫= (.!! "progress"))).

Definition get_task_progress_details (uuid : string) : M Storage Value :=
  td ← _taskdetail_by_uuid uuid;
  ret (default VNone (meta td.2 ≫= (.!! "progress_details"))).

(** [try: c except exceptions.NotFound: h] *)
Definition except_NotFound {S A} (c : M S A) (h : M S A) : M S A :=
  try_except c (λ e, match e with NotFound _ => h | _ => raise e end).

Definition LOG_warning (w : Warning) : M Storage unit := modify (logged [w]).

Definition _check_all_results_provided (uuid task_name : string) (data : Value) :
    M Storage unit :=
  s ← get_state;
  match _result_mappings s !! uuid with
  | None => ret tt
  | Some result_mapping =>
      for_each (λ ni : string * Index,
          except_NotFound
            (_item_from_result data ni.2 ni.1;; ret tt)
            (LOG_warning {| w_task_name := task_name; w_index := ni.2; w_name := ni.1 |}))
        (map_to_list result_mapping)
  end.

(** [save(uuid, data, state)]; Python's default for [state] is [SUCCESS]. *)
Definition save (uuid : string) (data : Value) (state : State) : M Storage unit :=
  td ← _taskdetail_by_uuid uuid;
  modify (set_taskdetail td.1 (λ td, with_results data (with_state state td)));;
  _with_connection (_save_task_detail td.1);;
  if negb (is_Failure data) then _check_all_results_provided uuid (name td.2) data
  else ret tt.

Definition get (uuid : string) : M Storage Value :=
  td ← _taskdetail_by_uuid uuid;
  if bool_decide (state td.2 ∈ STATES_WITH_RESULTS) then ret (results td.2)
  else raise (NotFound (ResultNotKnown uuid)).

(** [reset(uuid, state)]; Python's default for [state] is [PENDING]. *)
Definition reset (uuid : string) (state : State) : M Storage unit :=
  td ← _taskdetail_by_uuid uuid;
  modify (set_taskdetail td.1 (λ td, with_state state (with_results VNone td)));;
  _with_connection (_save_task_detail td.1).

(** [entries = self._reverse_mapping.setdefault(name, []);
     entries.append(entry)] *)
Definition append_entry (name : string) (entry : string * Index) : M Storage unit :=
  modify (set_reverse_mapping (λ rm, <[name := default [] (rm !! name) ++ [entry]]> rm)).

(** [inject(pairs)]; the uuid that [uuidutils.generate_uuid()] returns is
    an argument. *)
Definition inject (injector_uuid : string) (pairs : gmap string Value) : M Storage unit :=
  add_task injector_uuid injector_name;;
  save injector_uuid (VDict pairs) SUCCESS;;
  for_each (λ name, append_entry name (injector_uuid, Some (KStr name)))
           (map_to_list pairs).*1.

Definition set_result_mapping (uuid : string) (mapping : gmap string Index) :
    M Storage unit :=
  if decide (mapping = ∅) then ret tt
  else
    modify (set_result_mappings (<[uuid := mapping]>));;
    for_each (λ ni : string * Index, append_entry ni.1 (uuid, ni.2))
             (map_to_list mapping).

(** The loop of [fetch] over the entries registered for [name]. *)
Fixpoint fetch_entries (name : string) (indexes : list (string * Index)) :
    M Storage Value :=
  match indexes with
  | [] => raise (NotFound (UnableToFindResult name))
  | (uuid, index) :: rest =>
      except_NotFound
        (result ← get uuid; _item_from_result result index name)
        (fetch_entries name rest)
  end.

Definition fetch (name : string) : M Storage Value :=
  s ← get_state;
  match _reverse_mapping s !! name with
  | None => raise (NotFound (NameNotMapped name))
  | Some indexes => fetch_entries name indexes
  end.

Definition fetch_all : M Storage (gmap string Value) :=
  s ← get_state;
  for_fold (λ result name,
      except_NotFound (v ← fetch name; ret (<[name := v]> result)) (ret result))
    ∅ (map_to_list (_reverse_mapping s)).*1.

Definition fetch_mapped_args (args_mapping : gmap string string) :
    M Storage (gmap string Value) :=
  for_fold (λ result (kn : string * string),
      v ← fetch kn.2; ret (<[kn.1 := v]> result))
    ∅ (map_to_list args_mapping).

Definition set_flow_state (state : State) : M Storage unit :=
  modify (set_flowdetail (λ fd,
    {| flow_state := Some state; taskdetails := taskdetails fd |}));;
  _with_connection _save_flow_detail.

Definition get_flow_state : M Storage (option State) :=
  s ← get_state; ret (flow_state (_flowdetail s)).

(** The calls that change a storage, and the storage a sequence of them
    leaves behind (calls that raise included). *)
Inductive Op :=
| OpAddTask (uuid task_name : string)
| OpSetTaskState (uuid : string) (state : State)
| OpSetTaskProgress (uuid : string) (progress : Value) (kwargs : gmap string Value)
| OpSave (uuid : string) (data : Value) (state : State)
| OpReset (uuid : string) (state : State)
| OpInject (injector_uuid : string) (pairs : gmap string Value)
| OpSetResultMapping (uuid : string) (mapping : gmap string Index)
| OpSetFlowState (state : State).

Definition run_op (o : Op) : M Storage unit :=
  match o with
  | OpAddTask uuid task_name => add_task uuid task_name
  | OpSetTaskState uuid state => set_task_state uuid state
  | OpSetTaskProgress uuid progress kwargs => set_task_progress uuid progress kwargs
  | OpSave uuid data state => save uuid data state
  | OpReset uuid state => reset uuid state
  | OpInject injector_uuid pairs => inject injector_uuid pairs
  | OpSetResultMapping uuid mapping => set_result_mapping uuid mapping
  | OpSetFlowState state => set_flow_state state
  end.

Definition run_ops (ops : list Op) (s : Storage) : Storage :=
  foldl (λ s o, (run_op o s).2) s ops.

(** *** What the specification says about storages *)

Definition empty_flow_detail : FlowDetail := {| flow_state := None; taskdetails := [] |}.

Definition has_results (st : State) : bool := bool_decide (st ∈ STATES_WITH_RESULTS).

(** No backend, or one that hands back the detail it was given: no other
    writer has changed the record. *)
Definition no_peer_writes (backend : option Backend) : Prop :=
  match backend with
  | None => True
  | Some conn =>
      (∀ fd, update_flow_details conn fd = fd) ∧ (∀ td, update_task_details conn td = td)
  end.

(** The task detail [find] returns for a uuid. *)
Definition task (s : Storage) (u : string) : option TaskDetail :=
  snd <$> find u (_flowdetail s).

(** The value an index resolves to against a result, if it does. *)
Definition extract (result : Value) (index : Index) : option Value :=
  match index with
  | None => Some result
  | Some k => getitem result k
  end.

(** The value an entry of the reverse mapping yields: its task is known,
    in a state with results, and the index resolves. *)
Definition yields (s : Storage) (entry : string * Index) : option Value :=
  td ← task s entry.1;
  if has_results (state td) then extract (results td) entry.2 else None.

(** The warnings the completeness check logs for [data]. *)
Definition missing_results (task_name : string) (data : Value)
    (result_mapping : gmap string Index) : list Warning :=
  omap (λ ni : string * Index,
          match extract data ni.2 with
          | Some _ => None
          | None => Some {| w_task_name := task_name; w_index := ni.2; w_name := ni.1 |}
          end)
       (map_to_list result_mapping).

(** The detail [add_task] creates. *)
Definition new_detail (u n : string) : TaskDetail :=
  {| uuid := u; name := n; state := PENDING; results := VNone; meta := None |}.

(** The detail after [save] has written to it. *)
Definition stored (data : Value) (st : State) (td : TaskDetail) : TaskDetail :=
  with_results data (with_state st td).

(** The detail [inject] leaves for a new uuid. *)
Definition injected (u : string) (pairs : gmap string Value) : TaskDetail :=
  {| uuid := u; name := injector_name; state := SUCCESS; results := VDict pairs;
     meta := None |}.

(** A task that failed, its whole result named ["outcome"]. *)
Definition failed_storage : Storage :=
  ((add_task "u" "t";;
    set_result_mapping "u" {["outcome" := None]};;
    save "u" (VFailure "boom") FAILURE) (init empty_flow_detail None)).2.

(** A task with a saved result. *)
Definition saved_storage : Storage :=
  ((add_task "u" "t";; save "u" (VList [VInt 42]) SUCCESS)
     (init empty_flow_detail None)).2.

(** Scenario 6 of the specification. *)
Definition mapped_storage : Storage :=
  ((add_task "u" "t";;
    set_result_mapping "u" {["a" := Some (KInt 0); "b" := Some (KInt 5)]})
     (init empty_flow_detail None)).2.

(** The results of [td] were put there by a [save] of the sequence, or by
    the [save] inside an [inject]. *)
Definition assigned (ops : list Op) (td : TaskDetail) : Prop :=
  (∃ st, OpSave (uuid td) (results td) st ∈ ops) ∨
  (∃ pairs, OpInject (uuid td) pairs ∈ ops ∧ results td = VDict pairs).

(** "Whenever the state is one with results, the results have been
    assigned", for every sequence of calls on a new storage. *)
Definition results_always_assigned : Prop :=
  ∀ ops td,
    td ∈ taskdetails (_flowdetail (run_ops ops (init empty_flow_detail None))) →
    has_results (state td) = true → assigned ops td.

(** A call that puts the task [u] into a state with results without
    saving a result. *)
Definition forces_results_state (u : string) (o : Op) : Prop :=
  match o with
  | OpSetTaskState u' st | OpReset u' st => u' = u ∧ has_results st = true
  | _ => False
  end.

(** "After [save], [fetch] of a name of the task's result mapping
    returns the value its index resolves to, and raises not-found when
    the index does not resolve", on the storages a sequence of calls
    reaches. *)
Definition fetch_follows_own_index : Prop :=
  ∀ ops u td data st mapping name index,
    let s := run_ops ops (init empty_flow_detail None) in
    task s u = Some td → is_Failure data = false →
    _result_mappings s !! u = Some mapping → mapping !! name = Some index →
    let s' := (save u data st s).2 in
    match extract data index with
    | Some v => (fetch name s').1 = Returned v
    | None => ∃ msg, (fetch name s').1 = Raised (NotFound msg)
    end.

(** *** More of what holds of storages *)

(** What [fetch] returns for a name, if it returns. *)
Definition fetch_value (s : Storage) (n : string) : option Value :=
  match (fetch n s).1 with
  | Returned v => Some v
  | Raised _ => None
  end.

(** The entries [l] are registered for [n], in that order, before any
    other entry for [n]. *)
Definition registered (n : string) (l : list (string * Index)) (s : Storage) : Prop :=
  ∃ l', _reverse_mapping s !! n = Some (l ++ l').

(** The [meta] mapping [set_task_progress] leaves. *)
Definition progress_meta (m : option (gmap string Value)) (progress : Value)
    (kwargs : gmap string Value) : gmap string Value :=
  if decide (kwargs = ∅) then delete "progress_details" (<["progress" := progress]> (default ∅ m))
  else <["progress_details" := VDict kwargs]> (<["progress" := progress]> (default ∅ m)).

End Storage.

(** * Properties *)

Close Scope string_scope.

(** ** Rules for the triples *)

Section rules.
Context {S : Type}.
Implicit Types (P I : S → Prop) (E : Exn → S → Prop).

Lemma hoare_ret {A} P (a : A) (Q : A → S → Prop) E :
  (∀ s, P s → Q a s) → hoare P (mret a) Q E.
Proof. intros H s Hs. by apply H. Qed.

Lemma hoare_raise {A} P e (Q : A → S → Prop) E :
  (∀ s, P s → E e s) → hoare P (raise e) Q E.
Proof. intros H s Hs. by apply H. Qed.

Lemma hoare_bind {A B} P (c : M S A) (f : A → M S B) Q' Q E :
  hoare P c Q' E → (∀ a, hoare (Q' a) (f a) Q E) → hoare P (c ≫= f) Q E.
Proof.
  intros Hc Hf s Hs. specialize (Hc s Hs).
  unfold mbind, M_bind, bind. destruct (c s) as [[a|e] s']; [by apply Hf | done].
Qed.

Lemma hoare_modify P (f : S → S) (Q : unit → S → Prop) E :
  (∀ s, P s → Q tt (f s)) → hoare P (modify f) Q E.
Proof. intros H s Hs. by apply H. Qed.

Lemma hoare_try {A} P (c : M S A) h Q E' E :
  hoare P c Q E' → (∀ e, hoare (E' e) (h e) Q E) → hoare P (try_except c h) Q E.
Proof.
  intros Hc Hh s Hs. specialize (Hc s Hs).
  unfold try_except. destruct (c s) as [[a|e] s']; [done | by apply Hh].
Qed.

Lemma hoare_conseq {A} P P' (c : M S A) (Q Q' : A → S → Prop) E E' :
  hoare P' c Q' E' → (∀ s, P s → P' s) → (∀ a s, Q' a s → Q a s) →
  (∀ e s, E' e s → E e s) → hoare P c Q E.
Proof.
  intros Hc HP HQ HE s Hs. specialize (Hc s (HP s Hs)).
  destruct (c s) as [[a|e] s']; auto.
Qed.

Lemma hoare_for_fold {A B} (J : B → S → Prop) (body : B → A → M S B) E l :
  (∀ acc x, x ∈ l → hoare (J acc) (body acc x) J E) →
  ∀ acc, hoare (J acc) (for_fold body acc l) J E.
Proof.
  induction l as [|x l IH]; intros Hbody acc; simpl.
  - by apply hoare_ret.
  - eapply hoare_bind; [apply Hbody; left |].
    intros acc'. apply IH. intros ? y Hy. apply Hbody. by right.
Qed.

(** The same with an invariant that knows which items are done. *)
Lemma hoare_for_fold_from {A B} (J : list A → B → S → Prop)
    (body : B → A → M S B) E l : ∀ done acc,
  (∀ pre x post acc, l = pre ++ x :: post →
     hoare (J (done ++ pre) acc) (body acc x) (J (done ++ pre ++ [x])) E) →
  hoare (J done acc) (for_fold body acc l) (J (done ++ l)) E.
Proof.
  induction l as [|x l IH]; intros done acc Hbody; simpl.
  - apply hoare_ret. intros s. by rewrite app_nil_r.
  - eapply hoare_bind.
    + specialize (Hbody [] x l acc eq_refl). rewrite app_nil_r in Hbody.
      exact Hbody.
    + intros acc'. simpl.
      replace (done ++ x :: l) with ((done ++ [x]) ++ l) by by rewrite <- app_assoc.
      apply IH. intros pre y post acc'' ->.
      rewrite <- !app_assoc. simpl. by apply (Hbody (x :: pre) y post).
Qed.

Lemma hoare_for_fold_prefix {A B} (J : list A → B → S → Prop)
    (body : B → A → M S B) E l acc :
  (∀ pre x post acc, l = pre ++ x :: post →
     hoare (J pre acc) (body acc x) (J (pre ++ [x])) E) →
  hoare (J [] acc) (for_fold body acc l) (J l) E.
Proof. intros H. by apply (hoare_for_fold_from J body E l []). Qed.

Lemma for_fold_app {A B} (body : B → A → M S B) l1 l2 acc s :
  for_fold body acc (l1 ++ l2) s =
  (for_fold body acc l1 ≫= λ acc', for_fold body acc' l2) s.
Proof.
  revert acc s. induction l1 as [|x l1 IH]; intros acc s; simpl; [done |].
  unfold mbind, M_bind, bind in *.
  destruct (body acc x s) as [[acc'|e] s']; [apply IH | done].
Qed.

Lemma hoare_for_each {A} I (body : A → M S unit) E l :
  (∀ x, x ∈ l → hoare I (body x) (λ _, I) E) →
  hoare I (for_each body l) (λ _, I) E.
Proof. intros H. apply (hoare_for_fold (λ _, I)). auto. Qed.

Lemma stable_ret {A} I (a : A) : stable I (mret a : M S A).
Proof. by apply hoare_ret. Qed.

Lemma stable_raise {A} I e : stable I (raise e : M S A).
Proof. by apply hoare_raise. Qed.

Lemma stable_bind {A B} I (c : M S A) (f : A → M S B) :
  stable I c → (∀ a, stable I (f a)) → stable I (c ≫= f).
Proof. intros Hc Hf. eapply hoare_bind; [exact Hc | exact Hf]. Qed.

Lemma stable_modify I (f : S → S) : (∀ s, I s → I (f s)) → stable I (modify f).
Proof. intros H. by apply hoare_modify. Qed.

Lemma stable_get {B} I (f : S → M S B) :
  (∀ s0, stable I (f s0)) → stable I (get_state ≫= f).
Proof. intros Hf s Hs. by apply (Hf s s). Qed.

Lemma stable_try {A} I (c : M S A) h :
  stable I c → (∀ e, stable I (h e)) → stable I (try_except c h).
Proof. intros Hc Hh. eapply hoare_try; [exact Hc | exact Hh]. Qed.

Lemma stable_for_fold {A B} I (body : B → A → M S B) l acc :
  (∀ acc x, x ∈ l → stable I (body acc x)) → stable I (for_fold body acc l).
Proof. intros H. apply (hoare_for_fold (λ _, I)). exact H. Qed.

Lemma stable_for_each {A} I (body : A → M S unit) l :
  (∀ x, x ∈ l → stable I (body x)) → stable I (for_each body l).
Proof. intros H. by apply hoare_for_each. Qed.
End rules.

(** ** The graph flow *)

Module GraphFlowProps.
Import GraphFlow.

(** *** The acyclicity test *)

Lemma no_pred_spec es n : no_pred es n = true ↔ ∀ u, (u, n) ∉ es.
Proof.
  unfold no_pred. rewrite forallb_forall. split.
  - intros H u Hin. apply list_elem_of_In, H in Hin. simpl in Hin.
    by rewrite bool_decide_eq_true_2 in Hin.
  - intros H [u v] Hin. apply negb_true_iff, bool_decide_eq_false. simpl.
    intros ->. apply (H u). by apply list_elem_of_In.
Qed.

Lemma no_pred_false es n : no_pred es n = false → ∃ u, (u, n) ∈ es.
Proof.
  induction es as [|[u v] es IH]; simpl; [done |].
  case_bool_decide as Hv; simpl in *.
  - intros _. exists u. subst. by left.
  - intros [w Hw]%IH. exists w. by right.
Qed.

Lemma tc_last {A} (R : relation A) x y : tc R x y → ∃ z, R z y.
Proof. induction 1; eauto. Qed.

Lemma acyclic_edges_subseteq es es' :
  (∀ e, e ∈ es' → e ∈ es) → acyclic_edges es → acyclic_edges es'.
Proof.
  intros Hsub Hes v Hv. apply (Hes v).
  apply (tc_congruence id (rel es)) in Hv; [done |].
  intros x y. apply Hsub.
Qed.

(** A path that does not start at a node without predecessor never
    touches that node. *)
Lemma tc_avoid es n a b :
  (∀ u, (u, n) ∉ es) → a ≠ n → tc (rel es) a b →
  tc (rel (filter (λ e, e.1 ≠ n ∧ e.2 ≠ n) es)) a b.
Proof.
  intros Hn Ha Hab. induction Hab as [x y Hxy | x y z Hxy Hyz IH].
  - apply tc_once. apply list_elem_of_filter. split; [|done].
    split; [done |]. simpl. intros ->. by apply (Hn x).
  - assert (y ≠ n) by (intros ->; by apply (Hn x)).
    eapply tc_l; [|by apply IH]. apply list_elem_of_filter. by split.
Qed.

Lemma closed_edges_peel ns es n :
  closed_edges ns es →
  closed_edges (filter (λ m, m ≠ n) ns) (filter (λ e, e.1 ≠ n ∧ e.2 ≠ n) es).
Proof.
  intros Hc u v [[Hu Hv] Hin]%list_elem_of_filter. simpl in *.
  apply Hc in Hin as [? ?]. split; by apply list_elem_of_filter.
Qed.

Lemma peel_cons fuel n0 ns es :
  peel (S fuel) (n0 :: ns) es =
  match List.find (no_pred es) (n0 :: ns) with
  | None => false
  | Some n => peel fuel (filter (λ m, m ≠ n) (n0 :: ns))
                   (filter (λ e, e.1 ≠ n ∧ e.2 ≠ n) es)
  end.
Proof. reflexivity. Qed.

Lemma peel_sound fuel : ∀ ns es,
  closed_edges ns es → peel fuel ns es = true → acyclic_edges es.
Proof.
  induction fuel as [|fuel IH]; intros ns es Hc Hp v Hv.
  - destruct ns; [|done].
    apply tc_last in Hv as [z [_ Hz]%Hc]. by apply elem_of_nil in Hz.
  - destruct ns as [|n0 ns].
    { apply tc_last in Hv as [z [_ Hz]%Hc]. by apply elem_of_nil in Hz. }
    rewrite peel_cons in Hp. destruct (List.find _ _) as [n|] eqn:Hf; [|done].
    apply find_some in Hf as [_ Hn]. pose proof (proj1 (no_pred_spec _ _) Hn) as Hn'.
    destruct (decide (v = n)) as [->|Hne].
    + apply tc_last in Hv as [z Hz]. by apply (Hn' z).
    + eapply (IH _ _ (closed_edges_peel _ _ n Hc) Hp v), tc_avoid; eauto.
Qed.

(** Walking backwards along edges from any node of a closed acyclic graph
    ends at a node without predecessor: the nodes met are pairwise
    distinct, and there are only [length ns] of them. *)
Lemma source_exists ns es :
  closed_edges ns es → acyclic_edges es →
  ∀ k cur visited,
    cur ∈ ns → NoDup (cur :: visited) → (∀ x, x ∈ visited → x ∈ ns) →
    (∀ w, w ∈ visited → tc (rel es) cur w) →
    length ns ≤ k + length (cur :: visited) →
    ∃ n, n ∈ ns ∧ no_pred es n = true.
Proof.
  intros Hc Hac. induction k as [|k IH]; intros cur visited Hcur Hnd Hvis Hreach Hlen.
  - destruct (no_pred es cur) eqn:Hnp; [by eauto |].
    apply no_pred_false in Hnp as [p Hp].
    exfalso.
    assert (NoDup (p :: cur :: visited)) as Hnd'.
    { apply NoDup_cons. split; [|done]. intros [->|Hin]%elem_of_cons.
      - apply (Hac cur). by apply tc_once.
      - apply (Hac cur). eapply tc_r; [by apply Hreach | done]. }
    apply NoDup_submseteq with (k := ns) in Hnd'.
    + apply submseteq_length in Hnd'. simpl in *. lia.
    + intros x [->|[->|Hx]%elem_of_cons]%elem_of_cons; auto. by apply (Hc _ _ Hp).
  - destruct (no_pred es cur) eqn:Hnp; [by eauto |].
    apply no_pred_false in Hnp as [p Hp].
    apply (IH p (cur :: visited)).
    + by apply (Hc _ _ Hp).
    + apply NoDup_cons. split; [|done]. intros [->|Hin]%elem_of_cons.
      * apply (Hac cur). by apply tc_once.
      * apply (Hac cur). eapply tc_r; [by apply Hreach | done].
    + intros x [->|Hx]%elem_of_cons; auto.
    + intros w [->|Hw]%elem_of_cons; [by apply tc_once |].
      eapply tc_l; [exact Hp | by apply Hreach].
    + simpl in *. lia.
Qed.

Lemma peel_complete fuel : ∀ ns es,
  length ns ≤ fuel → closed_edges ns es → acyclic_edges es → peel fuel ns es = true.
Proof.
  induction fuel as [|fuel IH]; intros ns es Hlen Hc Hac.
  - destruct ns; [done | simpl in Hlen; lia].
  - destruct ns as [|n0 ns]; [done |]. rewrite peel_cons.
    destruct (List.find _ _) as [n|] eqn:Hf.
    + apply find_some in Hf as [Hin Hn]. apply list_elem_of_In in Hin.
      apply IH.
      * pose proof (length_filter_lt (λ m, m ≠ n) _ n Hin) as Hlt.
        simpl in *. cut (length (filter (λ m, m ≠ n) (n0 :: ns)) < S (length ns)); [lia |].
        apply Hlt. by intros ?.
      * by apply closed_edges_peel.
      * eapply acyclic_edges_subseteq; [|exact Hac].
        by intros e [_ ?]%list_elem_of_filter.
    + destruct (source_exists _ _ Hc Hac (length ns) n0 []) as (n & Hin & Hn).
      * by left.
      * apply NoDup_singleton.
      * by intros x ?%elem_of_nil.
      * by intros x ?%elem_of_nil.
      * simpl. lia.
      * apply list_elem_of_In in Hin. by rewrite (find_none _ _ Hf n Hin) in Hn.
Qed.

(** On the graphs the library can hold, the test answers [true] exactly
    when there is no cycle. *)
Lemma is_directed_acyclic_graph_spec g :
  closed g → is_directed_acyclic_graph g = true ↔ acyclic g.
Proof.
  intros Hc. split.
  - by apply peel_sound.
  - by apply peel_complete.
Qed.

(** *** The graph operations *)

Lemma elem_of_nodes_add_node n g x : x ∈ nodes (add_node n g) ↔ x ∈ nodes g ∨ x = n.
Proof.
  unfold add_node, has_node. case_bool_decide; simpl.
  - split; [by left | by intros [?| ->]].
  - rewrite elem_of_app, list_elem_of_singleton. done.
Qed.

Lemma edges_add_node n g : edges (add_node n g) = edges g.
Proof. unfold add_node. by destruct (has_node g n). Qed.

Lemma add_node_present n g : n ∈ nodes g → add_node n g = g.
Proof. intros Hn. unfold add_node, has_node. by rewrite bool_decide_eq_true_2. Qed.

Lemma nodes_add_edge u v g :
  u ∈ nodes g → v ∈ nodes g → nodes (add_edge u v g) = nodes g.
Proof.
  intros Hu Hv. unfold add_edge.
  rewrite (add_node_present u), (add_node_present v) by done.
  by destruct (has_edge g u v).
Qed.

Lemma elem_of_edges_add_edge u v g e :
  e ∈ edges (add_edge u v g) ↔ e ∈ edges g ∨ e = (u, v).
Proof.
  unfold add_edge, has_edge. rewrite !edges_add_node. case_bool_decide; simpl.
  - rewrite ?edges_add_node. split; [by left | by intros [?| ->]].
  - rewrite ?edges_add_node, elem_of_app, list_elem_of_singleton. done.
Qed.

Lemma closed_add_node n g : closed g → closed (add_node n g).
Proof.
  intros Hc u v. rewrite edges_add_node, !elem_of_nodes_add_node.
  intros [? ?]%Hc. auto.
Qed.

Lemma dag_add_node n g : dag g → dag (add_node n g).
Proof.
  intros [Hc Ha]. split; [by apply closed_add_node |].
  unfold acyclic. by rewrite edges_add_node.
Qed.

Lemma closed_add_edge u v g :
  u ∈ nodes g → v ∈ nodes g → closed g → closed (add_edge u v g).
Proof.
  intros Hu Hv Hc a b. rewrite nodes_add_edge by done.
  intros [Hin | [= -> ->]]%elem_of_edges_add_edge; [by apply Hc | done].
Qed.

Lemma dag_remove_nodes_from items g : dag g → dag (remove_nodes_from items g).
Proof.
  intros [Hc Ha]. split.
  - intros a b [[Ha' Hb'] Hin]%list_elem_of_filter. simpl in *.
    apply Hc in Hin as [? ?]. split; by apply list_elem_of_filter.
  - eapply acyclic_edges_subseteq; [|exact Ha].
    by intros e [_ ?]%list_elem_of_filter.
Qed.

(** [Flow.link], one outcome at a time. *)
Lemma link_cases u v g :
  link u v g =
  if negb (has_node g u) then (Raised (ValueError (ItemNotFoundToLinkFrom u)), g)
  else if negb (has_node g v) then (Raised (ValueError (ItemNotFoundToLinkTo v)), g)
  else if is_directed_acyclic_graph (add_edge u v g)
       then (Returned tt, add_edge u v g)
       else (Raised (DependencyFailure NoPathThroughItems),
             remove_edge u v (add_edge u v g)).
Proof.
  unfold link, mbind, M_bind, bind, get_state. simpl.
  destruct (has_node g u), (has_node g v); simpl; try done.
  unfold modify. by destruct (is_directed_acyclic_graph _).
Qed.

Lemma nodes_link u v g : nodes (link u v g).2 = nodes g.
Proof.
  rewrite link_cases. unfold has_node.
  repeat case_bool_decide; simpl; try done.
  destruct (is_directed_acyclic_graph _); simpl; by rewrite nodes_add_edge.
Qed.

(** When the new edge closes a cycle it is taken out again, and what is
    left has no edge the graph did not have before. *)
Lemma link_stable_dag u v : stable dag (link u v).
Proof.
  intros g [Hc Ha]. rewrite link_cases. unfold has_node.
  repeat case_bool_decide; simpl; try done.
  assert (closed (add_edge u v g)) as Hc' by by apply closed_add_edge.
  destruct (is_directed_acyclic_graph _) eqn:Hd.
  - split; [done |]. by apply is_directed_acyclic_graph_spec.
  - split.
    + intros a b [_ Hin]%list_elem_of_filter. by apply Hc'.
    + eapply acyclic_edges_subseteq; [|exact Ha].
      intros e [Hne [?|?]%elem_of_edges_add_edge]%list_elem_of_filter; done.
Qed.

Lemma claim_provides_stable (I : DiGraph → Prop) item provided :
  stable I (claim_provides item provided).
Proof.
  apply stable_for_fold. intros p value _.
  destruct (p !! value); [apply stable_raise | apply stable_ret].
Qed.

Lemma link_producers_stable_dag item provided :
  stable dag (link_producers item provided).
Proof.
  apply stable_for_each. intros value _.
  destruct (provided !! value); [apply link_stable_dag | apply stable_ret].
Qed.

Lemma link_consumers_stable_dag item requirements :
  stable dag (link_consumers item requirements).
Proof.
  apply stable_for_each. intros value _.
  destruct (requirements !! value); [|apply stable_ret].
  apply stable_for_each. intros node _. apply link_stable_dag.
Qed.

Lemma add_item_stable_dag rp item : stable dag (add_item rp item).
Proof.
  unfold add_item.
  apply stable_bind; [apply stable_modify, dag_add_node |]. intros _.
  apply stable_bind; [apply claim_provides_stable |]. intros provided.
  apply stable_bind; [apply link_producers_stable_dag |]. intros _.
  apply stable_bind; [apply link_consumers_stable_dag |]. intros _.
  apply stable_ret.
Qed.

Lemma add_stable_dag items : stable dag (add items).
Proof.
  unfold add. apply stable_get. intros g0.
  apply stable_try.
  - apply stable_bind; [|intros; apply stable_ret].
    apply stable_for_fold. intros; apply add_item_stable_dag.
  - intros e. apply stable_bind; [|intros; apply stable_raise].
    apply stable_modify, dag_remove_nodes_from.
Qed.

Lemma stable_run_call (I : DiGraph → Prop) c g :
  stable I (run_call c) → I g → I (run_call c g).2.
Proof. intros H Hg. specialize (H g Hg). by destruct (run_call c g) as [[[]|e] g']. Qed.

Lemma run_calls_snoc cs c g :
  run_calls (cs ++ [c]) g = (run_call c (run_calls cs g)).2.
Proof. unfold run_calls. by rewrite foldl_app. Qed.

Lemma dag_empty_graph : dag empty_graph.
Proof.
  split.
  - by intros u v ?%elem_of_nil.
  - intros v [z Hz%elem_of_nil]%tc_last. done.
Qed.

(** C1.  Start from the empty graph of a new flow and make any sequence
    of [add] and [link] calls; whatever call comes next, the graph it
    leaves is acyclic: no node reaches itself along edges.  This holds
    after the calls that returned and also after those that raised. *)
Theorem graph_acyclic_after_every_call (cs : list Call) (c : Call) :
  acyclic (run_call c (run_calls cs empty_graph)).2.
Proof.
  rewrite <- run_calls_snoc. generalize (cs ++ [c]). clear cs c. intros cs.
  cut (dag (run_calls cs empty_graph)); [by intros [_ ?] |].
  induction cs as [|c cs IH] using rev_ind; [apply dag_empty_graph |].
  rewrite run_calls_snoc. apply stable_run_call; [|exact IH].
  destruct c as [items|u v]; [apply add_stable_dag | apply link_stable_dag].
Qed.

(** *** Explicit links *)

(** C9, as the code has it.  [link u v] with an endpoint that is not a
    node of the graph raises the builtin [ValueError], whose text says
    which item was not found, and leaves the graph as it was. *)
Theorem link_absent_endpoint_raises_ValueError u v g :
  u ∉ nodes g ∨ v ∉ nodes g →
  link u v g =
  (Raised (ValueError (if has_node g u then ItemNotFoundToLinkTo v
                       else ItemNotFoundToLinkFrom u)), g).
Proof.
  intros H. rewrite link_cases. unfold has_node.
  repeat case_bool_decide; simpl; try done. by destruct H.
Qed.

Lemma link_absent_endpoint_raises_ValueError_witness :
  link task_A task_B empty_graph =
  (Raised (ValueError (ItemNotFoundToLinkFrom task_A)), empty_graph).
Proof.
  apply (link_absent_endpoint_raises_ValueError task_A task_B empty_graph).
  left. by intros ?%elem_of_nil.
Defined.

(** C9, as stated: the exception is not of class [NotFound]. *)
Lemma link_absent_endpoint_not_NotFound : ¬ link_absent_raises_NotFound.
Proof.
  intros H. destruct (H task_A task_B empty_graph) as [msg Hmsg].
  - left. by intros ?%elem_of_nil.
  - discriminate Hmsg.
Qed.

(** *** Implicit linking *)

Lemma acyclic_single_edge (u v : Task) : u ≠ v → acyclic_edges [(u, v)].
Proof.
  intros Hne w Hw.
  assert (∀ x y, tc (rel [(u, v)]) x y → x = u ∧ y = v) as Hpath.
  { induction 1 as [x y Hxy | x y z Hxy _ [-> ->]].
    - apply list_elem_of_singleton in Hxy. by injection Hxy.
    - apply list_elem_of_singleton in Hxy. by injection Hxy as ? ?. }
  destruct (Hpath _ _ Hw) as [-> ?]. done.
Qed.

Lemma link_first_edge (u v : Task) ns :
  u ≠ v → u ∈ ns → v ∈ ns →
  link u v {| nodes := ns; edges := [] |} =
  (Returned tt, {| nodes := ns; edges := [(u, v)] |}).
Proof.
  intros Hne Hu Hv.
  assert (add_edge u v {| nodes := ns; edges := [] |} =
          {| nodes := ns; edges := [(u, v)] |}) as Hadd.
  { unfold add_edge. rewrite (add_node_present u), (add_node_present v) by done.
    by unfold has_edge. }
  rewrite link_cases, Hadd. unfold has_node. simpl.
  rewrite !bool_decide_eq_true_2 by done. simpl.
  assert (closed {| nodes := ns; edges := [(u, v)] |}) as Hc.
  { intros a b [= -> ->]%list_elem_of_singleton. done. }
  rewrite (proj2 (is_directed_acyclic_graph_spec _ Hc)); [done |].
  by apply acyclic_single_edge.
Qed.

Lemma add_second_node (u v : Task) :
  u ≠ v → add_node v {| nodes := [u]; edges := [] |} = {| nodes := [u; v]; edges := [] |}.
Proof.
  intros Hne. unfold add_node, has_node. simpl.
  rewrite bool_decide_eq_false_2; [done |].
  by intros ->%list_elem_of_singleton.
Qed.

Ltac run_add :=
  unfold add, add_item, claim_provides, link_producers, link_consumers, for_each,
    update_requirements;
  repeat first
    [ progress unfold mbind, M_bind, bind, try_except, get_state, modify, ret, mret, M_ret
    | progress simpl
    | rewrite lookup_empty
    | rewrite lookup_insert_eq ].

(** C8.  [A] provides a symbol and [B] requires it.  Added to the empty
    flow in one call, in either order, they give a graph whose only edge
    is [A → B]: the edges are the same for [add(A, B)] and [add(B, A)]. *)
Theorem add_links_producer_to_consumer_in_either_order (a b : nat) (na nb x : string) :
  let A := producer_of a na x in
  let B := consumer_of b nb x in
  add [A; B] empty_graph = (Returned tt, {| nodes := [A; B]; edges := [(A, B)] |}) ∧
  add [B; A] empty_graph = (Returned tt, {| nodes := [B; A]; edges := [(A, B)] |}).
Proof.
  intros A B.
  assert (A ≠ B) as Hne by (intros [=]).
  assert (B ≠ A) as Hne' by (intros [=]).
  split; run_add.
  - change (add_node A empty_graph) with {| nodes := [A]; edges := [] |}.
    rewrite (add_second_node A B Hne), link_first_edge; [done | done | set_solver..].
  - change (add_node B empty_graph) with {| nodes := [B]; edges := [] |}.
    rewrite (add_second_node B A Hne'), link_first_edge; [done | done | set_solver..].
Qed.

(** *** Producers *)

Lemma nodes_add_node n g : nodes (add_node n g) = insert_node (nodes g) n.
Proof. unfold add_node, insert_node, has_node. by case_bool_decide. Qed.

Lemma elem_of_insert_node ns n x : x ∈ insert_node ns n ↔ x ∈ ns ∨ x = n.
Proof.
  unfold insert_node. case_bool_decide.
  - split; [by left | by intros [?| ->]].
  - by rewrite elem_of_app, list_elem_of_singleton.
Qed.

Lemma elem_of_foldl_insert_node l : ∀ ns x,
  x ∈ foldl insert_node ns l ↔ x ∈ ns ∨ x ∈ l.
Proof.
  induction l as [|n l IH]; intros ns x; simpl.
  - rewrite elem_of_nil. tauto.
  - rewrite IH, elem_of_insert_node, elem_of_cons. tauto.
Qed.

Lemma lookup_record_values (node : Task) l : ∀ (p : gmap string Task) s,
  foldl (λ p value, <[value := node]> p) p l !! s =
  if decide (s ∈ l) then Some node else p !! s.
Proof.
  induction l as [|v l IH]; intros p s; cbn [foldl].
  - case_decide as H; [by apply elem_of_nil in H | done].
  - rewrite IH. destruct (decide (s ∈ l)) as [Hin|Hin].
    + by rewrite decide_True by by right.
    + destruct (decide (s = v)) as [->|Hne].
      * rewrite decide_True by by left. apply lookup_insert_eq.
      * rewrite decide_False by (by intros [?|?]%elem_of_cons).
        by apply lookup_insert_ne.
Qed.

Lemma lookup_record_provides node p s :
  record_provides node p !! s =
  if decide (s ∈ provides node) then Some node else p !! s.
Proof. apply lookup_record_values. Qed.

Lemma lookup_update_requirements (node : Task) vs : ∀ (r : gmap string (list Task)) s l n,
  foldl (λ r value, <[value := default [] (r !! value) ++ [node]]> r) r vs !! s = Some l →
  n ∈ l → n = node ∨ ∃ l0, r !! s = Some l0 ∧ n ∈ l0.
Proof.
  induction vs as [|v vs IH]; intros r s l n; simpl.
  - eauto.
  - intros Hl Hn. destruct (IH _ _ _ _ Hl Hn) as [?|(l0 & Hl0 & Hn0)]; [by left |].
    destruct (decide (v = s)) as [->|Hne].
    + rewrite lookup_insert_eq in Hl0. injection Hl0 as <-.
      apply elem_of_app in Hn0 as [Hn0|Hn0%list_elem_of_singleton]; [|by left].
      right. destruct (r !! s) as [l1|]; simpl in *; [eauto |].
      by apply elem_of_nil in Hn0.
    + rewrite lookup_insert_ne in Hl0 by done. eauto.
Qed.

Lemma maps_ok_empty : maps_ok (∅, ∅) [].
Proof.
  split; simpl.
  - intros s p. by rewrite lookup_empty.
  - intros s l n. by rewrite lookup_empty.
  - by intros n s ?%elem_of_nil.
Qed.

(** Recording a node in both dictionaries, as the first loop of [add]
    does and as a round of the second does for an item that passes. *)
Lemma maps_ok_record rp ns node :
  maps_ok rp ns →
  maps_ok (update_requirements node rp.1, record_provides node rp.2) (ns ++ [node]).
Proof.
  intros [H1 H2 H3]. split; simpl.
  - intros s p. rewrite lookup_record_provides. case_decide as Hs.
    + intros [= <-]. split; [|done]. apply elem_of_app. right. by left.
    + intros [? ?]%H1. split; [|done]. apply elem_of_app. by left.
  - intros s l n Hl Hn. apply elem_of_app.
    destruct (lookup_update_requirements _ _ _ _ _ _ Hl Hn) as [->|(l0 & Hl0 & Hn0)].
    + right. by left.
    + left. eauto.
  - intros n s [Hn|Hn%list_elem_of_singleton]%elem_of_app Hs;
      rewrite lookup_record_provides; case_decide; eauto.
    subst. done.
Qed.

Lemma maps_ok_equiv rp ns ns' :
  (∀ x, x ∈ ns ↔ x ∈ ns') → maps_ok rp ns → maps_ok rp ns'.
Proof.
  intros Heq [H1 H2 H3]. split.
  - intros s p [? ?]%H1. split; [by apply Heq | done].
  - intros s l n Hl Hn. apply Heq. eauto.
  - intros n s Hn%Heq. eauto.
Qed.

Lemma scan_ok g : maps_ok (scan g) (nodes g).
Proof.
  unfold scan. induction (nodes g) as [|n ns IH] using rev_ind.
  - apply maps_ok_empty.
  - rewrite foldl_app. simpl. by apply maps_ok_record.
Qed.

(** [claim_provides] never touches the graph; it returns when no symbol
    of the item has a producer yet, and raises the duplicate-producer
    error on the first symbol that has one. *)
Lemma claim_values_spec (item : Task) vs : ∀ (p : gmap string Task) (g : DiGraph),
  match for_fold (S := DiGraph) (λ p value,
          match p !! value with
          | Some flow =>
              raise (DependencyFailure (AlreadyProvided (name item) value (name flow)))
          | None => ret (<[value := item]> p)
          end) p vs g with
  | (Returned p', g') =>
      g' = g ∧ (∀ s, s ∈ vs → p !! s = None) ∧
      p' = foldl (λ p value, <[value := item]> p) p vs
  | (Raised e, g') =>
      g' = g ∧ ∃ value flow,
        e = DependencyFailure (AlreadyProvided (name item) value (name flow)) ∧
        value ∈ vs ∧ (p !! value = Some flow ∨ flow = item)
  end.
Proof.
  induction vs as [|v vs IH]; intros p g; simpl.
  - split; [done |]. split; [|done]. by intros s ?%elem_of_nil.
  - unfold mbind, M_bind, bind. destruct (p !! v) as [flow|] eqn:Hv; simpl.
    + split; [done |]. exists v, flow. repeat split; [by left | by left].
    + specialize (IH (<[v := item]> p) g).
      destruct (for_fold _ _ vs g) as [[p'|e] g'].
      * destruct IH as (-> & Hnone & ->). repeat split.
        intros s [->|Hs]%elem_of_cons; [done |].
        specialize (Hnone s Hs). destruct (decide (v = s)) as [->|Hne].
        -- by rewrite lookup_insert_eq in Hnone.
        -- by rewrite lookup_insert_ne in Hnone.
      * destruct IH as (-> & value & flow & -> & Hin & Hflow). split; [done |].
        exists value, flow. repeat split; [by right |].
        destruct Hflow as [Hflow|Hflow]; [|by right].
        destruct (decide (v = value)) as [->|Hne].
        -- rewrite lookup_insert_eq in Hflow. right. congruence.
        -- rewrite lookup_insert_ne in Hflow by done. by left.
Qed.

Lemma claim_provides_spec item p g :
  match claim_provides item p g with
  | (Returned p', g') =>
      g' = g ∧ (∀ s, s ∈ provides item → p !! s = None) ∧ p' = record_provides item p
  | (Raised e, g') =>
      g' = g ∧ ∃ value flow,
        e = DependencyFailure (AlreadyProvided (name item) value (name flow)) ∧
        value ∈ provides item ∧ (p !! value = Some flow ∨ flow = item)
  end.
Proof. apply claim_values_spec. Qed.

(** Inside [add] both endpoints of a [link] are nodes, so the only error
    it can raise is the cycle; the node collection stays as it is. *)
Lemma link_present ns u v :
  u ∈ ns → v ∈ ns →
  hoare (λ g, nodes g = ns) (link u v) (λ _ g, nodes g = ns)
        (λ e g, is_DependencyFailure e ∧ nodes g = ns).
Proof.
  intros Hu Hv g <-. pose proof (nodes_link u v g) as Hn. revert Hn.
  rewrite link_cases. unfold has_node. rewrite !bool_decide_eq_true_2 by done.
  simpl. destruct (is_directed_acyclic_graph _); simpl; [done |].
  intros Hn. split; [by eexists | done].
Qed.

Lemma link_producers_present ns item provided :
  item ∈ ns → (∀ s p, provided !! s = Some p → p ∈ ns) →
  hoare (λ g, nodes g = ns) (link_producers item provided) (λ _ g, nodes g = ns)
        (λ e g, is_DependencyFailure e ∧ nodes g = ns).
Proof.
  intros Hitem Hp. apply hoare_for_each. intros value _.
  destruct (provided !! value) as [p|] eqn:Hv.
  - apply link_present; eauto.
  - by apply hoare_ret.
Qed.

Lemma link_consumers_present ns item requirements :
  item ∈ ns → (∀ s l n, requirements !! s = Some l → n ∈ l → n ∈ ns) →
  hoare (λ g, nodes g = ns) (link_consumers item requirements) (λ _ g, nodes g = ns)
        (λ e g, is_DependencyFailure e ∧ nodes g = ns).
Proof.
  intros Hitem Hr. apply hoare_for_each. intros value _.
  destruct (requirements !! value) as [l|] eqn:Hv.
  - apply hoare_for_each. intros node Hnode. apply link_present; eauto.
  - by apply hoare_ret.
Qed.

Lemma unique_nodes_insert rp ns item :
  maps_ok rp ns → unique_nodes ns →
  (∀ s, s ∈ provides item → rp.2 !! s = None) →
  unique_nodes (insert_node ns item).
Proof.
  intros [_ _ Hall] Huniq Hnone u v s.
  rewrite !elem_of_insert_node. intros [Hu| ->] [Hv| ->] Hsu Hsv; [by eauto | | | done].
  - destruct (Hall u s Hu Hsu) as [p Hp]. by rewrite (Hnone s Hsv) in Hp.
  - destruct (Hall v s Hv Hsv) as [p Hp]. by rewrite (Hnone s Hsu) in Hp.
Qed.

Lemma maps_ok_insert rp ns item :
  maps_ok rp ns →
  maps_ok (update_requirements item rp.1, record_provides item rp.2) (insert_node ns item).
Proof.
  intros H. apply (maps_ok_equiv _ (ns ++ [item])); [|by apply maps_ok_record].
  intros x. rewrite elem_of_insert_node, elem_of_app, list_elem_of_singleton. done.
Qed.

(** One round of the loop of [add]. *)
Lemma add_item_spec ns rp item :
  hoare (λ g, nodes g = ns ∧ maps_ok rp ns ∧ unique_nodes ns)
        (add_item rp item)
        (λ rp' g, nodes g = insert_node ns item ∧ maps_ok rp' (insert_node ns item) ∧
                  unique_nodes (insert_node ns item))
        (λ e g, is_DependencyFailure e ∧ nodes g = insert_node ns item).
Proof.
  set (ns' := insert_node ns item).
  assert (item ∈ ns') as Hitem by (apply elem_of_insert_node; by right).
  unfold add_item.
  eapply hoare_bind with (Q' := λ _ g, nodes g = ns' ∧ maps_ok rp ns ∧ unique_nodes ns).
  { apply hoare_modify. intros g (<- & ? & ?). by rewrite nodes_add_node. }
  intros _.
  eapply hoare_bind with
    (Q' := λ p g, nodes g = ns' ∧
                  maps_ok (update_requirements item rp.1, p) ns' ∧ unique_nodes ns').
  { intros g (Hg & Hok & Hu). pose proof (claim_provides_spec item rp.2 g) as Hc.
    destruct (claim_provides item rp.2 g) as [[p'|e] g'].
    - destruct Hc as (-> & Hnone & ->). split; [done |]. split.
      + by apply maps_ok_insert.
      + by eapply unique_nodes_insert.
    - destruct Hc as (-> & value & flow & -> & _). split; [by eexists | done]. }
  intros provided.
  eapply hoare_bind with
    (Q' := λ _ g, nodes g = ns' ∧
                  maps_ok (update_requirements item rp.1, provided) ns' ∧ unique_nodes ns').
  { intros g (Hg & Hok & Hu).
    pose proof (link_producers_present ns' item provided Hitem
                  (λ s p Hp, proj1 (provided_in _ _ Hok s p Hp)) g Hg) as Hl.
    destruct (link_producers item provided g) as [[[]|e] g']; by auto. }
  intros _.
  eapply hoare_bind with
    (Q' := λ _ g, nodes g = ns' ∧
                  maps_ok (update_requirements item rp.1, provided) ns' ∧ unique_nodes ns').
  { intros g (Hg & Hok & Hu).
    pose proof (link_consumers_present ns' item _ Hitem (required_in _ _ Hok) g Hg) as Hl.
    destruct (link_consumers item _ g) as [[[]|e] g']; by auto. }
  intros _. by apply hoare_ret.
Qed.

(** The loop of [add] over [items], entered at a graph with nodes [ns]. *)
Lemma add_items_spec ns rp items :
  hoare (λ g, nodes g = ns ∧ maps_ok rp ns ∧ unique_nodes ns)
        (for_fold add_item rp items)
        (λ rp' g, nodes g = foldl insert_node ns items ∧ maps_ok rp' (nodes g) ∧
                  unique_nodes (nodes g))
        (λ e g, is_DependencyFailure e ∧ ∀ n, n ∈ nodes g → n ∈ ns ∨ n ∈ items).
Proof.
  eapply hoare_conseq.
  - apply (hoare_for_fold_prefix
             (λ pre rp' g, nodes g = foldl insert_node ns pre ∧
                           maps_ok rp' (foldl insert_node ns pre) ∧
                           unique_nodes (foldl insert_node ns pre))
             add_item
             (λ e g, is_DependencyFailure e ∧ ∀ n, n ∈ nodes g → n ∈ ns ∨ n ∈ items)).
    intros pre x post acc ->. rewrite foldl_app. simpl.
    eapply hoare_conseq; [apply (add_item_spec (foldl insert_node ns pre)) | done | done |].
    intros e g [He Hg]. split; [done |]. intros n. rewrite Hg.
    rewrite elem_of_insert_node, elem_of_foldl_insert_node, elem_of_app, elem_of_cons.
    tauto.
  - done.
  - intros rp' g (Hg & ? & ?). by rewrite Hg.
  - done.
Qed.

(** [Flow.add], by the way its loop ends. *)
Lemma add_cases items g :
  add items g =
  match for_fold add_item (scan g) items g with
  | (Returned _, g') => (Returned tt, g')
  | (Raised e, g') => (Raised e, remove_nodes_from items g')
  end.
Proof.
  unfold add, mbind, M_bind, bind, try_except, get_state, modify, raise. simpl.
  by destruct (for_fold add_item (scan g) items g) as [[rp|e] g'].
Qed.

Lemma unique_nodes_subseteq ns ns' :
  (∀ x, x ∈ ns' → x ∈ ns) → unique_nodes ns → unique_nodes ns'.
Proof. intros Hsub Hu u v s ? ?. apply Hu; auto. Qed.

Lemma elem_of_nodes_remove_nodes_from items g x :
  x ∈ nodes (remove_nodes_from items g) ↔ (x ∉ items) ∧ (x ∈ nodes g).
Proof. apply (list_elem_of_filter (λ n, n ∉ items)). Qed.

Lemma add_stable_unique items : stable unique_producer (add items).
Proof.
  intros g Hu. rewrite add_cases.
  pose proof (add_items_spec (nodes g) (scan g) items g
                (conj eq_refl (conj (scan_ok g) Hu))) as H.
  destruct (for_fold add_item (scan g) items g) as [[rp|e] g'].
  - by destruct H as (_ & _ & ?).
  - destruct H as [_ Hn]. eapply unique_nodes_subseteq; [|exact Hu].
    intros x [Hx Hin]%elem_of_nodes_remove_nodes_from.
    by destruct (Hn x Hin).
Qed.

Lemma link_stable_unique u v : stable unique_producer (link u v).
Proof.
  intros g Hu. pose proof (nodes_link u v g) as Hn.
  destruct (link u v g) as [[[]|e] g']; unfold unique_producer; simpl in *; by rewrite Hn.
Qed.

Lemma unique_run_calls cs : unique_producer (run_calls cs empty_graph).
Proof.
  induction cs as [|c cs IH] using rev_ind.
  - by intros u v s ?%elem_of_nil.
  - rewrite run_calls_snoc. apply stable_run_call; [|done].
    destruct c; [apply add_stable_unique | apply link_stable_unique].
Qed.

(** A round for an item one of whose symbols is already in [provided]
    stops in [claim_provides]. *)
Lemma add_item_conflict rp item g s :
  maps_ok rp (nodes g) → s ∈ provides item → is_Some (rp.2 !! s) →
  ∃ value flow,
    add_item rp item g =
      (Raised (DependencyFailure (AlreadyProvided (name item) value (name flow))),
       add_node item g) ∧
    value ∈ provides item ∧ value ∈ provides flow ∧ (flow ∈ nodes g ∨ flow = item).
Proof.
  intros Hok Hs [p Hp].
  unfold add_item, mbind, M_bind, bind, modify.
  pose proof (claim_provides_spec item rp.2 (add_node item g)) as Hc.
  destruct (claim_provides item rp.2 (add_node item g)) as [[p'|e] g'].
  - destruct Hc as (_ & Hnone & _). by rewrite (Hnone s Hs) in Hp.
  - destruct Hc as (-> & value & flow & -> & Hv & Hflow).
    exists value, flow. split; [done |]. split; [done |].
    destruct Hflow as [[? ?]%(provided_in _ _ Hok)| ->]; auto.
Qed.

(** The loop over [pre ++ item :: post] when [item] repeats a symbol of a
    node of the graph or of an item of [pre]: either the loop has raised
    before it reaches [item], or it raises there, naming both. *)
Lemma add_items_conflict g pre item post s p :
  unique_producer g →
  s ∈ provides item → s ∈ provides p → p ∈ nodes g ∨ p ∈ pre →
  match for_fold add_item (scan g) pre g with
  | (Returned rp1, g1) =>
      ∃ value flow,
        for_fold add_item (scan g) (pre ++ item :: post) g =
          (Raised (DependencyFailure (AlreadyProvided (name item) value (name flow))),
           add_node item g1) ∧
        value ∈ provides item ∧ value ∈ provides flow ∧
        (flow ∈ nodes g1 ∨ flow = item)
  | (Raised e, g1) =>
      for_fold add_item (scan g) (pre ++ item :: post) g = (Raised e, g1) ∧
      is_DependencyFailure e
  end.
Proof.
  intros Hu Hs Hsp Hp. rewrite for_fold_app. unfold mbind, M_bind, bind.
  pose proof (add_items_spec (nodes g) (scan g) pre g
                (conj eq_refl (conj (scan_ok g) Hu))) as H.
  destruct (for_fold add_item (scan g) pre g) as [[rp1|e] g1].
  - destruct H as (Hn & Hok & _).
    assert (p ∈ nodes g1) as Hp1 by (rewrite Hn; by apply elem_of_foldl_insert_node).
    destruct (add_item_conflict rp1 item g1 s Hok Hs (provided_all _ _ Hok p s Hp1 Hsp))
      as (value & flow & Heq & ?).
    exists value, flow. split; [|done]. simpl. unfold mbind, M_bind, bind. by rewrite Heq.
  - by destruct H as [? _].
Qed.

(** C2, as the code has it.  In every graph a flow can reach no two
    nodes share a provided symbol.  A call [add] with an item that
    provides a symbol some node of the graph, or some earlier item of the
    call, provides as well raises a [DependencyFailure], and an item that
    was not a node before the call is not in the graph after it.  When
    the items before it went through (as they do when it is the only
    item), the error is the duplicate-producer one: it names the item, a
    symbol both provide, and the producer recorded for that symbol. *)
Theorem unique_producer_and_duplicate_rejection (cs : list Call) :
  let g := run_calls cs empty_graph in
  unique_producer g ∧
  ∀ pre item post s p,
    s ∈ provides item → s ∈ provides p → p ∈ nodes g ∨ p ∈ pre →
    let call := add (pre ++ item :: post) g in
    (∃ e, call.1 = Raised e ∧ is_DependencyFailure e) ∧
    (item ∉ nodes g → item ∉ nodes call.2) ∧
    ((add pre g).1 = Returned tt →
     ∃ value flow,
       call.1 = Raised (DependencyFailure
                          (AlreadyProvided (name item) value (name flow))) ∧
       value ∈ provides item ∧ value ∈ provides flow ∧
       (flow ∈ nodes (add pre g).2 ∨ flow = item)).
Proof.
  intros g. pose proof (unique_run_calls cs) as Hu. split; [exact Hu |].
  intros pre item post s p Hs Hsp Hp call.
  pose proof (add_items_conflict g pre item post s p Hu Hs Hsp Hp) as H.
  subst call. rewrite (add_cases (pre ++ _)), (add_cases pre).
  destruct (for_fold add_item (scan g) pre g) as [[rp1|e] g1].
  - destruct H as (value & flow & -> & Hrest). simpl. split; [|split].
    + eexists. split; [done | by eexists].
    + intros _ [Hni _]%elem_of_nodes_remove_nodes_from. apply Hni.
      apply elem_of_app. right. by left.
    + intros _. by exists value, flow.
  - destruct H as [-> He]. simpl. split; [|split].
    + by exists e.
    + intros _ [Hni _]%elem_of_nodes_remove_nodes_from. apply Hni.
      apply elem_of_app. right. by left.
    + done.
Qed.

Lemma unique_producer_and_duplicate_rejection_witness :
  let g := run_calls [CallAdd [task_A]] empty_graph in
  unique_producer g ∧
  (∃ e, (add [task_C] g).1 = Raised e ∧ is_DependencyFailure e) ∧
  (task_C ∉ nodes (add [task_C] g).2) ∧
  ∃ value flow,
    (add [task_C] g).1 =
      Raised (DependencyFailure (AlreadyProvided (name task_C) value (name flow))) ∧
    value ∈ provides task_C ∧ value ∈ provides flow ∧
    (flow ∈ nodes g ∨ flow = task_C).
Proof.
  intros g.
  destruct (unique_producer_and_duplicate_rejection [CallAdd [task_A]]) as [Hu H].
  split; [exact Hu |].
  destruct (H [] task_C [] "x"%string task_A) as (Hraise & Hout & Hname).
  - by left.
  - by left.
  - left. by left.
  - split; [exact Hraise |]. split; [| by apply Hname].
    apply Hout. by intros [=]%list_elem_of_singleton.
Defined.

(** C2, as stated: when an earlier item of the same call closes a cycle,
    the error raised is the one about the cycle, which names nobody. *)
Lemma duplicate_producer_not_always_named : ¬ duplicate_producer_is_named.
Proof.
  intros H.
  destruct (H [CallAdd [task_A]] [task_X; task_C] task_C "x"%string task_A)
    as (i & value & flow & Heq).
  - right. by left.
  - by left.
  - by left.
  - by left.
  - discriminate Heq.
Qed.

(** *** Rollback *)

Lemma filter_all {A} (P : A → Prop) `{!∀ x, Decision (P x)} (l : list A) :
  (∀ x, x ∈ l → P x) → filter P l = l.
Proof.
  induction l as [|x l IH]; intros Hall; [done |].
  rewrite filter_cons_True by (apply Hall; by left).
  f_equal. apply IH. intros y ?. apply Hall. by right.
Qed.

Lemma filter_filter_implied {A} (P Q : A → Prop)
    `{!∀ x, Decision (P x)} `{!∀ x, Decision (Q x)} (l : list A) :
  (∀ x, P x → Q x) → filter P (filter Q l) = filter P l.
Proof.
  intros HPQ. induction l as [|x l IH]; [done |].
  rewrite (filter_cons Q). destruct (decide (Q x)) as [HQ|HQ].
  - rewrite !filter_cons. by rewrite IH.
  - rewrite IH. rewrite filter_cons_False; [done |]. intros HP. by apply HQ, HPQ.
Qed.

Lemma remove_nodes_from_disjoint items g :
  closed g → (∀ x, x ∈ items → x ∉ nodes g) → remove_nodes_from items g = g.
Proof.
  intros Hc Hnew. destruct g as [ns es]. unfold remove_nodes_from. simpl in *. f_equal.
  - apply filter_all. intros x Hx Hin. by apply (Hnew x).
  - apply filter_all. intros [u v] [Hu Hv]%Hc. simpl.
    split; intros Hin; by eapply Hnew.
Qed.

Lemma remove_nodes_from_add_node items item g :
  item ∈ items → remove_nodes_from items (add_node item g) = remove_nodes_from items g.
Proof.
  intros Hitem. unfold add_node. destruct (has_node g item); [done |].
  unfold remove_nodes_from. simpl. f_equal.
  rewrite filter_app, filter_cons_False by (by intros ?). by rewrite app_nil_r.
Qed.

Lemma remove_nodes_from_link items u v g :
  u ∈ items ∨ v ∈ items →
  remove_nodes_from items (link u v g).2 = remove_nodes_from items g.
Proof.
  intros Huv.
  assert (¬ ((u ∉ items) ∧ (v ∉ items))) as Hdrop by (intros [? ?]; by destruct Huv).
  rewrite link_cases. unfold has_node. repeat case_bool_decide; simpl; try done.
  assert (remove_nodes_from items (add_edge u v g) = remove_nodes_from items g) as Hadd.
  { unfold add_edge. rewrite (add_node_present u), (add_node_present v) by done.
    destruct (has_edge g u v); [done |]. unfold remove_nodes_from. simpl. f_equal.
    rewrite filter_app, filter_cons_False by done. by rewrite app_nil_r. }
  destruct (is_directed_acyclic_graph _); simpl; [done |].
  rewrite <- Hadd. unfold remove_nodes_from, remove_edge. simpl. f_equal.
  apply (filter_filter_implied (λ e : Task * Task, (e.1 ∉ items) ∧ (e.2 ∉ items))).
  intros e He ->. by apply Hdrop.
Qed.

Lemma link_keeps_rest items g0 u v :
  u ∈ items ∨ v ∈ items → stable (λ g, remove_nodes_from items g = g0) (link u v).
Proof.
  intros Huv g Hg. pose proof (remove_nodes_from_link items u v g Huv) as H.
  destruct (link u v g) as [[[]|e] g']; simpl in *; congruence.
Qed.

Lemma add_item_keeps_rest items g0 rp item :
  item ∈ items → stable (λ g, remove_nodes_from items g = g0) (add_item rp item).
Proof.
  intros Hitem. unfold add_item.
  apply stable_bind.
  { apply stable_modify. intros g <-. by apply remove_nodes_from_add_node. }
  intros _. apply stable_bind; [apply claim_provides_stable |]. intros provided.
  apply stable_bind.
  { apply stable_for_each. intros value _.
    destruct (provided !! value); [|apply stable_ret].
    apply link_keeps_rest. by right. }
  intros _. apply stable_bind; [|intros; apply stable_ret].
  apply stable_for_each. intros value _.
  destruct (_ !! value); [|apply stable_ret].
  apply stable_for_each. intros node _. apply link_keeps_rest. by left.
Qed.

(** X4.  Where the rollback is exact: when none of the items was a node
    of the graph before the call, an [add] that raises leaves the graph
    exactly as it found it, nodes and edges. *)
Lemma add_rolls_back_new_items items g e :
  closed g → (∀ x, x ∈ items → x ∉ nodes g) →
  (add items g).1 = Raised e → (add items g).2 = g.
Proof.
  intros Hc Hnew. rewrite add_cases.
  pose proof (stable_for_fold (λ g', remove_nodes_from items g' = g) add_item items
                (scan g) (λ rp x Hx, add_item_keeps_rest items g rp x Hx) g
                (remove_nodes_from_disjoint items g Hc Hnew)) as H.
  by destruct (for_fold add_item (scan g) items g) as [[rp|e'] g'].
Qed.

(** C3 at the failing input.  An item that is already a node is not
    covered by the lemma above: a flow holds [A → B]; [add(A)] again raises
    the duplicate-producer error against [A] itself, and the handler
    removes [A] together with its edge. *)
Theorem add_of_present_item_removes_it :
  let g := (add [task_A; task_B] empty_graph).2 in
  g = {| nodes := [task_A; task_B]; edges := [(task_A, task_B)] |} ∧
  add [task_A] g =
    (Raised (DependencyFailure (AlreadyProvided "A" "x" "A")),
     {| nodes := [task_B]; edges := [] |}).
Proof. split; reflexivity. Qed.

Lemma add_does_not_roll_back : ¬ add_rolls_back.
Proof.
  intros H.
  destruct (H [CallAdd [task_A; task_B]] [task_A]
              (DependencyFailure (AlreadyProvided "A" "x" "A")) eq_refl) as [Hn _].
  discriminate Hn.
Qed.

(** *** More on explicit links *)

Lemma dag_run_calls cs : dag (run_calls cs empty_graph).
Proof.
  induction cs as [|c cs IH] using rev_ind; [apply dag_empty_graph |].
  rewrite run_calls_snoc. apply stable_run_call; [|exact IH].
  destruct c as [items|u v]; [apply add_stable_dag | apply link_stable_dag].
Qed.

Lemma add_edge_present u v g :
  u ∈ nodes g → v ∈ nodes g → (u, v) ∈ edges g → add_edge u v g = g.
Proof.
  intros Hu Hv He. unfold add_edge.
  rewrite (add_node_present u), (add_node_present v) by done.
  unfold has_edge. by rewrite bool_decide_eq_true_2.
Qed.

Lemma remove_added_edge u v g :
  u ∈ nodes g → v ∈ nodes g → (u, v) ∉ edges g →
  remove_edge u v (add_edge u v g) = g.
Proof.
  intros Hu Hv He. unfold add_edge.
  rewrite (add_node_present u), (add_node_present v) by done.
  unfold has_edge. rewrite bool_decide_eq_false_2 by done.
  destruct g as [ns es]. unfold remove_edge. simpl in *. f_equal.
  rewrite filter_app, filter_cons_False, filter_nil, app_nil_r by (by intros ?).
  apply filter_all. by intros e ? ->.
Qed.

(** [Flow.link] on two nodes of a graph without cycle: it returns with
    the edge added, or raises with the graph as it was. *)
Lemma link_outcome u v g :
  dag g → u ∈ nodes g → v ∈ nodes g →
  match link u v g with
  | (Returned _, g') =>
      nodes g' = nodes g ∧ dag g' ∧ (∀ e, e ∈ edges g' ↔ e ∈ edges g ∨ e = (u, v))
  | (Raised e, g') => e = DependencyFailure NoPathThroughItems ∧ g' = g
  end.
Proof.
  intros [Hc Ha] Hu Hv. rewrite link_cases. unfold has_node.
  rewrite !bool_decide_eq_true_2 by done. simpl.
  assert (closed (add_edge u v g)) as Hc' by by apply closed_add_edge.
  destruct (is_directed_acyclic_graph _) eqn:Hd.
  - split; [by apply nodes_add_edge |]. split.
    + split; [done |]. by apply is_directed_acyclic_graph_spec.
    + intros e. apply elem_of_edges_add_edge.
  - split; [done |]. apply remove_added_edge; [done..|].
    intros He. rewrite add_edge_present in Hd by done.
    by rewrite (proj2 (is_directed_acyclic_graph_spec g Hc) Ha) in Hd.
Qed.

(** A path in a graph with one more edge [u → v] is a path of the graph,
    or passes through the new edge. *)
Lemma tc_new_edge (es es' : list (Task * Task)) u v a b :
  (∀ e, e ∈ es' → e ∈ es ∨ e = (u, v)) → tc (rel es') a b →
  tc (rel es) a b ∨ (rtc (rel es) a u ∧ rtc (rel es) v b).
Proof.
  intros Hes Hab. induction Hab as [a b Hab|a y b Hay _ IH].
  - destruct (Hes _ Hab) as [?|[= -> ->]]; [left; by apply tc_once | by right].
  - destruct (Hes _ Hay) as [Hold|[= -> ->]], IH as [IH|[IH1 IH2]].
    + left. by eapply tc_l.
    + right. split; [by eapply rtc_l | done].
    + right. split; [done | by apply tc_rtc].
    + by right.
Qed.

Lemma acyclic_add_edge u v g :
  acyclic g → acyclic (add_edge u v g) ↔ ¬ rtc (rel (edges g)) v u.
Proof.
  intros Ha. split.
  - intros Ha' Hvu. apply (Ha' u). eapply tc_rtc_r.
    + apply tc_once. apply elem_of_edges_add_edge. by right.
    + eapply rtc_subrel; [|exact Hvu]. intros x y Hxy.
      apply elem_of_edges_add_edge. by left.
  - intros Hvu x Hx.
    destruct (tc_new_edge (edges g) _ u v x x
                (λ e, proj1 (elem_of_edges_add_edge u v g e)) Hx) as [Hold|[H1 H2]].
    + by apply (Ha x).
    + apply Hvu. by etrans.
Qed.

Lemma link_absent_rest u v g : u ∉ nodes g ∨ v ∉ nodes g → (link u v g).2 = g.
Proof.
  intros H. rewrite link_cases. unfold has_node.
  repeat case_bool_decide; simpl; try done. by destruct H.
Qed.

(** *** Rounds of [add] as lists of links *)

Lemma link_all_outcome pairs : ∀ g,
  dag g → (∀ uv, uv ∈ pairs → uv.1 ∈ nodes g ∧ uv.2 ∈ nodes g) →
  match link_all pairs g with
  | (Returned _, g') =>
      nodes g' = nodes g ∧ dag g' ∧ (∀ e, e ∈ edges g' ↔ e ∈ edges g ∨ e ∈ pairs)
  | (Raised e, g') =>
      e = DependencyFailure NoPathThroughItems ∧ nodes g' = nodes g ∧ dag g' ∧
      (∀ e, e ∈ edges g → e ∈ edges g') ∧ (∀ e, e ∈ edges g' → e ∈ edges g ∨ e ∈ pairs)
  end.
Proof.
  unfold link_all, for_each.
  induction pairs as [|[u v] pairs IH]; intros g Hd Hin; simpl.
  - split; [done |]. split; [done |]. intros e. rewrite elem_of_nil. tauto.
  - unfold mbind, M_bind, bind.
    destruct (Hin (u, v)) as [Hu Hv]; [by left |]. simpl in *.
    pose proof (link_outcome u v g Hd Hu Hv) as Hl.
    destruct (link u v g) as [[[]|e] g1].
    + destruct Hl as (Hn1 & Hd1 & He1).
      specialize (IH g1 Hd1). rewrite Hn1 in IH.
      specialize (IH (λ uv Huv, Hin uv (list_elem_of_further _ _ _ Huv))).
      destruct (for_fold _ tt pairs g1) as [[[]|e] g2].
      * destruct IH as (Hn2 & Hd2 & He2). split; [done |]. split; [done |].
        intros e. rewrite He2, He1, elem_of_cons. tauto.
      * destruct IH as (-> & Hn2 & Hd2 & Hk & Hnew).
        split; [done |]. split; [done |]. split; [done |]. split.
        -- intros e' He'. apply Hk, He1. by left.
        -- intros e' [[?| ->]%He1|?]%Hnew; [by left | right; by left | right; by right].
    + destruct Hl as [-> ->]. split; [done |]. split; [done |]. split; [done |].
      split; [done | by left].
Qed.

Lemma link_producers_pairs item provided g :
  link_producers item provided g = link_all (producer_edges item provided) g.
Proof.
  unfold link_producers, link_all, producer_edges, for_each.
  revert g. induction (requires item) as [|value values IH]; intros g; [done |].
  simpl. destruct (provided !! value) as [p|]; simpl; unfold mbind, M_bind, bind.
  - destruct (link p item g) as [[[]|e] g']; [apply IH | done].
  - apply IH.
Qed.

Lemma link_all_app l1 l2 g :
  link_all (l1 ++ l2) g = (link_all l1;; link_all l2) g.
Proof.
  unfold link_all, for_each. rewrite for_fold_app.
  unfold mbind, M_bind, bind. by destruct (for_fold _ tt l1 g) as [[[]|e] g'].
Qed.

Lemma link_consumers_pairs item requirements g :
  link_consumers item requirements g = link_all (consumer_edges item requirements) g.
Proof.
  unfold link_consumers, consumer_edges, for_each at 1.
  revert g. induction (provides item) as [|value values IH]; intros g; [done |].
  simpl. rewrite link_all_app. unfold mbind, M_bind, bind.
  assert (∀ consumers g,
            for_each (λ node, link item node) consumers g =
            link_all ((λ node, (item, node)) <$> consumers) g) as Hmap.
  { unfold link_all, for_each. intros consumers.
    induction consumers as [|n consumers IHc]; intros g0; [done |].
    simpl. unfold mbind, M_bind, bind.
    destruct (link item n g0) as [[[]|e] g']; [apply IHc | done]. }
  destruct (requirements !! value) as [consumers|]; simpl.
  - rewrite Hmap.
    destruct (link_all _ g) as [[[]|e] g']; [apply IH | done].
  - apply IH.
Qed.

(** One round of [add], by the place where it stops. *)
Lemma add_item_cases rp item g :
  add_item rp item g =
  let g1 := add_node item g in
  let requirements := update_requirements item rp.1 in
  match claim_provides item rp.2 g1 with
  | (Raised e, _) => (Raised e, g1)
  | (Returned provided, _) =>
      match link_all (producer_edges item provided) g1 with
      | (Raised e, g2) => (Raised e, g2)
      | (Returned _, g2) =>
          match link_all (consumer_edges item requirements) g2 with
          | (Raised e, g3) => (Raised e, g3)
          | (Returned _, g3) => (Returned (requirements, provided), g3)
          end
      end
  end.
Proof.
  unfold add_item, mbind, M_bind, bind, modify. simpl.
  pose proof (claim_provides_spec item rp.2 (add_node item g)) as Hc.
  destruct (claim_provides item rp.2 (add_node item g)) as [[provided|e] g1].
  - destruct Hc as (-> & _). rewrite link_producers_pairs.
    destruct (link_all _ (add_node item g)) as [[[]|e] g2]; [|done].
    rewrite link_consumers_pairs.
    by destruct (link_all _ g2) as [[[]|e] g3].
  - by destruct Hc as (-> & _).
Qed.

Lemma elem_of_producer_edges item provided e :
  e ∈ producer_edges item provided ↔
  ∃ value p, value ∈ requires item ∧ provided !! value = Some p ∧ e = (p, item).
Proof.
  unfold producer_edges. rewrite list_elem_of_omap. split.
  - intros (value & Hv & He). destruct (provided !! value) as [p|] eqn:Hp; [|done].
    injection He as <-. by exists value, p.
  - intros (value & p & Hv & Hp & ->). exists value. by rewrite Hp.
Qed.

Lemma elem_of_consumer_edges item requirements e :
  e ∈ consumer_edges item requirements ↔
  ∃ value l node, value ∈ provides item ∧ requirements !! value = Some l ∧
    node ∈ l ∧ e = (item, node).
Proof.
  unfold consumer_edges. rewrite list_elem_of_bind. split.
  - intros (value & [node [-> Hn]]%list_elem_of_fmap & Hv).
    destruct (requirements !! value) as [l|] eqn:Hl; simpl in Hn.
    + by exists value, l, node.
    + by apply elem_of_nil in Hn.
  - intros (value & l & node & Hv & Hl & Hn & ->). exists value. split; [|done].
    rewrite Hl. simpl. by apply list_elem_of_fmap_2.
Qed.

(** *** The dictionary of consumers *)

Lemma lookup_requirements_kept (node : Task) vs :
  ∀ (r : gmap string (list Task)) s l0 n,
  r !! s = Some l0 → n ∈ l0 →
  ∃ l, foldl (λ r value, <[value := default [] (r !! value) ++ [node]]> r) r vs !! s
       = Some l ∧ n ∈ l.
Proof.
  induction vs as [|v vs IH]; intros r s l0 n Hl0 Hn; simpl; [by eauto |].
  destruct (decide (v = s)) as [->|Hne].
  - eapply IH; [apply lookup_insert_eq |]. rewrite Hl0. simpl.
    apply elem_of_app. by left.
  - eapply IH; [|exact Hn]. by rewrite lookup_insert_ne.
Qed.

Lemma lookup_requirements_added (node : Task) vs :
  ∀ (r : gmap string (list Task)) s, s ∈ vs →
  ∃ l, foldl (λ r value, <[value := default [] (r !! value) ++ [node]]> r) r vs !! s
       = Some l ∧ node ∈ l.
Proof.
  induction vs as [|v vs IH]; intros r s Hs; [by apply elem_of_nil in Hs |].
  simpl. apply elem_of_cons in Hs as [->|Hs]; [|by apply IH].
  eapply lookup_requirements_kept; [apply lookup_insert_eq |].
  apply elem_of_app. right. by left.
Qed.

Lemma lookup_requirements_from (node : Task) vs :
  ∀ (r : gmap string (list Task)) s l n,
  foldl (λ r value, <[value := default [] (r !! value) ++ [node]]> r) r vs !! s = Some l →
  n ∈ l → (n = node ∧ s ∈ vs) ∨ ∃ l0, r !! s = Some l0 ∧ n ∈ l0.
Proof.
  induction vs as [|v vs IH]; intros r s l n; simpl.
  - eauto.
  - intros Hl Hn. destruct (IH _ _ _ _ Hl Hn) as [[-> ?]|(l0 & Hl0 & Hn0)].
    { left. split; [done | by right]. }
    destruct (decide (v = s)) as [->|Hne].
    + rewrite lookup_insert_eq in Hl0. injection Hl0 as <-.
      apply elem_of_app in Hn0 as [Hn0|Hn0%list_elem_of_singleton].
      * right. destruct (r !! s) as [l1|]; simpl in *; [eauto |].
        by apply elem_of_nil in Hn0.
      * left. split; [done | by left].
    + rewrite lookup_insert_ne in Hl0 by done. eauto.
Qed.

Lemma requirements_ok_record r ns node :
  requirements_ok r ns → requirements_ok (update_requirements node r) (ns ++ [node]).
Proof.
  intros [Hsound Hall]. split.
  - intros s l n Hl Hn.
    destruct (lookup_requirements_from _ _ _ _ _ _ Hl Hn) as [[-> ?]|(l0 & ? & ?)]; eauto.
  - intros n s [Hn|Hn%list_elem_of_singleton]%elem_of_app Hs.
    + destruct (Hall n s Hn Hs) as (l0 & Hl0 & Hn0).
      by eapply lookup_requirements_kept.
    + subst. by apply lookup_requirements_added.
Qed.

Lemma requirements_ok_equiv r ns ns' :
  (∀ x, x ∈ ns ↔ x ∈ ns') → requirements_ok r ns → requirements_ok r ns'.
Proof. intros Heq [Hsound Hall]. split; [done |]. intros n s Hn%Heq. eauto. Qed.

Lemma requirements_ok_insert r ns item :
  requirements_ok r ns → requirements_ok (update_requirements item r) (insert_node ns item).
Proof.
  intros H. apply (requirements_ok_equiv _ (ns ++ [item])); [|by apply requirements_ok_record].
  intros x. rewrite elem_of_insert_node, elem_of_app, list_elem_of_singleton. done.
Qed.

Lemma scan_requirements_ok g : requirements_ok (scan g).1 (nodes g).
Proof.
  unfold scan. induction (nodes g) as [|n ns IH] using rev_ind.
  - split; [intros s l n; simpl; by rewrite lookup_empty | by intros n s ?%elem_of_nil].
  - rewrite foldl_app. simpl. by apply requirements_ok_record.
Qed.

(** *** What a round of [add] keeps *)

Lemma add_item_round g0 items rp item :
  item ∈ items →
  hoare (round_inv g0 items rp) (add_item rp item) (round_inv g0 items) (raise_inv g0 items).
Proof.
  intros Hitem g [Hd Hm Hr Hu Hl Hek Hen Hnk Hnn Hj].
  rewrite add_item_cases. cbv zeta.
  set (g1 := add_node item g). set (ns1 := insert_node (nodes g) item).
  assert (nodes g1 = ns1) as Hn1 by apply nodes_add_node.
  assert (edges g1 = edges g) as He1 by apply edges_add_node.
  assert (dag g1) as Hd1 by by apply dag_add_node.
  assert (item ∈ ns1) as Hi1 by (apply elem_of_insert_node; by right).
  assert (∀ n, n ∈ ns1 → n ∈ nodes g0 ∨ n ∈ items) as Hnn1.
  { intros n [?| ->]%elem_of_insert_node; auto. }
  pose proof (claim_provides_spec item rp.2 g1) as Hc.
  destruct (claim_provides item rp.2 g1) as [[provided|ex] g1'].
  2: { destruct Hc as (_ & value & flow & -> & _).
       split; [by eexists | done | by rewrite He1 | by rewrite Hn1 | by rewrite He1]. }
  destruct Hc as (_ & Hnone & ->).
  set (reqs' := update_requirements item rp.1).
  set (prov' := record_provides item rp.2).
  assert (maps_ok (reqs', prov') ns1) as Hm1 by by apply maps_ok_insert.
  assert (requirements_ok reqs' ns1) as Hr1 by by apply requirements_ok_insert.
  assert (unique_nodes ns1) as Hu1 by by eapply unique_nodes_insert.
  assert (justified (producer_edges item prov')) as Hjp.
  { intros u v (value & p & Hv & Hp & [= -> ->])%elem_of_producer_edges.
    exists value. split; [|done]. by apply (provided_in _ _ Hm1 value p). }
  assert (justified (consumer_edges item reqs')) as Hjc.
  { intros u v (value & l & node & Hv & Hl' & Hn & [= -> ->])%elem_of_consumer_edges.
    exists value. split; [done |]. by apply (proj1 Hr1 value l). }
  assert (∀ e, e ∈ producer_edges item prov' → e.2 = item ∧ e.1 ∈ ns1) as Hpe.
  { intros e (value & p & Hv & Hp & ->)%elem_of_producer_edges. split; [done |].
    by apply (provided_in _ _ Hm1 value p). }
  assert (∀ e, e ∈ consumer_edges item reqs' → e.1 = item ∧ e.2 ∈ ns1) as Hce.
  { intros e (value & l & node & Hv & Hl' & Hn & ->)%elem_of_consumer_edges.
    split; [done |]. by apply (required_in _ _ Hm1 value l). }
  assert (∀ uv, uv ∈ producer_edges item prov' → uv.1 ∈ nodes g1 ∧ uv.2 ∈ nodes g1)
    as Hpin by (intros uv [He Hin]%Hpe; by rewrite Hn1, He).
  pose proof (link_all_outcome (producer_edges item prov') g1 Hd1 Hpin) as Hp.
  destruct (link_all (producer_edges item prov') g1) as [[[]|ex] g2].
  2: { destruct Hp as (-> & Hn2 & Hd2 & Hk2 & Hnew2).
       split; [by eexists | done | | by rewrite Hn2, Hn1 |].
       - intros e He. apply Hk2. rewrite He1. by apply Hek.
       - intros Hj0 u v [Hin|Hin]%Hnew2; [|by apply Hjp].
         rewrite He1 in Hin. by apply Hj. }
  destruct Hp as (Hn2 & Hd2 & He2).
  assert (∀ uv, uv ∈ consumer_edges item reqs' → uv.1 ∈ nodes g2 ∧ uv.2 ∈ nodes g2)
    as Hcin by (intros uv [He Hin]%Hce; by rewrite Hn2, Hn1, He).
  pose proof (link_all_outcome (consumer_edges item reqs') g2 Hd2 Hcin) as Hq.
  destruct (link_all (consumer_edges item reqs') g2) as [[[]|ex] g3].
  2: { destruct Hq as (-> & Hn3 & Hd3 & Hk3 & Hnew3).
       split; [by eexists | done | | by rewrite Hn3, Hn2, Hn1 |].
       - intros e He. apply Hk3, He2. left. rewrite He1. by apply Hek.
       - intros Hj0 u v [[Hin|Hin]%He2|Hin]%Hnew3; [|by apply Hjp|by apply Hjc].
         rewrite He1 in Hin. by apply Hj. }
  destruct Hq as (Hn3 & Hd3 & He3).
  assert (nodes g3 = ns1) as Hn3' by by rewrite Hn3, Hn2.
  assert (∀ e, e ∈ edges g3 ↔
               e ∈ edges g ∨ e ∈ producer_edges item prov' ∨
               e ∈ consumer_edges item reqs') as He3'.
  { intros e. rewrite He3, He2, He1. tauto. }
  split; simpl; rewrite ?Hn3'; try done.
  - intros u v s Hu' Hv' Hsu Hsv. rewrite Hn3' in Hu', Hv'. apply He3'.
    destruct (decide (u = item)) as [->|Hune].
    { right; right. destruct (proj2 Hr1 v s Hv' Hsv) as (l & Hl' & Hin).
      apply elem_of_consumer_edges. by exists s, l, v. }
    destruct (decide (v = item)) as [->|Hvne].
    { right; left. destruct (provided_all _ _ Hm1 u s Hu' Hsu) as [p Hp].
      destruct (provided_in _ _ Hm1 s p Hp) as [Hpn Hps].
      assert (p = u) as -> by by apply (Hu1 p u s).
      apply elem_of_producer_edges. by exists s, u. }
    left. apply (Hl u v s); [| |done..].
    + apply elem_of_insert_node in Hu' as [?|?]; done.
    + apply elem_of_insert_node in Hv' as [?|?]; done.
  - intros e He. apply He3'. left. by apply Hek.
  - intros e [Hin|[[He _]%Hpe|[He _]%Hce]]%He3'.
    + by apply Hen.
    + right; right. by rewrite He.
    + right; left. by rewrite He.
  - intros n Hn. apply elem_of_insert_node. left. by apply Hnk.
  - intros Hj0 u v [Hin|[Hin|Hin]]%He3'; [by apply Hj | by apply Hjp | by apply Hjc].
Qed.

Lemma round_inv_start g items :
  dag g → unique_producer g → linked g → round_inv g items (scan g) g.
Proof.
  intros Hd Hu Hl. split; try done.
  - apply scan_ok.
  - apply scan_requirements_ok.
  - by left.
  - by left.
Qed.

(** [Flow.add] on a graph that is in order: what it leaves behind when it
    returns, and when it raises. *)
Lemma add_outcome items g :
  dag g → unique_producer g → linked g →
  match add items g with
  | (Returned _, g') => ∃ rp, round_inv g items rp g'
  | (Raised e, g') =>
      is_DependencyFailure e ∧ dag g' ∧ unique_producer g' ∧ linked g' ∧
      (justified (edges g) → justified (edges g'))
  end.
Proof.
  intros Hd Hu Hl. rewrite add_cases.
  pose proof (hoare_for_fold (round_inv g items) add_item (raise_inv g items) items
                (λ acc x Hx, add_item_round g items acc x Hx) (scan g) g
                (round_inv_start g items Hd Hu Hl)) as H.
  destruct (for_fold add_item (scan g) items g) as [[rp|e] g']; [by exists rp |].
  destruct H as [Hdep Hd' Hek Hnn Hj].
  assert (∀ x, x ∈ nodes (remove_nodes_from items g') → x ∈ nodes g) as Hsub.
  { intros x [Hx Hin]%elem_of_nodes_remove_nodes_from. by destruct (Hnn x Hin). }
  split; [done |]. split; [by apply dag_remove_nodes_from |]. split; [|split].
  - by eapply unique_nodes_subseteq.
  - intros u v s Hu' Hv' Hsu Hsv.
    apply elem_of_nodes_remove_nodes_from in Hu' as Hu''.
    apply elem_of_nodes_remove_nodes_from in Hv' as Hv''.
    apply list_elem_of_filter. split; [by split; [apply Hu'' | apply Hv''] |].
    apply Hek, (Hl u v s); auto.
  - intros Hj0 u v [_ Hin]%list_elem_of_filter. by apply Hj.
Qed.

Lemma link_keeps_linked u v g : dag g → linked g → linked (link u v g).2.
Proof.
  intros Hd Hl. pose proof (nodes_link u v g) as Hn. revert Hn.
  destruct (decide (u ∈ nodes g)) as [Hu|Hu], (decide (v ∈ nodes g)) as [Hv|Hv].
  - pose proof (link_outcome u v g Hd Hu Hv) as Ho.
    destruct (link u v g) as [[[]|e] g']; simpl; intros Hn.
    + destruct Ho as (_ & _ & He). intros a b s Ha Hb Hsa Hsb.
      apply He. left. rewrite Hn in Ha, Hb. by apply (Hl a b s).
    + by destruct Ho as [_ ->].
  - rewrite link_absent_rest; [done | by right].
  - rewrite link_absent_rest; [done | by left].
  - rewrite link_absent_rest; [done | by left].
Qed.

(** *** What flows built by [add] and [link] look like *)

Lemma linked_run_calls cs : linked (run_calls cs empty_graph).
Proof.
  induction cs as [|c cs IH] using rev_ind.
  - by intros u v s ?%elem_of_nil.
  - rewrite run_calls_snoc. destruct c as [items|u v]; simpl.
    + pose proof (add_outcome items _ (dag_run_calls cs) (unique_run_calls cs) IH) as H.
      destruct (add items _) as [[[]|e] g'].
      * destruct H as [rp H]. apply (round_linked _ _ _ _ H).
      * by destruct H as (_ & _ & _ & ? & _).
    + by apply link_keeps_linked; [apply dag_run_calls |].
Qed.

Lemma dag_graph_AB : dag graph_AB.
Proof. apply (dag_run_calls [CallAdd [task_A; task_B]]). Qed.

(** X1.  A [link] that raises, for an absent endpoint or for a cycle,
    leaves a graph without cycle exactly as it found it. *)
Theorem link_that_raises_leaves_graph u v g e :
  dag g → (link u v g).1 = Raised e → (link u v g).2 = g.
Proof.
  intros Hd.
  destruct (decide (u ∈ nodes g)) as [Hu|Hu]; [|intros _; apply link_absent_rest; by left].
  destruct (decide (v ∈ nodes g)) as [Hv|Hv]; [|intros _; apply link_absent_rest; by right].
  pose proof (link_outcome u v g Hd Hu Hv) as Ho.
  destruct (link u v g) as [[[]|e'] g']; [done |]. by destruct Ho as [_ ->].
Qed.

Lemma link_that_raises_leaves_graph_witness :
  (link task_B task_A graph_AB).2 = graph_AB.
Proof.
  apply (link_that_raises_leaves_graph task_B task_A graph_AB
           (DependencyFailure NoPathThroughItems) dag_graph_AB).
  reflexivity.
Defined.

(** X2.  Between two nodes of a graph without cycle, [link u v] returns
    exactly when [v] does not reach [u] along edges (in no step, when
    [u] and [v] are the same node, or in several); otherwise the edge
    would close a cycle and the call raises. *)
Theorem link_returns_iff_no_path_back u v g :
  dag g → u ∈ nodes g → v ∈ nodes g →
  (link u v g).1 = Returned tt ↔ ¬ rtc (rel (edges g)) v u.
Proof.
  intros [Hc Ha] Hu Hv. rewrite <- (acyclic_add_edge u v g Ha).
  rewrite <- (is_directed_acyclic_graph_spec _ (closed_add_edge u v g Hu Hv Hc)).
  rewrite link_cases. unfold has_node. rewrite !bool_decide_eq_true_2 by done. simpl.
  by destruct (is_directed_acyclic_graph _).
Qed.

Lemma link_returns_iff_no_path_back_witness :
  (link task_A task_B graph_AB).1 = Returned tt ↔
  ¬ rtc (rel (edges graph_AB)) task_B task_A.
Proof.
  apply (link_returns_iff_no_path_back task_A task_B graph_AB dag_graph_AB).
  - by left.
  - right. by left.
Defined.

(** X3.  When [link u v] returns on a graph without cycle, the nodes are
    the same, the edges are the old ones and [u → v], and the same call
    made again returns and changes nothing. *)
Theorem link_returns_with_edge_and_repeats u v g :
  dag g → (link u v g).1 = Returned tt →
  let g' := (link u v g).2 in
  nodes g' = nodes g ∧ (∀ e, e ∈ edges g' ↔ e ∈ edges g ∨ e = (u, v)) ∧
  link u v g' = (Returned tt, g').
Proof.
  intros Hd Hret g'. subst g'.
  destruct (decide (u ∈ nodes g ∧ v ∈ nodes g)) as [[Hu Hv]|Habs].
  2: { exfalso. revert Hret. rewrite link_cases. unfold has_node.
       repeat case_bool_decide; simpl; try done. destruct Habs. done. }
  pose proof (link_outcome u v g Hd Hu Hv) as Ho.
  destruct (link u v g) as [[[]|e'] g']; [|done]. destruct Ho as (Hn & [Hc' Ha'] & He).
  simpl. split; [done |]. split; [done |].
  rewrite link_cases. unfold has_node. rewrite Hn, !bool_decide_eq_true_2 by done. simpl.
  rewrite add_edge_present; [| by rewrite Hn | by rewrite Hn | apply He; by right].
  by rewrite (proj2 (is_directed_acyclic_graph_spec g' Hc') Ha').
Qed.

Lemma link_returns_with_edge_and_repeats_witness :
  let g' := (link task_A task_C (add_node task_C graph_AB)).2 in
  nodes g' = [task_A; task_B; task_C] ∧
  (∀ e, e ∈ edges g' ↔ e ∈ [(task_A, task_B)] ∨ e = (task_A, task_C)) ∧
  link task_A task_C g' = (Returned tt, g').
Proof.
  apply (link_returns_with_edge_and_repeats task_A task_C (add_node task_C graph_AB)).
  - apply dag_add_node, dag_graph_AB.
  - reflexivity.
Defined.

Lemma add_rolls_back_new_items_witness :
  (add [task_X] graph_AB).2 = graph_AB.
Proof.
  apply (add_rolls_back_new_items [task_X] graph_AB (DependencyFailure NoPathThroughItems)).
  - apply dag_graph_AB.
  - intros x ->%list_elem_of_singleton [[=]|[[=]|[]%elem_of_nil]%elem_of_cons]%elem_of_cons.
  - reflexivity.
Defined.

Lemma length_foldl_insert_node l : ∀ ns,
  NoDup l → (∀ x, x ∈ l → x ∉ ns) →
  length (foldl insert_node ns l) = length ns + length l.
Proof.
  induction l as [|x l IH]; intros ns Hnd Hnew; simpl; [lia |].
  apply NoDup_cons in Hnd as [Hx Hnd].
  assert (insert_node ns x = ns ++ [x]) as ->.
  { unfold insert_node. rewrite bool_decide_eq_false_2; [done |]. apply Hnew. by left. }
  rewrite IH; [rewrite length_app; simpl; lia | done |].
  intros y Hy [Hin| ->%list_elem_of_singleton]%elem_of_app; [|done].
  by apply (Hnew y); [right |].
Qed.

(** X5.  When [add items] returns on a graph a flow can reach, the nodes
    are the old ones followed by the items that were not nodes yet, every
    old edge is still there, and every new edge starts or ends at an
    item; [len] of the flow grows by the number of items when they are
    distinct and none was a node. *)
Theorem add_returns_nodes_and_edges cs items :
  let g := run_calls cs empty_graph in
  (add items g).1 = Returned tt →
  let g' := (add items g).2 in
  nodes g' = foldl insert_node (nodes g) items ∧
  (∀ e, e ∈ edges g → e ∈ edges g') ∧
  (∀ e, e ∈ edges g' → e ∈ edges g ∨ e.1 ∈ items ∨ e.2 ∈ items) ∧
  (NoDup items → (∀ x, x ∈ items → x ∉ nodes g) →
   __len__ g' = __len__ g + length items).
Proof.
  intros g Hret g'. subst g'.
  pose proof (add_outcome items g (dag_run_calls cs) (unique_run_calls cs)
                (linked_run_calls cs)) as Ho.
  pose proof (add_items_spec (nodes g) (scan g) items g
                (conj eq_refl (conj (scan_ok g) (unique_run_calls cs)))) as Hs.
  revert Hret Ho. rewrite add_cases.
  destruct (for_fold add_item (scan g) items g) as [[rp|e] g']; [|done].
  simpl. intros _ [rp' H]. destruct Hs as (Hn & _).
  split; [done |]. split; [apply (round_edges_kept _ _ _ _ H) |].
  split; [apply (round_edges_new _ _ _ _ H) |].
  intros Hnd Hnew. unfold __len__. rewrite Hn. by apply length_foldl_insert_node.
Qed.

Lemma add_returns_nodes_and_edges_witness :
  let g' := (add [task_A; task_B] (run_calls [] empty_graph)).2 in
  nodes g' = [task_A; task_B] ∧ __len__ g' = 2.
Proof.
  destruct (add_returns_nodes_and_edges [] [task_A; task_B] eq_refl)
    as (Hn & _ & _ & Hlen).
  split; [exact Hn |]. apply Hlen.
  - apply NoDup_cons. split; [by intros [=]%list_elem_of_singleton |].
    apply NoDup_singleton.
  - by intros x _ ?%elem_of_nil.
Defined.

(** X6.  In every graph a flow can reach, by [add] and [link] calls that
    returned or raised, whenever a node provides a symbol that a node
    requires there is an edge from the first to the second: [add] links
    each item to the producers and the consumers already there, in
    whatever order and over however many calls they arrive. *)
Theorem producers_are_linked_to_consumers cs u v s :
  let g := run_calls cs empty_graph in
  u ∈ nodes g → v ∈ nodes g → s ∈ provides u → s ∈ requires v → (u, v) ∈ edges g.
Proof. intros g. apply (linked_run_calls cs). Qed.

Lemma producers_are_linked_to_consumers_witness :
  (task_A, task_B) ∈ edges (run_calls [CallAdd [task_B]; CallAdd [task_A]] empty_graph).
Proof.
  apply (producers_are_linked_to_consumers
           [CallAdd [task_B]; CallAdd [task_A]] task_A task_B "x"%string).
  - right. by left.
  - by left.
  - by left.
  - by left.
Defined.

(** X7.  In a graph built by [add] calls alone, every edge goes from a
    node that provides some symbol to a node that requires that symbol:
    [add] derives no other edge. *)
Theorem add_edges_are_dependencies cs u v :
  Forall is_add cs → (u, v) ∈ edges (run_calls cs empty_graph) →
  ∃ s, s ∈ provides u ∧ s ∈ requires v.
Proof.
  intros Hadd. revert u v. change (justified (edges (run_calls cs empty_graph))).
  induction cs as [|c cs IH] using rev_ind.
  - by intros u v ?%elem_of_nil.
  - apply Forall_app in Hadd as [Hcs [Hc _]%Forall_cons]. specialize (IH Hcs).
    rewrite run_calls_snoc. destruct c as [items|]; [|done]. simpl.
    pose proof (add_outcome items _ (dag_run_calls cs) (unique_run_calls cs)
                  (linked_run_calls cs)) as H.
    destruct (add items _) as [[[]|e] g'].
    + destruct H as [rp H]. by apply (round_justified _ _ _ _ H).
    + destruct H as (_ & _ & _ & _ & H). by apply H.
Qed.

Lemma add_edges_are_dependencies_witness :
  ∃ s, s ∈ provides task_A ∧ s ∈ requires task_B.
Proof.
  apply (add_edges_are_dependencies [CallAdd [task_A; task_B]]).
  - by repeat constructor.
  - by left.
Defined.

Lemma elem_of_fold_union (f : Task → list string) l : ∀ (acc : gset string) s,
  s ∈ foldl (λ acc n, acc ∪ list_to_set (f n)) acc l ↔ s ∈ acc ∨ ∃ n, n ∈ l ∧ s ∈ f n.
Proof.
  induction l as [|n l IH]; intros acc s; simpl.
  - split; [by left | intros [?|(n & ?%elem_of_nil & _)]; done].
  - rewrite IH, elem_of_union, elem_of_list_to_set. split.
    + intros [[?|?]|(n' & ? & ?)]; [by left | right; exists n; split; [by left | done] |].
      right. exists n'. split; [by right | done].
    + intros [?|(n' & [->|?]%elem_of_cons & ?)]; [by left; left | by left; right |].
      right. by exists n'.
Qed.

Lemma elem_of_flow_provides g s :
  s ∈ flow_provides g ↔ ∃ n, n ∈ nodes g ∧ s ∈ provides n.
Proof.
  unfold flow_provides, __iter__. rewrite elem_of_fold_union.
  split; [intros [?%not_elem_of_empty|?]; done | by right].
Qed.

Lemma elem_of_flow_requires g s :
  s ∈ flow_requires g ↔
  (∃ n, n ∈ nodes g ∧ s ∈ requires n) ∧ ∀ n, n ∈ nodes g → s ∉ provides n.
Proof.
  unfold flow_requires, __iter__.
  rewrite elem_of_difference, elem_of_fold_union, elem_of_flow_provides. split.
  - intros [[?%not_elem_of_empty|?] Hno]; [done |]. split; [done |].
    intros n Hn Hs. apply Hno. by exists n.
  - intros [? Hno]. split; [by right |]. intros (n & Hn & Hs). by apply (Hno n).
Qed.

(** X8.  For a flow built by [add] and [link] calls, [Flow.requires]
    holds exactly the symbols that the flow cannot satisfy itself: a
    symbol a node requires is either in [Flow.requires], and then no node
    provides it, or it is not, and then exactly one node provides it and
    the graph has the edge from that node to the one requiring it. *)
Theorem flow_requires_is_what_no_node_provides cs v s :
  let g := run_calls cs empty_graph in
  v ∈ nodes g → s ∈ requires v →
  (s ∈ flow_requires g ∧ (s ∉ flow_provides g) ∧ ∀ u, u ∈ nodes g → s ∉ provides u) ∨
  ((s ∉ flow_requires g) ∧ s ∈ flow_provides g ∧
   ∃ u, u ∈ nodes g ∧ s ∈ provides u ∧ (u, v) ∈ edges g ∧
        ∀ u', u' ∈ nodes g → s ∈ provides u' → u' = u).
Proof.
  intros g Hv Hs. destruct (decide (s ∈ flow_provides g)) as [Hp|Hp].
  - right. split; [|split; [done |]].
    + rewrite elem_of_flow_requires. intros [_ Hno].
      apply elem_of_flow_provides in Hp as (u & Hu & Hsu). by apply (Hno u).
    + apply elem_of_flow_provides in Hp as (u & Hu & Hsu). exists u.
      split; [done |]. split; [done |]. split.
      * by apply (linked_run_calls cs u v s).
      * intros u' Hu' Hsu'. by apply (unique_run_calls cs u' u s).
  - left. assert (∀ u, u ∈ nodes g → s ∉ provides u) as Hno.
    { intros u Hu Hsu. apply Hp, elem_of_flow_provides. by exists u. }
    split; [|done]. apply elem_of_flow_requires. split; [by exists v | done].
Qed.

Lemma flow_requires_is_what_no_node_provides_witness :
  let g := run_calls [CallAdd [task_X; task_C]; CallAdd [task_B]] empty_graph in
  "x"%string ∈ flow_requires g ∧ ("x"%string ∉ flow_provides g).
Proof.
  intros g.
  destruct (flow_requires_is_what_no_node_provides
              [CallAdd [task_X; task_C]; CallAdd [task_B]] task_B "x"%string)
    as [(Hr & Hp & _)|(_ & _ & u & Hu & Hsu & _)].
  - by left.
  - by left.
  - by split.
  - apply list_elem_of_singleton in Hu as ->.
    by apply elem_of_nil in Hsu.
Defined.

End GraphFlowProps.

(** ** The storage *)

Module StorageProps.
Import Storage.

(** *** Reading results *)

Lemma item_from_result_cases (result : Value) index n (s : Storage.Storage) :
  _item_from_result result index n s =
  match extract result index with
  | Some v => (Returned v, s)
  | None => (Raised (NotFound (UnableToFindResult n)), s)
  end.
Proof.
  unfold _item_from_result, extract. destruct index as [k|]; [|done].
  by destruct (getitem result k).
Qed.

(** [Storage.get], one outcome at a time. *)
Lemma get_cases u s :
  get u s =
  match task s u with
  | None => (Raised (NotFound (UnknownTask u)), s)
  | Some td =>
      if has_results (state td) then (Returned (results td), s)
      else (Raised (NotFound (ResultNotKnown u)), s)
  end.
Proof.
  unfold get, _taskdetail_by_uuid, task, has_results, mbind, M_bind, bind, get_state.
  destruct (find u (_flowdetail s)) as [[i td]|]; simpl; [|done].
  by destruct (bool_decide _).
Qed.

(** One round of the loop of [fetch]. *)
Lemma fetch_entries_cons n entry rest s :
  fetch_entries n (entry :: rest) s =
  match yields s entry with
  | Some v => (Returned v, s)
  | None => fetch_entries n rest s
  end.
Proof.
  destruct entry as [u index]. simpl.
  unfold except_NotFound, try_except, yields, mbind at 1, M_bind, bind. simpl.
  rewrite get_cases. destruct (task s u) as [td|]; simpl; [|done].
  destruct (has_results (state td)); simpl; [|done].
  rewrite item_from_result_cases. by destruct (extract (results td) index).
Qed.

Lemma fetch_entries_first n l1 entry l2 v s :
  Forall (λ e, yields s e = None) l1 → yields s entry = Some v →
  fetch_entries n (l1 ++ entry :: l2) s = (Returned v, s).
Proof.
  intros Hl1 Hv. induction Hl1 as [|e l1 He _ IH]; simpl app.
  - by rewrite fetch_entries_cons, Hv.
  - by rewrite fetch_entries_cons, He.
Qed.

Lemma fetch_entries_none n entries s :
  Forall (λ e, yields s e = None) entries →
  fetch_entries n entries s = (Raised (NotFound (UnableToFindResult n)), s).
Proof.
  induction 1 as [|e l He _ IH]; [done |]. by rewrite fetch_entries_cons, He.
Qed.

(** Either no entry yields a value, or there is an earliest one that does. *)
Lemma earliest_yield s entries :
  Forall (λ e, yields s e = None) entries ∨
  ∃ l1 entry l2 v, entries = l1 ++ entry :: l2 ∧
    Forall (λ e, yields s e = None) l1 ∧ yields s entry = Some v.
Proof.
  induction entries as [|e entries IH]; [by left |].
  destruct (yields s e) as [v|] eqn:He.
  - right. by exists [], e, entries, v.
  - destruct IH as [IH|(l1 & entry & l2 & v & -> & Hl1 & Hv)].
    + left. by constructor.
    + right. exists (e :: l1), entry, l2, v. split; [done |]. split; [by constructor | done].
Qed.

Lemma fetch_cases n s :
  fetch n s =
  match _reverse_mapping s !! n with
  | None => (Raised (NotFound (NameNotMapped n)), s)
  | Some indexes => fetch_entries n indexes s
  end.
Proof.
  unfold fetch, mbind, M_bind, bind, get_state. by destruct (_reverse_mapping s !! n).
Qed.

Lemma fetch_readonly n : readonly (fetch n).
Proof.
  intros s. rewrite fetch_cases. destruct (_reverse_mapping s !! n) as [entries|]; [|done].
  destruct (earliest_yield s entries) as [H|(l1 & e & l2 & v & -> & H1 & Hv)].
  - by rewrite fetch_entries_none.
  - by rewrite (fetch_entries_first _ _ _ _ v).
Qed.

Lemma fetch_returns n s v :
  (fetch n s).1 = Returned v ↔
  ∃ l1 entry l2, _reverse_mapping s !! n = Some (l1 ++ entry :: l2) ∧
    Forall (λ e, yields s e = None) l1 ∧ yields s entry = Some v.
Proof.
  rewrite fetch_cases. split.
  - destruct (_reverse_mapping s !! n) as [entries|]; [|done].
    destruct (earliest_yield s entries) as [H|(l1 & e & l2 & v' & -> & H1 & Hv)].
    + by rewrite fetch_entries_none.
    + rewrite (fetch_entries_first _ _ _ _ v') by done. intros [= <-].
      by exists l1, e, l2.
  - intros (l1 & e & l2 & -> & H1 & Hv). by rewrite (fetch_entries_first _ _ _ _ v).
Qed.

Lemma fetch_raises n s e :
  (fetch n s).1 = Raised e ↔
  (_reverse_mapping s !! n = None ∧ e = NotFound (NameNotMapped n)) ∨
  (∃ entries, _reverse_mapping s !! n = Some entries ∧
     Forall (λ e, yields s e = None) entries ∧ e = NotFound (UnableToFindResult n)).
Proof.
  rewrite fetch_cases. split.
  - destruct (_reverse_mapping s !! n) as [entries|]; [|intros [= <-]; by left].
    destruct (earliest_yield s entries) as [H|(l1 & e' & l2 & v' & -> & H1 & Hv)].
    + rewrite fetch_entries_none by done. intros [= <-]. right. by exists entries.
    + by rewrite (fetch_entries_first _ _ _ _ v').
  - intros [[-> ->]|(entries & -> & H & ->)]; [done |]. by rewrite fetch_entries_none.
Qed.

(** C5.  For a uuid the storage knows, [get] returns the results of its
    task detail exactly when the state of that detail is [SUCCESS],
    [REVERTING] or [FAILURE]; in every other state it raises [NotFound].
    Either way the storage is left as it was. *)
Theorem get_returns_results_iff_state_has_results s u td :
  task s u = Some td →
  (get u s = (Returned (results td), s) ↔ state td ∈ STATES_WITH_RESULTS) ∧
  (state td ∉ STATES_WITH_RESULTS →
   get u s = (Raised (NotFound (ResultNotKnown u)), s)).
Proof.
  intros Htd. rewrite get_cases, Htd. unfold has_results.
  case_bool_decide as Hst; split; done.
Qed.

(** *** Writing *)

Lemma set_flowdetail_same s : set_flowdetail (λ fd, fd) s = s.
Proof. by destruct s. Qed.

Lemma fd_update_same fd : fd_update fd fd = fd.
Proof. by destruct fd. Qed.

Lemma td_update_same td : td_update td td = td.
Proof. by destruct td. Qed.

Lemma set_taskdetail_same i s : set_taskdetail i (λ td, td) s = s.
Proof.
  unfold set_taskdetail, set_flowdetail. destruct s as [? ? ? [? tds] ?]. simpl.
  by rewrite list_alter_id.
Qed.

(** Without peer writes the persistence steps change nothing. *)
Lemma save_flow_detail_quiet s :
  no_peer_writes (_backend s) → _with_connection _save_flow_detail s = (Returned tt, s).
Proof.
  unfold _with_connection, mbind, M_bind, bind, get_state, no_peer_writes.
  destruct (_backend s) as [conn|]; [|done]. intros [Hfd _].
  unfold _save_flow_detail, modify. f_equal.
  rewrite <- (set_flowdetail_same s) at 2. unfold set_flowdetail. f_equal.
  by rewrite Hfd, fd_update_same.
Qed.

Lemma save_task_detail_quiet i s :
  no_peer_writes (_backend s) →
  _with_connection (_save_task_detail i) s = (Returned tt, s).
Proof.
  unfold _with_connection, mbind, M_bind, bind, get_state, no_peer_writes.
  destruct (_backend s) as [conn|]; [|done]. intros [_ Htd].
  unfold _save_task_detail, modify. f_equal.
  rewrite <- (set_taskdetail_same i s) at 2. unfold set_taskdetail, set_flowdetail.
  do 2 f_equal. apply list_alter_ext; [|done]. intros td _.
  by rewrite Htd, td_update_same.
Qed.

Lemma add_task_quiet u n s :
  no_peer_writes (_backend s) →
  add_task u n s = (Returned tt, set_flowdetail (fd_add (new_detail u n)) s).
Proof.
  intros Hq. unfold add_task, mbind, M_bind, bind, get_state, modify.
  rewrite save_flow_detail_quiet by done.
  set (s1 := set_flowdetail _ s).
  unfold _with_connection, mbind, M_bind, bind, get_state.
  destruct (_backend s1) as [conn|] eqn:Hb; [|done].
  destruct (same_object conn _ _) as [j|]; [|done].
  pose proof (save_task_detail_quiet j s1 Hq) as Hj.
  unfold _with_connection, mbind, M_bind, bind, get_state in Hj. by rewrite Hb in Hj.
Qed.

Lemma taskdetail_by_uuid_cases u s :
  _taskdetail_by_uuid u s =
  match find u (_flowdetail s) with
  | None => (Raised (NotFound (UnknownTask u)), s)
  | Some td => (Returned td, s)
  end.
Proof.
  unfold _taskdetail_by_uuid, mbind, M_bind, bind, get_state.
  by destruct (find u (_flowdetail s)).
Qed.

Lemma set_task_state_quiet u st s i td :
  no_peer_writes (_backend s) → find u (_flowdetail s) = Some (i, td) →
  set_task_state u st s = (Returned tt, set_taskdetail i (with_state st) s).
Proof.
  intros Hq Hf. unfold set_task_state, mbind, M_bind, bind, modify.
  rewrite taskdetail_by_uuid_cases, Hf. simpl. by rewrite save_task_detail_quiet.
Qed.

Lemma reset_quiet u st s i td :
  no_peer_writes (_backend s) → find u (_flowdetail s) = Some (i, td) →
  reset u st s =
  (Returned tt, set_taskdetail i (λ td, with_state st (with_results VNone td)) s).
Proof.
  intros Hq Hf. unfold reset, mbind, M_bind, bind, modify.
  rewrite taskdetail_by_uuid_cases, Hf. simpl. by rewrite save_task_detail_quiet.
Qed.

Lemma set_task_progress_quiet u progress kwargs s i td :
  no_peer_writes (_backend s) → find u (_flowdetail s) = Some (i, td) →
  ∃ m, set_task_progress u progress kwargs s =
       (Returned tt, set_taskdetail i (with_meta m) s).
Proof.
  intros Hq Hf. unfold set_task_progress, mbind, M_bind, bind, modify.
  rewrite taskdetail_by_uuid_cases, Hf. simpl. eexists.
  by rewrite save_task_detail_quiet.
Qed.

Lemma unknown_uuid_raises u s (c : nat * TaskDetail → M Storage.Storage unit) :
  find u (_flowdetail s) = None →
  (_taskdetail_by_uuid u ≫= c) s = (Raised (NotFound (UnknownTask u)), s).
Proof.
  intros Hf. unfold mbind, M_bind, bind. by rewrite taskdetail_by_uuid_cases, Hf.
Qed.

Lemma logged_nil s : logged [] s = s.
Proof. destruct s. unfold logged. simpl. by rewrite app_nil_r. Qed.

Lemma logged_logged ws1 ws2 s : logged ws2 (logged ws1 s) = logged (ws1 ++ ws2) s.
Proof. unfold logged. simpl. by rewrite app_assoc. Qed.

Lemma check_loop n data (l : list (string * Index)) : ∀ ws s,
  for_each (λ ni : string * Index,
      except_NotFound
        (_item_from_result data ni.2 ni.1;; ret tt)
        (LOG_warning {| w_task_name := n; w_index := ni.2; w_name := ni.1 |}))
    l (logged ws s) =
  (Returned tt,
   logged (ws ++ omap (λ ni : string * Index,
                   match extract data ni.2 with
                   | Some _ => None
                   | None => Some {| w_task_name := n; w_index := ni.2; w_name := ni.1 |}
                   end) l) s).
Proof.
  unfold for_each. induction l as [|[nm index] l IH]; intros ws s; simpl.
  - by rewrite app_nil_r.
  - unfold mbind, M_bind, bind, except_NotFound, try_except.
    rewrite item_from_result_cases. simpl.
    destruct (extract data index) as [v|]; simpl.
    + apply IH.
    + unfold LOG_warning, modify. rewrite logged_logged.
      unfold mbind, M_bind, bind in IH. rewrite IH. by rewrite <- app_assoc.
Qed.

(** The completeness check only writes to the log: one warning for each
    pair of the result mapping whose index does not resolve. *)
Lemma check_all_results_provided_cases u n data s :
  _check_all_results_provided u n data s =
  (Returned tt,
   logged (missing_results n data (default ∅ (_result_mappings s !! u))) s).
Proof.
  unfold _check_all_results_provided, mbind, M_bind, bind, get_state, missing_results.
  destruct (_result_mappings s !! u) as [mapping|]; simpl.
  - pose proof (check_loop n data (map_to_list mapping) [] s) as H.
    by rewrite logged_nil in H.
  - rewrite map_to_list_empty. simpl. by rewrite logged_nil.
Qed.

Lemma save_quiet u data st s i td :
  no_peer_writes (_backend s) → find u (_flowdetail s) = Some (i, td) →
  save u data st s =
  (Returned tt,
   let s1 := set_taskdetail i (stored data st) s in
   if is_Failure data then s1
   else logged (missing_results (name td) data (default ∅ (_result_mappings s !! u))) s1).
Proof.
  intros Hq Hf. unfold save, mbind, M_bind, bind, modify.
  rewrite taskdetail_by_uuid_cases, Hf. simpl. rewrite save_task_detail_quiet by done.
  destruct (is_Failure data); simpl; [done |].
  by rewrite check_all_results_provided_cases.
Qed.

(** *** What a write leaves for later reads *)

Lemma list_find_alter_other {A} (P : A → Prop) `{!∀ x, Decision (P x)} f l : ∀ i,
  (∀ x, l !! i = Some x → ¬ P x ∧ ¬ P (f x)) →
  list_find P (alter f i l) = list_find P l.
Proof.
  induction l as [|y l IH]; intros i Hi; [done |].
  destruct i as [|i]; csimpl.
  - destruct (Hi y eq_refl) as [H1 H2]. by rewrite !decide_False by done.
  - case_decide; [done |]. rewrite IH; [done | apply Hi].
Qed.

Lemma list_find_alter_found {A} (P : A → Prop) `{!∀ x, Decision (P x)} f l i x :
  list_find P l = Some (i, x) → P (f x) →
  list_find P (alter f i l) = Some (i, f x).
Proof.
  intros (Hl & Hx & Hmin)%list_find_Some Hfx. apply list_find_Some.
  split; [by rewrite list_lookup_alter_eq, Hl |]. split; [done |].
  intros j y Hj Hlt. rewrite list_lookup_alter_ne in Hj by lia. eauto.
Qed.

Lemma task_find s u td : task s u = Some td ↔ ∃ i, find u (_flowdetail s) = Some (i, td).
Proof.
  unfold task. destruct (find u (_flowdetail s)) as [[i td']|]; simpl.
  - split; [intros [= ->]; eauto | by intros [j [= _ ->]]].
  - split; [done | by intros [? ?]].
Qed.

Lemma find_uuid s u i td : find u (_flowdetail s) = Some (i, td) → uuid td = u.
Proof. by intros (_ & ? & _)%list_find_Some. Qed.

(** Changing, in place, the detail [find] returns for [u], without
    touching its uuid. *)
Lemma task_set_taskdetail s u i td f u' :
  find u (_flowdetail s) = Some (i, td) → (∀ x, uuid (f x) = uuid x) →
  task (set_taskdetail i f s) u' = if decide (u' = u) then Some (f td) else task s u'.
Proof.
  intros Hf Huuid. unfold task, find, set_taskdetail, set_flowdetail. simpl.
  case_decide as Hu; subst.
  - rewrite (list_find_alter_found _ f _ i td); [done | done |].
    rewrite Huuid. by eapply find_uuid.
  - rewrite list_find_alter_other; [done |].
    intros x Hx. apply list_find_Some in Hf as (Hi & Htd & _).
    rewrite Huuid. assert (x = td) as -> by congruence. split; congruence.
Qed.

Lemma task_add s td u' :
  task (set_flowdetail (fd_add td) s) u' =
  match task s u' with
  | Some td' => Some td'
  | None => if decide (uuid td = u') then Some td else None
  end.
Proof.
  unfold task, find, set_flowdetail, fd_add. simpl.
  destruct (list_find _ (taskdetails _)) as [[i td']|] eqn:Hf; simpl.
  - by rewrite (list_find_app_l _ _ _ _ _ Hf).
  - rewrite list_find_app_r by done. simpl. by case_decide.
Qed.

(** Appending one entry for each element of a list whose keys are
    pairwise distinct. *)
Lemma lookup_appended_other {A} (k : A → string) (e : A → string * Index) l :
  ∀ (rm : gmap string (list (string * Index))) nm,
  (∀ a, a ∈ l → k a ≠ nm) →
  foldl (λ rm a, <[k a := default [] (rm !! k a) ++ [e a]]> rm) rm l !! nm = rm !! nm.
Proof.
  induction l as [|a l IH]; intros rm nm Hnm; simpl; [done |].
  rewrite IH by (intros; apply Hnm; by right).
  apply lookup_insert_ne, Hnm. by left.
Qed.

Lemma lookup_appended {A} (k : A → string) (e : A → string * Index) l :
  ∀ (rm : gmap string (list (string * Index))) a,
  NoDup (k <$> l) → a ∈ l →
  foldl (λ rm a, <[k a := default [] (rm !! k a) ++ [e a]]> rm) rm l !! k a =
  Some (default [] (rm !! k a) ++ [e a]).
Proof.
  induction l as [|a0 l IH]; intros rm a Hnd Ha; [by apply elem_of_nil in Ha |].
  rewrite fmap_cons in Hnd. apply NoDup_cons in Hnd as [Hfresh Hnd]. simpl.
  apply elem_of_cons in Ha as [->|Ha].
  - rewrite lookup_appended_other; [apply lookup_insert_eq |].
    intros a Ha Heq. apply Hfresh. rewrite <- Heq. by apply list_elem_of_fmap_2.
  - rewrite IH by done. rewrite lookup_insert_ne; [done |].
    intros Heq. apply Hfresh. rewrite Heq. by apply list_elem_of_fmap_2.
Qed.

Lemma append_entries_cases {A} (k : A → string) (e : A → string * Index) l : ∀ s,
  for_each (λ a, append_entry (k a) (e a)) l s =
  (Returned tt,
   set_reverse_mapping
     (λ rm, foldl (λ rm a, <[k a := default [] (rm !! k a) ++ [e a]]> rm) rm l) s).
Proof.
  unfold for_each. induction l as [|a l IH]; intros s; simpl.
  - by destruct s.
  - unfold mbind, M_bind, bind, append_entry, modify in *. by rewrite IH.
Qed.

Lemma find_added s u n :
  task s u = None →
  find u (_flowdetail (set_flowdetail (fd_add (new_detail u n)) s)) =
  Some (length (taskdetails (_flowdetail s)), new_detail u n).
Proof.
  unfold task, find. simpl. intros Hnone.
  destruct (list_find _ (taskdetails _)) as [[i td']|] eqn:Hf; [done |].
  rewrite list_find_app_r by done. simpl. by rewrite decide_True.
Qed.

(** [Storage.inject] with a uuid the storage has not seen. *)
Lemma inject_fresh u pairs s :
  no_peer_writes (_backend s) → task s u = None →
  ∃ s', inject u pairs s = (Returned tt, s') ∧
    _backend s' = _backend s ∧
    task s' u = Some (injected u pairs) ∧
    (∀ u', u' ≠ u → task s' u' = task s u') ∧
    (∀ nm, _reverse_mapping s' !! nm =
           if decide (is_Some (pairs !! nm))
           then Some (default [] (_reverse_mapping s !! nm) ++ [(u, Some (KStr nm))])
           else _reverse_mapping s !! nm).
Proof.
  intros Hq Hnew. unfold inject, mbind, M_bind, bind.
  rewrite add_task_quiet by done.
  set (s1 := set_flowdetail (fd_add (new_detail u injector_name)) s).
  pose proof (find_added s u injector_name Hnew) as Hf. fold s1 in Hf.
  rewrite (save_quiet _ _ _ s1 _ _ Hq Hf). cbn [is_Failure].
  rewrite (append_entries_cases (λ nm, nm) (λ nm, (u, Some (KStr nm)))).
  eexists. split; [done |]. split; [done |]. split; [|split].
  - trans (task (set_taskdetail (length (taskdetails (_flowdetail s)))
                                (stored (VDict pairs) SUCCESS) s1) u); [done |].
    rewrite (task_set_taskdetail s1 u _ _ _ u Hf) by done. by rewrite decide_True.
  - intros u' Hu'.
    trans (task (set_taskdetail (length (taskdetails (_flowdetail s)))
                                (stored (VDict pairs) SUCCESS) s1) u'); [done |].
    rewrite (task_set_taskdetail s1 u _ _ _ u' Hf) by done.
    rewrite decide_False by done. unfold s1. rewrite task_add.
    destruct (task s u'); [done |]. by rewrite decide_False by (simpl; congruence).
  - intros nm. cbn [_reverse_mapping set_reverse_mapping logged set_taskdetail
                    set_flowdetail s1].
    case_decide as Hnm.
    + destruct Hnm as [v Hv].
      apply (lookup_appended (λ nm, nm) (λ nm, (u, Some (KStr nm)))).
      * rewrite list_fmap_id. apply NoDup_fst_map_to_list.
      * apply list_elem_of_fmap. exists (nm, v). split; [done |].
        by apply elem_of_map_to_list.
    + apply (lookup_appended_other (λ nm, nm)).
      intros a [[nm' v] [Heq Hin%elem_of_map_to_list]]%list_elem_of_fmap Ha.
      simpl in Heq. subst. apply Hnm. by exists v.
Qed.

Lemma reset_known u st s td :
  no_peer_writes (_backend s) → task s u = Some td →
  ∃ s', reset u st s = (Returned tt, s') ∧
    _reverse_mapping s' = _reverse_mapping s ∧
    task s' u = Some (with_state st (with_results VNone td)) ∧
    (∀ u', u' ≠ u → task s' u' = task s u').
Proof.
  intros Hq [i Hf]%task_find. rewrite (reset_quiet _ _ _ _ _ Hq Hf).
  eexists. split; [done |]. split; [done |]. split.
  - rewrite (task_set_taskdetail s u _ _ _ u Hf) by done. by rewrite decide_True.
  - intros u' Hu'. rewrite (task_set_taskdetail s u _ _ _ u' Hf) by done.
    by rewrite decide_False.
Qed.

(** *** Named results *)

(** C4.  [fetch name] leaves the storage as it is.  It returns [v]
    exactly when the list registered for [name] has an entry that yields
    [v] (its task is known and in a state with results, and its index
    resolves) with no entry before it yielding anything; it raises
    [NotFound] exactly when [name] is not mapped or no entry yields a
    value.  In particular: on a storage where [x] is not mapped, inject
    [{x: v1}] and then [{x: v2}] under two distinct new uuids; [fetch x]
    returns [v1], and after [reset] of the first injector it returns
    [v2]. *)
Theorem fetch_returns_earliest_yield :
  (∀ s n,
     (fetch n s).2 = s ∧
     (∀ v, (fetch n s).1 = Returned v ↔
           ∃ l1 entry l2, _reverse_mapping s !! n = Some (l1 ++ entry :: l2) ∧
             Forall (λ e, yields s e = None) l1 ∧ yields s entry = Some v) ∧
     (∀ e, (fetch n s).1 = Raised e ↔
           (_reverse_mapping s !! n = None ∧ e = NotFound (NameNotMapped n)) ∨
           (∃ entries, _reverse_mapping s !! n = Some entries ∧
              Forall (λ e, yields s e = None) entries ∧
              e = NotFound (UnableToFindResult n)))) ∧
  (∀ s u1 u2 x v1 v2,
     no_peer_writes (_backend s) → _reverse_mapping s !! x = None →
     task s u1 = None → task s u2 = None → u1 ≠ u2 →
     let s2 := (inject u2 {[x := v2]} (inject u1 {[x := v1]} s).2).2 in
     (fetch x s2).1 = Returned v1 ∧
     (fetch x (reset u1 PENDING s2).2).1 = Returned v2).
Proof.
  split.
  { intros s n. split; [apply fetch_readonly |].
    split; [apply fetch_returns | apply fetch_raises]. }
  intros s u1 u2 x v1 v2 Hq Hx Hu1 Hu2 Hne.
  destruct (inject_fresh u1 {[x := v1]} s Hq Hu1) as (s1 & -> & Hb1 & Ht1 & Ho1 & Hrm1).
  simpl.
  assert (task s1 u2 = None) as Hu2' by by rewrite Ho1.
  rewrite <- Hb1 in Hq.
  destruct (inject_fresh u2 {[x := v2]} s1 Hq Hu2') as (s2 & -> & Hb2 & Ht2 & Ho2 & Hrm2).
  simpl.
  assert (_reverse_mapping s2 !! x =
          Some ([] ++ (u1, Some (KStr x)) :: [(u2, Some (KStr x))])) as Hrm.
  { rewrite Hrm2, Hrm1, !lookup_singleton_eq, !decide_True by eauto.
    by rewrite Hx. }
  assert (task s2 u1 = Some (injected u1 {[x := v1]})) as Ht21 by by rewrite Ho2.
  split.
  - apply fetch_returns. eexists _, _, _. split; [exact Hrm |]. split; [done |].
    unfold yields. simpl. rewrite Ht21. simpl. apply lookup_singleton_eq.
  - rewrite <- Hb2 in Hq.
    destruct (reset_known u1 PENDING s2 _ Hq Ht21) as (s3 & -> & Hrm3 & Ht3 & Ho3).
    simpl. apply fetch_returns. exists [(u1, Some (KStr x))], (u2, Some (KStr x)), [].
    rewrite Hrm3. split; [exact Hrm |]. split.
    + constructor; [|done]. unfold yields. simpl. by rewrite Ht3.
    + unfold yields. simpl. rewrite Ho3, Ht2 by done. simpl. apply lookup_singleton_eq.
Qed.

Lemma fetch_returns_earliest_yield_witness :
  let s2 := (inject "i2" {["x" := VInt 2]}
               (inject "i1" {["x" := VInt 1]} (init empty_flow_detail None)).2).2 in
  (fetch "x" s2).1 = Returned (VInt 1) ∧
  (fetch "x" (reset "i1" PENDING s2).2).1 = Returned (VInt 2).
Proof.
  apply (proj2 fetch_returns_earliest_yield (init empty_flow_detail None)
           "i1"%string "i2"%string "x"%string (VInt 1) (VInt 2)); done.
Defined.

(** C10.  A [Failure] saved as the results of a task in state [FAILURE]
    is read like any other result: [get] returns it, and [fetch] returns
    it for a name whose earliest entry that yields a value is that task
    with a null index. *)
Theorem fetch_returns_saved_Failure s n l1 u l2 td exception_str :
  _reverse_mapping s !! n = Some (l1 ++ (u, None) :: l2) →
  Forall (λ e, yields s e = None) l1 →
  task s u = Some td → state td = FAILURE → results td = VFailure exception_str →
  get u s = (Returned (VFailure exception_str), s) ∧
  fetch n s = (Returned (VFailure exception_str), s).
Proof.
  intros Hrm Hl1 Htd Hst Hres. split.
  - rewrite get_cases, Htd. simpl. by rewrite Hst, Hres.
  - rewrite fetch_cases, Hrm. apply fetch_entries_first; [done |].
    unfold yields. simpl. rewrite Htd. simpl. by rewrite Hst, Hres.
Qed.

Lemma fetch_returns_saved_Failure_witness :
  get "u" failed_storage = (Returned (VFailure "boom"), failed_storage) ∧
  fetch "outcome" failed_storage = (Returned (VFailure "boom"), failed_storage).
Proof.
  apply (fetch_returns_saved_Failure failed_storage "outcome" [] "u" []
           {| uuid := "u"; name := "t"; state := FAILURE; results := VFailure "boom";
              meta := None |} "boom"); done.
Defined.

Lemma get_returns_results_iff_state_has_results_witness :
  get "u" saved_storage = (Returned (VList [VInt 42]), saved_storage).
Proof.
  apply (get_returns_results_iff_state_has_results saved_storage "u"
           {| uuid := "u"; name := "t"; state := SUCCESS; results := VList [VInt 42];
              meta := None |} eq_refl).
  by left.
Defined.

(** *** Saving *)

Lemma save_known u data st s td :
  no_peer_writes (_backend s) → task s u = Some td → is_Failure data = false →
  ∃ s', save u data st s = (Returned tt, s') ∧
    _backend s' = _backend s ∧
    _reverse_mapping s' = _reverse_mapping s ∧
    _result_mappings s' = _result_mappings s ∧
    LOG s' = LOG s ++ missing_results (name td) data
                        (default ∅ (_result_mappings s !! u)) ∧
    task s' u = Some (stored data st td) ∧
    (∀ u', u' ≠ u → task s' u' = task s u').
Proof.
  intros Hq [i Hf]%task_find Hdata. rewrite (save_quiet _ _ _ _ _ _ Hq Hf), Hdata.
  eexists. split; [done |]. do 4 (split; [done |]). split.
  - trans (task (set_taskdetail i (stored data st) s) u); [done |].
    rewrite (task_set_taskdetail s u _ _ _ u Hf) by done. by rewrite decide_True.
  - intros u' Hu'. trans (task (set_taskdetail i (stored data st) s) u'); [done |].
    rewrite (task_set_taskdetail s u _ _ _ u' Hf) by done. by rewrite decide_False.
Qed.

Lemma elem_of_missing_results n data mapping w :
  w ∈ missing_results n data mapping ↔
  ∃ nm index, mapping !! nm = Some index ∧ extract data index = None ∧
    w = {| w_task_name := n; w_index := index; w_name := nm |}.
Proof.
  unfold missing_results. rewrite list_elem_of_omap. split.
  - intros ([nm index] & Hin%elem_of_map_to_list & Hw). simpl in Hw.
    destruct (extract data index) eqn:He; [done |]. injection Hw as <-.
    by exists nm, index.
  - intros (nm & index & Hm & He & ->). exists (nm, index).
    split; [by apply elem_of_map_to_list |]. simpl. by rewrite He.
Qed.

(** C7, as the code has it.  [save] of data that is not a [Failure], for
    a uuid the storage knows and without peer writes, returns: the task
    detail now holds the data and the state, whatever the result mapping
    of the task says; the log has grown by exactly one warning for each
    pair of that mapping whose index does not resolve against the data.
    Afterwards [fetch] of a name registered for the task returns the
    value its index resolves to when the saved state is one with results
    and no entry registered earlier for the name yields a value; it
    raises [NotFound] when the index does not resolve and no other entry
    registered for the name yields a value. *)
Theorem save_stores_and_warns s u td data st :
  no_peer_writes (_backend s) → task s u = Some td → is_Failure data = false →
  let mapping := default ∅ (_result_mappings s !! u) in
  let s' := (save u data st s).2 in
  (save u data st s).1 = Returned tt ∧
  task s' u = Some (stored data st td) ∧
  LOG s' = LOG s ++ missing_results (name td) data mapping ∧
  (∀ n index, mapping !! n = Some index →
     extract data index = None ↔
     {| w_task_name := name td; w_index := index; w_name := n |}
       ∈ missing_results (name td) data mapping) ∧
  (∀ n index l1 l2 v,
     _reverse_mapping s !! n = Some (l1 ++ (u, index) :: l2) →
     Forall (λ e, yields s' e = None) l1 →
     has_results st = true → extract data index = Some v →
     fetch n s' = (Returned v, s')) ∧
  (∀ n index entries,
     _reverse_mapping s !! n = Some entries → extract data index = None →
     Forall (λ e, e = (u, index) ∨ yields s' e = None) entries →
     fetch n s' = (Raised (NotFound (UnableToFindResult n)), s')).
Proof.
  intros Hq Htd Hdata mapping s'.
  destruct (save_known u data st s td Hq Htd Hdata)
    as (s1 & Heq & _ & Hrm & _ & Hlog & Hu & _).
  subst s'. rewrite Heq. simpl. split; [done |]. split; [done |]. split; [done |].
  assert (∀ index, yields s1 (u, index) =
                   if has_results st then extract data index else None) as Hy.
  { intros index. unfold yields. simpl. by rewrite Hu. }
  split; [|split].
  - intros n index Hm. rewrite elem_of_missing_results. split.
    + intros He. by exists n, index.
    + intros (nm & index' & _ & He & [= -> ->]). done.
  - intros n index l1 l2 v Hn Hl1 Hst Hv.
    rewrite fetch_cases, Hrm, Hn. apply fetch_entries_first; [done |].
    by rewrite Hy, Hst.
  - intros n index entries Hn He Hall.
    rewrite fetch_cases, Hrm, Hn. apply fetch_entries_none.
    eapply Forall_impl; [exact Hall |]. intros e [->|?]; [|done].
    rewrite Hy, He. by destruct (has_results st).
Qed.

Lemma save_stores_and_warns_witness :
  let s' := (save "u" (VList [VInt 42]) SUCCESS mapped_storage).2 in
  (save "u" (VList [VInt 42]) SUCCESS mapped_storage).1 = Returned tt ∧
  LOG s' = [{| w_task_name := "t"; w_index := Some (KInt 5); w_name := "b" |}] ∧
  fetch "a" s' = (Returned (VInt 42), s') ∧
  fetch "b" s' = (Raised (NotFound (UnableToFindResult "b")), s').
Proof.
  intros s'.
  destruct (save_stores_and_warns mapped_storage "u"
              {| uuid := "u"; name := "t"; state := PENDING; results := VNone;
                 meta := None |} (VList [VInt 42]) SUCCESS I eq_refl eq_refl)
    as (Hret & _ & Hlog & _ & Hfound & Hmissing).
  split; [exact Hret |]. split; [exact Hlog |]. split.
  - by apply (Hfound "a"%string (Some (KInt 0)) [] []).
  - apply (Hmissing "b"%string (Some (KInt 5)) [("u"%string, Some (KInt 5))]); [done..|].
    constructor; [by left | done].
Defined.

(** C7, as stated: a value injected earlier under the name ["b"] is what
    [fetch] returns, although index 5 does not resolve against the data
    saved for ["u"]. *)
Lemma fetch_does_not_follow_own_index : ¬ fetch_follows_own_index.
Proof.
  intros H.
  specialize (H [OpInject "i" {["b" := VInt 7]}; OpAddTask "u" "t";
                 OpSetResultMapping "u" {["a" := Some (KInt 0); "b" := Some (KInt 5)]}]
                "u"%string
                {| uuid := "u"; name := "t"; state := PENDING; results := VNone;
                   meta := None |}
                (VList [VInt 42]) SUCCESS
                {["a" := Some (KInt 0); "b" := Some (KInt 5)]}
                "b"%string (Some (KInt 5)) eq_refl eq_refl eq_refl eq_refl).
  destruct H as [msg Hmsg]. discriminate Hmsg.
Qed.

(** *** States and results *)

Lemma elem_of_alter {A} (f : A → A) (l : list A) (i : nat) y :
  y ∈ alter f i l → y ∈ l ∨ ∃ x, l !! i = Some x ∧ y = f x.
Proof.
  intros [j Hj]%list_elem_of_lookup. destruct (decide (i = j)) as [->|Hne].
  - rewrite list_lookup_alter_eq in Hj. right.
    destruct (l !! j) as [x|] eqn:Hx; simplify_eq/=. eauto.
  - rewrite list_lookup_alter_ne in Hj by done. left.
    by eapply list_elem_of_lookup_2.
Qed.

Lemma find_lookup s u i td :
  find u (_flowdetail s) = Some (i, td) →
  taskdetails (_flowdetail s) !! i = Some td ∧ uuid td = u.
Proof. by intros (? & ? & _)%list_find_Some. Qed.

Lemma run_ops_snoc ops o s : run_ops (ops ++ [o]) s = (run_op o (run_ops ops s)).2.
Proof. unfold run_ops. by rewrite foldl_app. Qed.

Lemma run_op_backend o s :
  no_peer_writes (_backend s) → _backend (run_op o s).2 = _backend s.
Proof.
  intros Hq.
  assert (∀ (c : nat * TaskDetail → M Storage.Storage unit) u,
            find u (_flowdetail s) = None →
            _backend ((_taskdetail_by_uuid u ≫= c) s).2 = _backend s) as Hunknown.
  { intros c u Hf. by rewrite unknown_uuid_raises. }
  destruct o as [u n|u st|u progress kwargs|u data st|u st|u pairs|u mapping|st]; simpl.
  - by rewrite add_task_quiet.
  - destruct (find u (_flowdetail s)) as [[i td]|] eqn:Hf; [|by apply Hunknown].
    by rewrite (set_task_state_quiet _ _ _ _ _ Hq Hf).
  - destruct (find u (_flowdetail s)) as [[i td]|] eqn:Hf; [|by apply Hunknown].
    by destruct (set_task_progress_quiet u progress kwargs _ _ _ Hq Hf) as [m ->].
  - destruct (find u (_flowdetail s)) as [[i td]|] eqn:Hf; [|by apply Hunknown].
    rewrite (save_quiet _ _ _ _ _ _ Hq Hf). simpl. by destruct (is_Failure data).
  - destruct (find u (_flowdetail s)) as [[i td]|] eqn:Hf; [|by apply Hunknown].
    by rewrite (reset_quiet _ _ _ _ _ Hq Hf).
  - unfold inject, mbind, M_bind, bind. rewrite add_task_quiet by done.
    set (s1 := set_flowdetail (fd_add (new_detail u injector_name)) s).
    destruct (find u (_flowdetail s1)) as [[i td]|] eqn:Hf.
    + rewrite (save_quiet _ _ _ s1 _ _ Hq Hf). simpl.
      by rewrite (append_entries_cases (λ nm, nm) (λ nm, (u, Some (KStr nm)))).
    + unfold save. by rewrite unknown_uuid_raises.
  - unfold set_result_mapping. case_decide; simpl; [done |].
    unfold mbind, M_bind, bind, modify.
    by rewrite (append_entries_cases (λ ni : string * Index, ni.1) (λ ni, (u, ni.2))).
  - unfold set_flow_state, mbind, M_bind, bind, modify.
    by rewrite save_flow_detail_quiet.
Qed.

Lemma assigned_snoc ops o td td' :
  assigned ops td → uuid td' = uuid td → results td' = results td →
  assigned (ops ++ [o]) td'.
Proof.
  unfold assigned. intros [[st H]|(pairs & H & Hres)] -> ->.
  - left. exists st. apply elem_of_app. by left.
  - right. exists pairs. split; [|done]. apply elem_of_app. by left.
Qed.

(** What one call can do to a task detail: leave its uuid and results,
    with its state or with a state the call forced; make or leave one
    without results; or store results, as [save] and [inject] do. *)
Lemma run_op_details o s td' :
  no_peer_writes (_backend s) →
  td' ∈ taskdetails (_flowdetail (run_op o s).2) →
  (∃ td, td ∈ taskdetails (_flowdetail s) ∧
     uuid td' = uuid td ∧ results td' = results td ∧
     (state td' = state td ∨
      (has_results (state td') = true → forces_results_state (uuid td') o))) ∨
  (results td' = VNone ∧
   (has_results (state td') = true → forces_results_state (uuid td') o)) ∨
  (∃ st, o = OpSave (uuid td') (results td') st) ∨
  (∃ pairs, o = OpInject (uuid td') pairs ∧ results td' = VDict pairs).
Proof.
  intros Hq.
  assert (∀ td, td ∈ taskdetails (_flowdetail s) → td' = td →
            ∃ td, td ∈ taskdetails (_flowdetail s) ∧
              uuid td' = uuid td ∧ results td' = results td ∧
              (state td' = state td ∨
               (has_results (state td') = true → forces_results_state (uuid td') o)))
    as Hsame.
  { intros td Hin ->. exists td. auto. }
  assert (∀ (c : nat * TaskDetail → M Storage.Storage unit) u,
            find u (_flowdetail s) = None →
            td' ∈ taskdetails (_flowdetail ((_taskdetail_by_uuid u ≫= c) s).2) →
            td' ∈ taskdetails (_flowdetail s)) as Hunknown.
  { intros c u Hf. by rewrite unknown_uuid_raises. }
  destruct o as [u n|u st|u progress kwargs|u data st|u st|u pairs|u mapping|st]; simpl.
  - rewrite add_task_quiet by done. simpl.
    intros [Hin|Heq%list_elem_of_singleton]%elem_of_app; [left; eauto |].
    subst. right; left. by split.
  - destruct (find u (_flowdetail s)) as [[i td]|] eqn:Hf;
      [|intros Hin%Hunknown; [left; eauto | done]].
    rewrite (set_task_state_quiet _ _ _ _ _ Hq Hf). simpl.
    intros [Hin|(x & Hx & ->)]%elem_of_alter; [left; eauto |].
    destruct (find_lookup _ _ _ _ Hf) as [Hi Hu]. rewrite Hi in Hx. injection Hx as <-.
    left. exists td. split; [by eapply list_elem_of_lookup_2 |].
    split; [done |]. split; [done |]. right. simpl. by intros ->.
  - destruct (find u (_flowdetail s)) as [[i td]|] eqn:Hf;
      [|intros Hin%Hunknown; [left; eauto | done]].
    destruct (set_task_progress_quiet u progress kwargs _ _ _ Hq Hf) as [m ->]. simpl.
    intros [Hin|(x & Hx%list_elem_of_lookup_2 & ->)]%elem_of_alter; [left; eauto |].
    left. exists x. auto.
  - destruct (find u (_flowdetail s)) as [[i td]|] eqn:Hf;
      [|intros Hin%Hunknown; [left; eauto | done]].
    rewrite (save_quiet _ _ _ _ _ _ Hq Hf).
    assert (td' ∈ taskdetails (_flowdetail (set_taskdetail i (stored data st) s)) →
            td' ∈ taskdetails (_flowdetail s) ∨
            (∃ st0, OpSave u data st = OpSave (uuid td') (results td') st0)) as Hstep.
    { simpl. intros [Hin|(x & Hx & ->)]%elem_of_alter; [by left |].
      right. exists st. simpl. f_equal.
      destruct (find_lookup _ _ _ _ Hf) as [Hi Hu]. congruence. }
    simpl. destruct (is_Failure data); simpl; intros [?|?]%Hstep; eauto.
  - destruct (find u (_flowdetail s)) as [[i td]|] eqn:Hf;
      [|intros Hin%Hunknown; [left; eauto | done]].
    rewrite (reset_quiet _ _ _ _ _ Hq Hf). simpl.
    intros [Hin|(x & Hx & ->)]%elem_of_alter; [left; eauto |].
    destruct (find_lookup _ _ _ _ Hf) as [Hi Hu]. rewrite Hi in Hx. injection Hx as <-.
    right; left. split; [done |]. simpl. by intros ->.
  - unfold inject, mbind, M_bind, bind. rewrite add_task_quiet by done.
    set (s1 := set_flowdetail (fd_add (new_detail u injector_name)) s).
    assert (∃ i td, find u (_flowdetail s1) = Some (i, td)) as (i & td & Hf).
    { destruct (find u (_flowdetail s1)) as [[i td]|] eqn:Hf; [eauto |].
      apply list_find_None, Forall_app in Hf as [_ Hf].
      apply Forall_cons in Hf as [Hne _]. by destruct Hne. }
    rewrite (save_quiet _ _ _ s1 _ _ Hq Hf). simpl.
    rewrite (append_entries_cases (λ nm, nm) (λ nm, (u, Some (KStr nm)))). simpl.
    intros [[Hin|Heq%list_elem_of_singleton]%elem_of_app|(x & Hx & ->)]%elem_of_alter.
    + left; eauto.
    + subst. right; left. by split.
    + right; right; right. exists pairs. simpl.
      destruct (find_lookup _ _ _ _ Hf) as [Hi Hu]. split; [|done].
      f_equal. simpl in Hi. congruence.
  - unfold set_result_mapping. case_decide; simpl; [left; eauto |].
    unfold mbind, M_bind, bind, modify.
    rewrite (append_entries_cases (λ ni : string * Index, ni.1) (λ ni, (u, ni.2))).
    simpl. left; eauto.
  - unfold set_flow_state, mbind, M_bind, bind, modify.
    rewrite save_flow_detail_quiet by done. simpl. left; eauto.
Qed.

Lemma run_ops_backend backend ops :
  no_peer_writes backend → _backend (run_ops ops (init empty_flow_detail backend)) = backend.
Proof.
  intros Hq. induction ops as [|o ops IH] using rev_ind; [done |].
  rewrite run_ops_snoc, run_op_backend; [done |]. by rewrite IH.
Qed.

(** The invariant behind C6. *)
Lemma results_invariant backend ops td :
  no_peer_writes backend →
  td ∈ taskdetails (_flowdetail (run_ops ops (init empty_flow_detail backend))) →
  (results td = VNone ∨ assigned ops td) ∧
  (has_results (state td) = true →
   assigned ops td ∨ ∃ o, o ∈ ops ∧ forces_results_state (uuid td) o).
Proof.
  intros Hq. revert td.
  induction ops as [|o ops IH] using rev_ind; intros td Hin.
  - by apply elem_of_nil in Hin.
  - rewrite run_ops_snoc in Hin.
    set (s := run_ops ops (init empty_flow_detail backend)) in *.
    assert (no_peer_writes (_backend s)) as Hqs by (subst s; by rewrite run_ops_backend).
    assert (o ∈ ops ++ [o]) as Ho by (apply elem_of_app; right; by left).
    destruct (run_op_details o s td Hqs Hin)
      as [(td0 & Hin0 & Hu & Hr & Hs)|[[Hr Hs]|[[st Hst]|(pairs & Hp & Hres)]]].
    + destruct (IH td0 Hin0) as [Hres Hstate].
      assert (assigned ops td0 → assigned (ops ++ [o]) td) as Hkeep
        by (intros ?; by apply (assigned_snoc ops o td0)).
      split; [destruct Hres as [?|?]; [left; congruence | right; auto] |].
      intros Hhas. destruct Hs as [Hs|Hs]; [| right; exists o; auto].
      rewrite Hs in Hhas. destruct (Hstate Hhas) as [?|(o' & Ho' & Hf)]; [left; auto |].
      right. exists o'. split; [apply elem_of_app; by left | by rewrite Hu].
    + split; [by left |]. intros Hhas. right. exists o. auto.
    + assert (assigned (ops ++ [o]) td) by (left; exists st; by rewrite <- Hst).
      split; [by right | by left].
    + assert (assigned (ops ++ [o]) td)
        by (right; exists pairs; split; [by rewrite <- Hp | done]).
      split; [by right | by left].
Qed.

(** C6, as the code has it.  Run any sequence of calls on a new storage,
    without peer writes.  The results of every task detail are [None] or
    were stored for that uuid by a [save] of the sequence, or by its
    [inject].  So a task detail whose state is [SUCCESS], [REVERTING] or
    [FAILURE] holds results that were assigned, or holds [None], and then
    a [set_task_state] or a [reset] of the sequence was given such a
    state for that uuid. *)
Theorem results_assigned_or_state_forced backend ops td :
  no_peer_writes backend →
  td ∈ taskdetails (_flowdetail (run_ops ops (init empty_flow_detail backend))) →
  (results td = VNone ∨ assigned ops td) ∧
  (has_results (state td) = true →
   assigned ops td ∨
   (results td = VNone ∧ ∃ o, o ∈ ops ∧ forces_results_state (uuid td) o)).
Proof.
  intros Hq Hin. destruct (results_invariant backend ops td Hq Hin) as [Hres Hstate].
  split; [done |]. intros Hhas.
  destruct (Hstate Hhas) as [?|Hforced]; [by left |].
  destruct Hres as [?|?]; [by right | by left].
Qed.

Lemma results_assigned_or_state_forced_witness :
  let ops := [OpAddTask "u" "t"; OpSave "u" (VInt 1) SUCCESS;
              OpSetTaskState "u" REVERTING] in
  let td := {| uuid := "u"; name := "t"; state := REVERTING; results := VInt 1;
               meta := None |} in
  assigned ops td.
Proof.
  intros ops td.
  destruct (results_assigned_or_state_forced None ops td I) as [[Hnone|Ha] _].
  - by left.
  - discriminate Hnone.
  - exact Ha.
Defined.

(** C6, as stated: [set_task_state] puts a new task into [SUCCESS] and no
    result was ever stored for it. *)
Lemma results_not_always_assigned : ¬ results_always_assigned.
Proof.
  intros H.
  destruct (H [OpAddTask "u" "t"; OpSetTaskState "u" SUCCESS]
              {| uuid := "u"; name := "t"; state := SUCCESS; results := VNone;
                 meta := None |}) as [[st Hst]|(pairs & Hin & Hres)].
  - by left.
  - done.
  - by repeat (apply elem_of_cons in Hst as [Hst|Hst]; [discriminate Hst |]);
      apply elem_of_nil in Hst.
  - discriminate Hres.
Qed.

(** ** More of the storage *)

(** *** Uuids the storage does not know *)

Lemma task_None_find s u : task s u = None → find u (_flowdetail s) = None.
Proof. unfold task. by destruct (find u (_flowdetail s)). Qed.

Lemma get_task_state_cases u s :
  get_task_state u s =
  match task s u with
  | None => (Raised (NotFound (UnknownTask u)), s)
  | Some td => (Returned (state td), s)
  end.
Proof.
  unfold get_task_state, task, mbind, M_bind, bind.
  rewrite taskdetail_by_uuid_cases. by destruct (find u (_flowdetail s)) as [[i td]|].
Qed.

Lemma get_task_progress_cases u s :
  get_task_progress u s =
  match task s u with
  | None => (Raised (NotFound (UnknownTask u)), s)
  | Some td => (Returned (default (VFloat 0) (meta td ≫= (.!! "progress"%string))), s)
  end.
Proof.
  unfold get_task_progress, task, mbind at 1, M_bind, bind.
  rewrite taskdetail_by_uuid_cases. by destruct (find u (_flowdetail s)) as [[i td]|].
Qed.

Lemma get_task_progress_details_cases u s :
  get_task_progress_details u s =
  match task s u with
  | None => (Raised (NotFound (UnknownTask u)), s)
  | Some td =>
      (Returned (default VNone (meta td ≫= (.!! "progress_details"%string))), s)
  end.
Proof.
  unfold get_task_progress_details, task, mbind at 1, M_bind, bind.
  rewrite taskdetail_by_uuid_cases. by destruct (find u (_flowdetail s)) as [[i td]|].
Qed.

(** X9.  For a uuid the storage does not know, every call that takes a
    uuid raises [NotFound] for the unknown task and leaves the storage as
    it was, with or without a backend: nothing is written or persisted
    before the lookup. *)
Theorem unknown_uuid_raises_NotFound s u :
  task s u = None →
  let unknown {A} : outcome A * Storage.Storage :=
    (Raised (NotFound (UnknownTask u)), s) in
  get u s = unknown ∧ get_task_state u s = unknown ∧
  get_task_progress u s = unknown ∧ get_task_progress_details u s = unknown ∧
  (∀ st, set_task_state u st s = unknown) ∧
  (∀ progress kwargs, set_task_progress u progress kwargs s = unknown) ∧
  (∀ data st, save u data st s = unknown) ∧
  (∀ st, reset u st s = unknown).
Proof.
  intros Hu unknown. pose proof (task_None_find s u Hu) as Hf. subst unknown.
  rewrite get_cases, get_task_state_cases, get_task_progress_cases,
    get_task_progress_details_cases, Hu.
  repeat split; intros; by apply unknown_uuid_raises.
Qed.

Lemma unknown_uuid_raises_NotFound_witness :
  save "u" (VInt 1) SUCCESS (init empty_flow_detail None) =
  (Raised (NotFound (UnknownTask "u")), init empty_flow_detail None).
Proof.
  apply (unknown_uuid_raises_NotFound (init empty_flow_detail None) "u" eq_refl).
Defined.

(** *** New tasks *)

Lemma get_uuid_by_name_cases n s :
  get_uuid_by_name n s =
  match find_by_name n (_flowdetail s) with
  | Some (_, td) => (Returned (uuid td), s)
  | None => (Raised (NotFound (UnknownTaskName n)), s)
  end.
Proof.
  unfold get_uuid_by_name, mbind, M_bind, bind, get_state.
  by destruct (find_by_name n (_flowdetail s)) as [[i td]|].
Qed.

(** X10.  [add_task] for a uuid the storage does not know, without peer
    writes, returns; afterwards the task is in state [PENDING], [get]
    raises [NotFound] because there is no result yet, its progress reads
    0.0 with no details, the other uuids read as before, and when no
    earlier task has that name [get_uuid_by_name] gives the uuid back. *)
Theorem add_task_registers_pending_task s u n :
  no_peer_writes (_backend s) → task s u = None →
  let s' := (add_task u n s).2 in
  (add_task u n s).1 = Returned tt ∧
  get_task_state u s' = (Returned PENDING, s') ∧
  get u s' = (Raised (NotFound (ResultNotKnown u)), s') ∧
  get_task_progress u s' = (Returned (VFloat 0), s') ∧
  get_task_progress_details u s' = (Returned VNone, s') ∧
  (∀ u', u' ≠ u → task s' u' = task s u') ∧
  (find_by_name n (_flowdetail s) = None → get_uuid_by_name n s' = (Returned u, s')) ∧
  _reverse_mapping s' = _reverse_mapping s.
Proof.
  intros Hq Hu s'. subst s'. rewrite add_task_quiet by done. simpl.
  assert (task (set_flowdetail (fd_add (new_detail u n)) s) u = Some (new_detail u n)) as Ht.
  { rewrite task_add, Hu. simpl. by rewrite decide_True. }
  rewrite get_task_state_cases, get_cases, get_task_progress_cases,
    get_task_progress_details_cases, Ht. simpl.
  repeat split.
  - intros u' Hu'. rewrite task_add. destruct (task s u'); [done |].
    simpl. by rewrite decide_False.
  - intros Hn. rewrite get_uuid_by_name_cases. unfold find_by_name in *. simpl.
    rewrite list_find_app_r by done. simpl. by rewrite decide_True.
Qed.

Lemma add_task_registers_pending_task_witness :
  let s' := (add_task "u" "t" (init empty_flow_detail None)).2 in
  get_task_state "u" s' = (Returned PENDING, s') ∧
  get_uuid_by_name "t" s' = (Returned "u"%string, s').
Proof.
  destruct (add_task_registers_pending_task (init empty_flow_detail None) "u" "t" I eq_refl)
    as (_ & Hst & _ & _ & _ & _ & Hname & _).
  split; [exact Hst | by apply Hname].
Defined.

(** X11.  [add_task] does not check for a uuid or a name already in use:
    it returns, but what is read for a uuid the storage knew is what was
    read before, also for the uuid just added again, and
    [get_uuid_by_name] of a name in use still gives the earlier task. *)
Theorem add_task_is_shadowed_by_known_task s u n u' td :
  no_peer_writes (_backend s) → task s u' = Some td →
  let s' := (add_task u n s).2 in
  (add_task u n s).1 = Returned tt ∧ task s' u' = Some td ∧
  (∀ i td0, find_by_name n (_flowdetail s) = Some (i, td0) →
            get_uuid_by_name n s' = (Returned (uuid td0), s')).
Proof.
  intros Hq Hu' s'. subst s'. rewrite add_task_quiet by done. simpl.
  split; [done |]. split; [by rewrite task_add, Hu' |].
  intros i td0 Hf. rewrite get_uuid_by_name_cases. unfold find_by_name in *. simpl.
  by rewrite (list_find_app_l _ _ _ _ _ Hf).
Qed.

Lemma add_task_is_shadowed_by_known_task_witness :
  task (add_task "u" "other" saved_storage).2 "u" =
  Some {| uuid := "u"; name := "t"; state := SUCCESS; results := VList [VInt 42];
          meta := None |}.
Proof.
  by apply (add_task_is_shadowed_by_known_task saved_storage "u" "other" "u" _ I eq_refl).
Defined.

(** *** States, progress, results *)

Lemma set_taskdetail_twice i f s :
  (∀ td, f (f td) = f td) → set_taskdetail i f (set_taskdetail i f s) = set_taskdetail i f s.
Proof.
  intros Hf. unfold set_taskdetail, set_flowdetail. simpl. do 2 f_equal.
  rewrite list_alter_alter_eq. apply list_alter_ext; [|done]. intros td _. apply Hf.
Qed.

Lemma find_set_taskdetail s u i td f :
  find u (_flowdetail s) = Some (i, td) → (∀ x, uuid (f x) = uuid x) →
  find u (_flowdetail (set_taskdetail i f s)) = Some (i, f td).
Proof.
  intros Hf Huuid. unfold find, set_taskdetail, set_flowdetail. simpl.
  apply (list_find_alter_found _ f _ i td); [done |].
  rewrite Huuid. by eapply find_uuid.
Qed.

(** X12.  [set_task_state] for a known uuid, without peer writes: the
    state reads back through [get_task_state], results and the other
    tasks are untouched, and the same call made again changes nothing. *)
Theorem set_task_state_reads_back s u td st :
  no_peer_writes (_backend s) → task s u = Some td →
  let s' := (set_task_state u st s).2 in
  (set_task_state u st s).1 = Returned tt ∧
  get_task_state u s' = (Returned st, s') ∧
  task s' u = Some (with_state st td) ∧
  (∀ u', u' ≠ u → task s' u' = task s u') ∧
  set_task_state u st s' = (Returned tt, s').
Proof.
  intros Hq [i Hf]%task_find s'. subst s'.
  rewrite (set_task_state_quiet _ _ _ _ _ Hq Hf). simpl.
  assert (task (set_taskdetail i (with_state st) s) u = Some (with_state st td)) as Ht.
  { rewrite (task_set_taskdetail s u _ _ _ u Hf) by done. by rewrite decide_True. }
  split; [done |]. split; [by rewrite get_task_state_cases, Ht |]. split; [done |]. split.
  - intros u' Hu'. rewrite (task_set_taskdetail s u _ _ _ u' Hf) by done.
    by rewrite decide_False.
  - rewrite (set_task_state_quiet u st _ i (with_state st td)); [| done |].
    + by rewrite set_taskdetail_twice.
    + by apply find_set_taskdetail.
Qed.

Lemma set_task_state_reads_back_witness :
  let s' := (set_task_state "u" RUNNING saved_storage).2 in
  get_task_state "u" s' = (Returned RUNNING, s') ∧
  set_task_state "u" RUNNING s' = (Returned tt, s').
Proof.
  destruct (set_task_state_reads_back saved_storage "u" _ RUNNING I eq_refl)
    as (_ & Hget & _ & _ & Hagain).
  split; [exact Hget | exact Hagain].
Defined.

Lemma set_task_progress_exact u progress kwargs s i td :
  no_peer_writes (_backend s) → find u (_flowdetail s) = Some (i, td) →
  set_task_progress u progress kwargs s =
  (Returned tt,
   set_taskdetail i (with_meta (Some (progress_meta (meta td) progress kwargs))) s).
Proof.
  intros Hq Hf. unfold set_task_progress, mbind, M_bind, bind, modify.
  rewrite taskdetail_by_uuid_cases, Hf. simpl. by rewrite save_task_detail_quiet.
Qed.

(** X13.  [set_task_progress] for a known uuid, without peer writes: the
    progress reads back through [get_task_progress]; the details read
    back as the keyword arguments when there are some and as [None] when
    there are none, whatever details an earlier call had stored; state
    and results are untouched. *)
Theorem set_task_progress_reads_back s u td progress kwargs :
  no_peer_writes (_backend s) → task s u = Some td →
  let s' := (set_task_progress u progress kwargs s).2 in
  (set_task_progress u progress kwargs s).1 = Returned tt ∧
  get_task_progress u s' = (Returned progress, s') ∧
  get_task_progress_details u s' =
    (Returned (if decide (kwargs = ∅) then VNone else VDict kwargs), s') ∧
  get_task_state u s' = (Returned (state td), s') ∧
  (∀ td', task s' u = Some td' → results td' = results td).
Proof.
  intros Hq [i Hf]%task_find s'. subst s'.
  rewrite (set_task_progress_exact _ _ _ _ _ _ Hq Hf). simpl.
  set (m := progress_meta (meta td) progress kwargs).
  assert (task (set_taskdetail i (with_meta (Some m)) s) u = Some (with_meta (Some m) td))
    as Ht.
  { rewrite (task_set_taskdetail s u _ _ _ u Hf) by done. by rewrite decide_True. }
  rewrite get_task_progress_cases, get_task_progress_details_cases, get_task_state_cases, Ht.
  simpl. split; [done |].
  assert (m !! "progress"%string = Some progress) as Hp.
  { unfold m, progress_meta. case_decide.
    - rewrite lookup_delete_ne by done. apply lookup_insert_eq.
    - rewrite lookup_insert_ne by done. apply lookup_insert_eq. }
  assert (m !! "progress_details"%string =
          if decide (kwargs = ∅) then None else Some (VDict kwargs)) as Hd.
  { unfold m, progress_meta. case_decide.
    - apply lookup_delete_eq.
    - apply lookup_insert_eq. }
  rewrite Hp, Hd. simpl. split; [done |]. split; [by case_decide |]. split; [done |].
  by intros td' [= <-].
Qed.

Lemma set_task_progress_reads_back_witness :
  let s1 := (set_task_progress "u" (VFloat 0.5) {["step" := VInt 3]} saved_storage).2 in
  let s2 := (set_task_progress "u" (VFloat 1) ∅ s1).2 in
  get_task_progress_details "u" s1 = (Returned (VDict {["step" := VInt 3]}), s1) ∧
  get_task_progress "u" s2 = (Returned (VFloat 1), s2) ∧
  get_task_progress_details "u" s2 = (Returned VNone, s2).
Proof.
  intros s1 s2.
  destruct (set_task_progress_reads_back saved_storage "u" _ (VFloat 0.5)
              {["step" := VInt 3]} I eq_refl) as (_ & _ & Hd1 & _).
  destruct (set_task_progress_reads_back s1 "u" _ (VFloat 1) ∅ I eq_refl)
    as (_ & Hp2 & Hd2 & _).
  split; [exact Hd1 |]. split; [exact Hp2 | exact Hd2].
Defined.

Lemma save_any u data st s td :
  no_peer_writes (_backend s) → task s u = Some td →
  ∃ s', save u data st s = (Returned tt, s') ∧
    _backend s' = _backend s ∧
    _reverse_mapping s' = _reverse_mapping s ∧
    _result_mappings s' = _result_mappings s ∧
    LOG s' = (if is_Failure data then LOG s
              else LOG s ++ missing_results (name td) data
                              (default ∅ (_result_mappings s !! u))) ∧
    task s' u = Some (stored data st td) ∧
    (∀ u', u' ≠ u → task s' u' = task s u').
Proof.
  intros Hq [i Hf]%task_find. rewrite (save_quiet _ _ _ _ _ _ Hq Hf).
  eexists. split; [done |]. simpl.
  assert (∀ u', task (if is_Failure data then set_taskdetail i (stored data st) s
                      else logged (missing_results (name td) data
                                     (default ∅ (_result_mappings s !! u)))
                             (set_taskdetail i (stored data st) s)) u' =
                task (set_taskdetail i (stored data st) s) u') as Ht
    by (intros; by destruct (is_Failure data)).
  repeat split; try by destruct (is_Failure data).
  - rewrite Ht, (task_set_taskdetail s u _ _ _ u Hf) by done. by rewrite decide_True.
  - intros u' Hu'. rewrite Ht, (task_set_taskdetail s u _ _ _ u' Hf) by done.
    by rewrite decide_False.
Qed.

(** X14.  [save] for a known uuid, without peer writes, returns whatever
    the data is.  [get] then returns the data, a [Failure] included, when
    the state saved is [SUCCESS], [REVERTING] or [FAILURE], and raises
    [NotFound] for any other state.  Saving a [Failure] writes nothing to
    the log, whatever the result mapping of the task; names stay
    registered as they were and other tasks are untouched. *)
Theorem save_then_get s u td data st :
  no_peer_writes (_backend s) → task s u = Some td →
  let s' := (save u data st s).2 in
  (save u data st s).1 = Returned tt ∧
  get u s' = (if has_results st then (Returned data, s')
              else (Raised (NotFound (ResultNotKnown u)), s')) ∧
  (is_Failure data = true → LOG s' = LOG s) ∧
  _reverse_mapping s' = _reverse_mapping s ∧
  (∀ u', u' ≠ u → task s' u' = task s u').
Proof.
  intros Hq Ht s'. subst s'.
  destruct (save_any u data st s td Hq Ht) as (s' & -> & _ & Hrm & _ & Hlog & Hu & Ho).
  simpl. split; [done |]. split; [by rewrite get_cases, Hu |].
  split; [intros Hf; by rewrite Hlog, Hf | done].
Qed.

Lemma save_then_get_witness :
  let s' := (save "u" (VFailure "boom") REVERTING mapped_storage).2 in
  get "u" s' = (Returned (VFailure "boom"), s') ∧ LOG s' = [].
Proof.
  destruct (save_then_get mapped_storage "u" _ (VFailure "boom") REVERTING I eq_refl)
    as (_ & Hget & Hlog & _).
  split; [exact Hget | by apply Hlog].
Defined.

(** X15.  [reset] for a known uuid, without peer writes, returns and
    clears the results.  With a state other than [SUCCESS], [REVERTING],
    [FAILURE] (the default is [PENDING]), [get] then raises [NotFound]
    and no name yields a value through this task; with one of these
    states [get] returns [None].  The names registered for the task stay
    registered. *)
Theorem reset_clears_results s u td st :
  no_peer_writes (_backend s) → task s u = Some td →
  let s' := (reset u st s).2 in
  (reset u st s).1 = Returned tt ∧
  task s' u = Some (with_state st (with_results VNone td)) ∧
  get u s' = (if has_results st then (Returned VNone, s')
              else (Raised (NotFound (ResultNotKnown u)), s')) ∧
  (has_results st = false → ∀ index, yields s' (u, index) = None) ∧
  _reverse_mapping s' = _reverse_mapping s ∧
  (∀ u', u' ≠ u → task s' u' = task s u').
Proof.
  intros Hq Ht s'. subst s'.
  destruct (reset_known u st s td Hq Ht) as (s' & -> & Hrm & Hu & Ho). simpl.
  split; [done |]. split; [done |]. split; [by rewrite get_cases, Hu |].
  split; [|done]. intros Hst index. unfold yields. simpl. rewrite Hu. simpl.
  by rewrite Hst.
Qed.

Lemma reset_clears_results_witness :
  let s' := (reset "u" PENDING saved_storage).2 in
  get "u" s' = (Raised (NotFound (ResultNotKnown "u")), s') ∧
  yields s' ("u"%string, Some (KInt 0)) = None.
Proof.
  destruct (reset_clears_results saved_storage "u" _ PENDING I eq_refl)
    as (_ & _ & Hget & Hy & _).
  split; [exact Hget | by apply Hy].
Defined.

(** *** Names and the entries registered for them *)

(** X16.  [set_result_mapping] never raises and does not look the uuid
    up.  An empty mapping changes nothing.  Any other mapping replaces
    the result mapping recorded for the uuid and appends, for every name
    of the mapping, one entry after those already registered for that
    name; entries registered earlier, also by an earlier mapping of the
    same uuid, stay.  Task details and the log are untouched. *)
Theorem set_result_mapping_appends_entries s u (mapping : gmap string Index) :
  let s' := (set_result_mapping u mapping s).2 in
  (set_result_mapping u mapping s).1 = Returned tt ∧
  (mapping = ∅ → s' = s) ∧
  (mapping ≠ ∅ → _result_mappings s' = <[u := mapping]> (_result_mappings s)) ∧
  (∀ n, _reverse_mapping s' !! n =
        match mapping !! n with
        | Some index => Some (default [] (_reverse_mapping s !! n) ++ [(u, index)])
        | None => _reverse_mapping s !! n
        end) ∧
  _flowdetail s' = _flowdetail s ∧ LOG s' = LOG s.
Proof.
  intros s'. subst s'. unfold set_result_mapping. case_decide as Hm.
  - subst mapping. simpl. repeat split; done.
  - unfold mbind, M_bind, bind, modify.
    rewrite (append_entries_cases fst (λ ni : string * Index, (u, ni.2))). simpl.
    repeat split; try done. intros n.
    destruct (mapping !! n) as [index|] eqn:Hn.
    + apply (lookup_appended fst (λ ni : string * Index, (u, ni.2)) _ _ (n, index)).
      * apply NoDup_fst_map_to_list.
      * by apply elem_of_map_to_list.
    + apply lookup_appended_other. intros [n' index'] Hin%elem_of_map_to_list.
      simpl. congruence.
Qed.

Lemma registered_set_flowdetail n l f s :
  registered n l s → registered n l (set_flowdetail f s).
Proof. done. Qed.

Lemma registered_append n l name entry s :
  registered n l s →
  registered n l
    (set_reverse_mapping (λ rm, <[name := default [] (rm !! name) ++ [entry]]> rm) s).
Proof.
  intros [l' Hl]. unfold registered. simpl. destruct (decide (name = n)) as [->|Hne].
  - exists (l' ++ [entry]). rewrite lookup_insert_eq, Hl. simpl. by rewrite app_assoc.
  - exists l'. by rewrite lookup_insert_ne.
Qed.

Lemma stable_with_connection (I : Storage.Storage → Prop) functor :
  (∀ conn, stable I (functor conn)) → stable I (_with_connection functor).
Proof.
  intros Hf. unfold _with_connection. apply stable_get. intros s0.
  destruct (_backend s0); [apply Hf | apply stable_ret].
Qed.

Lemma registered_save_flow_detail n l :
  stable (registered n l) (_with_connection _save_flow_detail).
Proof. apply stable_with_connection. intros conn. by apply stable_modify. Qed.

Lemma registered_save_task_detail n l i :
  stable (registered n l) (_with_connection (_save_task_detail i)).
Proof. apply stable_with_connection. intros conn. by apply stable_modify. Qed.

Lemma registered_taskdetail_by_uuid n l u :
  stable (registered n l) (_taskdetail_by_uuid u).
Proof.
  unfold _taskdetail_by_uuid. apply stable_get. intros s0.
  destruct (find u (_flowdetail s0)); [apply stable_ret | apply stable_raise].
Qed.

Lemma registered_add_task n l u nm : stable (registered n l) (add_task u nm).
Proof.
  unfold add_task. apply stable_get. intros s0.
  apply stable_bind; [by apply stable_modify | intros _].
  apply stable_get. intros s1.
  apply stable_bind; [apply registered_save_flow_detail | intros _].
  apply stable_with_connection. intros conn.
  destruct (same_object conn _ _); [by apply stable_modify | apply stable_ret].
Qed.

Lemma registered_check n l u nm data :
  stable (registered n l) (_check_all_results_provided u nm data).
Proof.
  unfold _check_all_results_provided. apply stable_get. intros s0.
  destruct (_result_mappings s0 !! u); [| apply stable_ret].
  apply stable_for_each. intros ni _. apply stable_try.
  - apply stable_bind; [| intros; apply stable_ret].
    unfold _item_from_result. destruct ni.2; [| apply stable_ret].
    destruct (getitem data k); [apply stable_ret | apply stable_raise].
  - intros [| |msg]; try apply stable_raise. by apply stable_modify.
Qed.

Lemma registered_save n l u data st : stable (registered n l) (save u data st).
Proof.
  unfold save. apply stable_bind; [apply registered_taskdetail_by_uuid | intros td].
  apply stable_bind; [by apply stable_modify | intros _].
  apply stable_bind; [apply registered_save_task_detail | intros _].
  destruct (negb (is_Failure data)); [apply registered_check | apply stable_ret].
Qed.

Lemma registered_append_entries {A} n l (k : A → string) (e : A → string * Index) xs :
  stable (registered n l) (for_each (λ a, append_entry (k a) (e a)) xs).
Proof.
  apply stable_for_each. intros a _. apply stable_modify. intros s.
  apply registered_append.
Qed.

Lemma registered_run_op n l o : stable (registered n l) (run_op o).
Proof.
  destruct o as [u nm|u st|u progress kwargs|u data st|u st|u pairs|u mapping|st]; simpl.
  - apply registered_add_task.
  - unfold set_task_state.
    apply stable_bind; [apply registered_taskdetail_by_uuid | intros td].
    apply stable_bind; [by apply stable_modify | intros _].
    apply registered_save_task_detail.
  - unfold set_task_progress.
    apply stable_bind; [apply registered_taskdetail_by_uuid | intros td].
    apply stable_bind; [by apply stable_modify | intros _].
    apply registered_save_task_detail.
  - apply registered_save.
  - unfold reset.
    apply stable_bind; [apply registered_taskdetail_by_uuid | intros td].
    apply stable_bind; [by apply stable_modify | intros _].
    apply registered_save_task_detail.
  - unfold inject.
    apply stable_bind; [apply registered_add_task | intros _].
    apply stable_bind; [apply registered_save | intros _].
    apply (registered_append_entries n l (λ nm, nm) (λ nm, (u, Some (KStr nm)))).
  - unfold set_result_mapping. case_decide; [apply stable_ret |].
    apply stable_bind; [by apply stable_modify | intros _].
    apply (registered_append_entries n l fst (λ ni : string * Index, (u, ni.2))).
  - unfold set_flow_state.
    apply stable_bind; [by apply stable_modify | intros _].
    apply registered_save_flow_detail.
Qed.

(** X17.  Entries are only ever appended: the entries registered for a
    name stay registered, in the same order and ahead of every later
    entry, through any sequence of calls, whether the calls return or
    raise and whatever the backend answers. *)
Theorem registered_entries_stay_first ops s n l :
  registered n l s → registered n l (run_ops ops s).
Proof.
  revert s. induction ops as [|o ops IH]; intros s Hs; [done |].
  simpl. apply IH. pose proof (registered_run_op n l o s Hs) as Ho.
  by destruct (run_op o s) as [[[]|e] s'].
Qed.

Lemma registered_entries_stay_first_witness :
  registered "a" [("u"%string, Some (KInt 0))]
    (run_ops [OpSetResultMapping "v" {["a" := None]}; OpReset "w" PENDING] mapped_storage).
Proof.
  apply registered_entries_stay_first. exists []. reflexivity.
Defined.

(** *** Tasks are never removed or renamed *)

Lemma inject_known u pairs s td :
  no_peer_writes (_backend s) → task s u = Some td →
  ∃ s', inject u pairs s = (Returned tt, s') ∧
    _backend s' = _backend s ∧
    task s' u = Some (stored (VDict pairs) SUCCESS td) ∧
    (∀ u', u' ≠ u → task s' u' = task s u').
Proof.
  intros Hq Ht. unfold inject, mbind, M_bind, bind.
  rewrite add_task_quiet by done.
  set (s1 := set_flowdetail (fd_add (new_detail u injector_name)) s).
  assert (task s1 u = Some td) as Ht1 by (unfold s1; by rewrite task_add, Ht).
  destruct (save_any u (VDict pairs) SUCCESS s1 td Hq Ht1)
    as (s2 & -> & Hb & _ & _ & _ & Hu & Ho).
  rewrite (append_entries_cases (λ nm, nm) (λ nm, (u, Some (KStr nm)))).
  eexists. split; [done |]. split; [done |]. split; [done |].
  intros u' Hu'. trans (task s2 u'); [done |]. rewrite Ho by done.
  unfold s1. rewrite task_add. destruct (task s u'); [done |].
  simpl. by rewrite decide_False.
Qed.

Lemma set_flow_state_quiet st s :
  no_peer_writes (_backend s) →
  set_flow_state st s =
  (Returned tt,
   set_flowdetail (λ fd, {| flow_state := Some st; taskdetails := taskdetails fd |}) s).
Proof.
  intros Hq. unfold set_flow_state, mbind, M_bind, bind, modify.
  by rewrite save_flow_detail_quiet.
Qed.

Lemma run_op_task o s u td :
  no_peer_writes (_backend s) → task s u = Some td →
  ∃ td', task (run_op o s).2 u = Some td' ∧ uuid td' = uuid td ∧ name td' = name td.
Proof.
  intros Hq Ht.
  assert (∀ u' (f : TaskDetail → TaskDetail) (c : M Storage.Storage unit),
            (∀ x, uuid (f x) = uuid x) → (∀ x, name (f x) = name x) →
            (∀ i td0, find u' (_flowdetail s) = Some (i, td0) →
                      c s = (Returned tt, set_taskdetail i f s)) →
            (find u' (_flowdetail s) = None → (c s).2 = s) →
            ∃ td', task (c s).2 u = Some td' ∧ uuid td' = uuid td ∧ name td' = name td)
    as Hupd.
  { intros u' f c Hfu Hfn Hsome Hnone.
    destruct (find u' (_flowdetail s)) as [[i td0]|] eqn:Hf.
    - rewrite (Hsome i td0 eq_refl). simpl.
      rewrite (task_set_taskdetail s u' i td0 f u Hf Hfu). case_decide as Hu.
      + subst u'. apply task_find in Ht as [j Hj]. rewrite Hj in Hf.
        injection Hf as -> ->. eauto.
      + eauto.
    - rewrite Hnone by done. eauto. }
  destruct o as [u' nm|u' st|u' progress kwargs|u' data st|u' st|u' pairs|u' mapping|st];
    simpl.
  - rewrite add_task_quiet by done. simpl. rewrite task_add, Ht. eauto.
  - apply (Hupd u' (with_state st)); [done | done | |].
    + intros i td0 Hf. by apply (set_task_state_quiet _ _ _ _ td0).
    + intros Hf. unfold set_task_state. by rewrite unknown_uuid_raises.
  - destruct (find u' (_flowdetail s)) as [[i td0]|] eqn:Hf.
    + apply (Hupd u' (with_meta (Some (progress_meta (meta td0) progress kwargs))));
        [done | done | |].
      * intros i' td0' Hf'. rewrite Hf in Hf'. injection Hf' as <- <-.
        by apply set_task_progress_exact.
      * intros Hf'. by rewrite Hf in Hf'.
    + unfold set_task_progress. rewrite unknown_uuid_raises by done. eauto.
  - destruct (task s u') as [td0|] eqn:Ht0.
    + destruct (save_any u' data st s td0 Hq Ht0) as (s' & -> & _ & _ & _ & _ & Hu & Ho).
      simpl. destruct (decide (u = u')) as [->|Hne].
      * rewrite Hu. rewrite Ht in Ht0. injection Ht0 as <-. eauto.
      * rewrite Ho by done. eauto.
    + unfold save. rewrite unknown_uuid_raises by by apply task_None_find. eauto.
  - destruct (task s u') as [td0|] eqn:Ht0.
    + destruct (reset_known u' st s td0 Hq Ht0) as (s' & -> & _ & Hu & Ho).
      simpl. destruct (decide (u = u')) as [->|Hne].
      * rewrite Hu. rewrite Ht in Ht0. injection Ht0 as <-. eauto.
      * rewrite Ho by done. eauto.
    + unfold reset. rewrite unknown_uuid_raises by by apply task_None_find. eauto.
  - destruct (task s u') as [td0|] eqn:Ht0.
    + destruct (inject_known u' pairs s td0 Hq Ht0) as (s' & -> & _ & Hu & Ho).
      simpl. destruct (decide (u = u')) as [->|Hne].
      * rewrite Hu. rewrite Ht in Ht0. injection Ht0 as <-. eauto.
      * rewrite Ho by done. eauto.
    + destruct (inject_fresh u' pairs s Hq Ht0) as (s' & -> & _ & _ & Ho & _).
      simpl. rewrite Ho by congruence. eauto.
  - unfold set_result_mapping. case_decide; [simpl; eauto |].
    unfold mbind, M_bind, bind, modify.
    rewrite (append_entries_cases fst (λ ni : string * Index, (u', ni.2))). simpl.
    exists td. split; [exact Ht | done].
  - rewrite set_flow_state_quiet by done. simpl. exists td. split; [exact Ht | done].
Qed.

(** X18.  Without peer writes no call removes or renames a task: a uuid
    the storage knows stays known, under the same name, through any
    sequence of calls, whether they return or raise. *)
Theorem known_task_stays_known ops s u td :
  no_peer_writes (_backend s) → task s u = Some td →
  ∃ td', task (run_ops ops s) u = Some td' ∧ uuid td' = uuid td ∧ name td' = name td.
Proof.
  revert s td. induction ops as [|o ops IH]; intros s td Hq Ht; [by eauto |].
  simpl. destruct (run_op_task o s u td Hq Ht) as (td1 & Ht1 & Hu1 & Hn1).
  destruct (IH (run_op o s).2 td1) as (td' & Ht' & Hu' & Hn'); [| done |].
  - by rewrite run_op_backend.
  - exists td'. split; [done |]. split; congruence.
Qed.

Lemma known_task_stays_known_witness :
  ∃ td', task (run_ops [OpReset "u" PENDING; OpAddTask "u" "other";
                        OpInject "u" ∅] saved_storage) "u" = Some td' ∧
         uuid td' = "u"%string ∧ name td' = "t"%string.
Proof.
  exact (known_task_stays_known [OpReset "u" PENDING; OpAddTask "u" "other"; OpInject "u" ∅]
           saved_storage "u" _ I eq_refl).
Defined.

(** *** The flow state *)

(** X19.  [set_flow_state] without peer writes returns, the state reads
    back through [get_flow_state], and nothing else changes: tasks, the
    names registered and the log are as before. *)
Theorem set_flow_state_reads_back s st :
  no_peer_writes (_backend s) →
  let s' := (set_flow_state st s).2 in
  (set_flow_state st s).1 = Returned tt ∧
  get_flow_state s' = (Returned (Some st), s') ∧
  taskdetails (_flowdetail s') = taskdetails (_flowdetail s) ∧
  _reverse_mapping s' = _reverse_mapping s ∧
  _result_mappings s' = _result_mappings s ∧
  LOG s' = LOG s.
Proof. intros Hq s'. subst s'. by rewrite set_flow_state_quiet. Qed.

Lemma set_flow_state_reads_back_witness :
  let s' := (set_flow_state RUNNING saved_storage).2 in
  get_flow_state s' = (Returned (Some RUNNING), s').
Proof.
  destruct (set_flow_state_reads_back saved_storage RUNNING I) as (_ & Hget & _).
  exact Hget.
Defined.

(** *** Fetching many names *)

Lemma fetch_outcome n s :
  fetch n s = (match fetch_value s n with
               | Some v => Returned v
               | None => (fetch n s).1
               end, s) ∧
  (fetch_value s n = None → ∃ msg, (fetch n s).1 = Raised (NotFound msg)).
Proof.
  pose proof (fetch_readonly n s) as Hs. unfold fetch_value.
  destruct (fetch n s) as [[v|e] s'] eqn:Hf; simpl in *; subst s'; [done |].
  split; [done |]. intros _.
  assert ((fetch n s).1 = Raised e) as He by by rewrite Hf.
  apply fetch_raises in He as [[_ ->]|(entries & _ & _ & ->)]; eauto.
Qed.

Lemma fetch_all_loop s (l : list string) : ∀ acc : gmap string Value,
  for_fold (λ result name,
      except_NotFound (v ← fetch name; ret (<[name := v]> result)) (ret result))
    acc l s =
  (Returned (foldl (λ result name,
                      match fetch_value s name with
                      | Some v => <[name := v]> result
                      | None => result
                      end) acc l), s).
Proof.
  induction l as [|n l IH]; intros acc; simpl; [done |].
  unfold mbind at 1, M_bind at 1, bind at 1.
  assert (except_NotFound (v ← fetch n; ret (<[n := v]> acc)) (ret acc) s =
          (Returned (match fetch_value s n with
                     | Some v => <[n := v]> acc
                     | None => acc
                     end), s)) as ->; [| apply IH].
  destruct (fetch_outcome n s) as [Hf Hnone].
  unfold except_NotFound, try_except, mbind, M_bind, bind. rewrite Hf.
  destruct (fetch_value s n) as [v|]; [done |].
  destruct (Hnone eq_refl) as [msg ->]. done.
Qed.

Lemma lookup_fetched s (l : list string) n : ∀ acc : gmap string Value,
  foldl (λ result name,
           match fetch_value s name with
           | Some v => <[name := v]> result
           | None => result
           end) acc l !! n =
  if decide (n ∈ l) then match fetch_value s n with
                         | Some v => Some v
                         | None => acc !! n
                         end
  else acc !! n.
Proof.
  induction l as [|n' l IH]; intros acc; simpl; [done |].
  rewrite IH. destruct (decide (n = n')) as [->|Hne].
  - rewrite (decide_True (P := n' ∈ n' :: l)) by by left.
    destruct (fetch_value s n') as [v|]; [| by case_decide].
    rewrite lookup_insert_eq. by case_decide.
  - assert (acc' : (match fetch_value s n' with
                    | Some v => <[n' := v]> acc
                    | None => acc
                    end) !! n = acc !! n).
    { destruct (fetch_value s n'); [by rewrite lookup_insert_ne | done]. }
    rewrite acc'. destruct (decide (n ∈ l)) as [Hin|Hin].
    + by rewrite (decide_True (P := n ∈ n' :: l)) by by right.
    + rewrite (decide_False (P := n ∈ n' :: l)); [done |].
      intros [?|?]%elem_of_cons; done.
Qed.

(** X20.  [fetch_all] never raises and leaves the storage as it was; the
    dictionary it returns holds exactly the names [fetch] returns a value
    for, each with that value.  Names whose [fetch] raises [NotFound] are
    left out. *)
Theorem fetch_all_holds_what_fetch_returns s :
  ∃ result, fetch_all s = (Returned result, s) ∧
    ∀ n v, result !! n = Some v ↔ (fetch n s).1 = Returned v.
Proof.
  unfold fetch_all, mbind, M_bind, bind, get_state. rewrite fetch_all_loop.
  eexists. split; [done |]. intros n v. rewrite lookup_fetched, lookup_empty.
  assert (fetch_value s n = Some v ↔ (fetch n s).1 = Returned v) as Hv.
  { unfold fetch_value. destruct (fetch n s).1; naive_solver. }
  case_decide as Hin.
  - rewrite <- Hv. by destruct (fetch_value s n).
  - split; [done |]. intros Hf. exfalso. apply Hin.
    apply fetch_returns in Hf as (l1 & entry & l2 & Hl & _).
    apply list_elem_of_fmap. exists (n, l1 ++ entry :: l2). split; [done |].
    by apply elem_of_map_to_list.
Qed.

Lemma for_fold_cons {S A B} (body : B → A → M S B) acc x l s :
  for_fold body acc (x :: l) s =
  match body acc x s with
  | (Returned acc', s') => for_fold body acc' l s'
  | (Raised e, s') => (Raised e, s')
  end.
Proof. done. Qed.

Lemma fetch_mapped_loop s (l : list (string * string)) : ∀ acc : gmap string Value,
  (Forall (λ kn, is_Some (fetch_value s kn.2)) l ∧
   for_fold (λ result (kn : string * string),
       v ← fetch kn.2; ret (<[kn.1 := v]> result)) acc l s =
   (Returned (foldl (λ result (kn : string * string),
                       <[kn.1 := default VNone (fetch_value s kn.2)]> result) acc l), s)) ∨
  (∃ kn msg, kn ∈ l ∧ (fetch kn.2 s).1 = Raised (NotFound msg) ∧
     for_fold (λ result (kn : string * string),
         v ← fetch kn.2; ret (<[kn.1 := v]> result)) acc l s =
     (Raised (NotFound msg), s)).
Proof.
  induction l as [|kn l IH]; intros acc; [by left |].
  rewrite !for_fold_cons. cbv beta.
  destruct (fetch_outcome kn.2 s) as [Hf Hnone].
  destruct (fetch_value s kn.2) as [v|] eqn:Hv.
  - assert ((fetch kn.2 ≫= λ v, ret (<[kn.1 := v]> acc)) s =
            (Returned (<[kn.1 := v]> acc), s)) as ->.
    { unfold mbind, M_bind, bind. by rewrite Hf. }
    destruct (IH (<[kn.1 := v]> acc)) as [[Hall Hl]|(kn' & msg & Hin & Hr & Hl)].
    + left. split; [constructor; [by rewrite Hv | done] |].
      rewrite Hl. simpl. by rewrite Hv.
    + right. exists kn', msg. split; [by right | done].
  - destruct (Hnone eq_refl) as [msg Hmsg].
    assert ((fetch kn.2 ≫= λ v, ret (<[kn.1 := v]> acc)) s = (Raised (NotFound msg), s))
      as ->.
    { unfold mbind, M_bind, bind. by rewrite Hf, Hmsg. }
    right. exists kn, msg. split; [by left | done].
Qed.

Lemma lookup_foldl_insert {A} (g : string → A) (l : list (string * string)) :
  ∀ (acc : gmap string A) k,
  NoDup l.*1 →
  foldl (λ result (kn : string * string), <[kn.1 := g kn.2]> result) acc l !! k =
  match list_find (λ kn, kn.1 = k) l with
  | Some (_, kn) => Some (g kn.2)
  | None => acc !! k
  end.
Proof.
  induction l as [|[k' n'] l IH]; intros acc k Hnd; simpl; [done |].
  apply NoDup_cons in Hnd as [Hk' Hnd]. rewrite IH by done.
  case_decide as Hk; simpl in Hk.
  - subst k'. destruct (list_find (λ kn, kn.1 = k) l) as [[i kn]|] eqn:Hfind; simpl.
    + apply list_find_Some in Hfind as (Hi & Hkn & _). exfalso. apply Hk'.
      apply list_elem_of_fmap. exists kn. split; [done |].
      by eapply list_elem_of_lookup_2.
    + apply lookup_insert_eq.
  - destruct (list_find (λ kn, kn.1 = k) l) as [[i kn]|]; simpl; [done |].
    by rewrite lookup_insert_ne.
Qed.

(** X21.  [fetch_mapped_args] leaves the storage as it was.  It returns
    when [fetch] returns for every name of the mapping, and then the
    dictionary has the keys of the mapping, each with the value fetched
    for its name; when [fetch] raises for some name it raises that
    [NotFound] and returns nothing. *)
Theorem fetch_mapped_args_all_or_NotFound s (args_mapping : gmap string string) :
  (fetch_mapped_args args_mapping s).2 = s ∧
  match (fetch_mapped_args args_mapping s).1 with
  | Returned result =>
      (∀ key n, args_mapping !! key = Some n → ∃ v,
         (fetch n s).1 = Returned v ∧ result !! key = Some v) ∧
      (∀ key, args_mapping !! key = None → result !! key = None)
  | Raised e =>
      ∃ key n msg, args_mapping !! key = Some n ∧ e = NotFound msg ∧
        (fetch n s).1 = Raised e
  end.
Proof.
  unfold fetch_mapped_args.
  destruct (fetch_mapped_loop s (map_to_list args_mapping) ∅)
    as [[Hall ->]|([k n] & msg & Hin & Hr & ->)]; simpl.
  - split; [done |].
    pose proof (NoDup_fst_map_to_list args_mapping) as Hnd.
    split.
    + intros key n Hn. apply elem_of_map_to_list in Hn as Hin.
      rewrite Forall_forall in Hall. destruct (Hall _ Hin) as [v Hv]. simpl in Hv.
      exists v. split.
      * unfold fetch_value in Hv. by destruct (fetch n s).1 as [v'|]; simplify_eq.
      * rewrite (lookup_foldl_insert (λ n, default VNone (fetch_value s n))) by done.
        destruct (list_find (λ kn, kn.1 = key) (map_to_list args_mapping))
          as [[i [k' n']]|] eqn:Hfind.
        -- apply list_find_Some in Hfind as (Hi & Hk & _). simpl in Hk. subst k'.
           apply list_elem_of_lookup_2, elem_of_map_to_list in Hi.
           rewrite Hn in Hi. injection Hi as <-. simpl. by rewrite Hv.
        -- apply list_find_None in Hfind. rewrite Forall_forall in Hfind.
           by destruct (Hfind _ Hin).
    + intros key Hkey. rewrite (lookup_foldl_insert (λ n, default VNone (fetch_value s n))) by done.
      destruct (list_find (λ kn, kn.1 = key) (map_to_list args_mapping))
        as [[i [k' n']]|] eqn:Hfind; [| done].
      apply list_find_Some in Hfind as (Hi & Hk & _). simpl in Hk. subst k'.
      apply list_elem_of_lookup_2, elem_of_map_to_list in Hi. congruence.
  - split; [done |]. exists k, n, msg. split; [by apply elem_of_map_to_list | done].
Qed.

(** *** Injected values *)

Lemma fetch_entries_ext n l s s' :
  (∀ e, e ∈ l → yields s' e = yields s e) →
  (fetch_entries n l s').1 = (fetch_entries n l s).1.
Proof.
  induction l as [|e l IH]; intros Hy; [done |].
  rewrite !fetch_entries_cons, (Hy e) by by left.
  destruct (yields s e); [done |]. apply IH. intros e' He'. apply Hy. by right.
Qed.

Lemma fetch_entries_app n l1 l2 s :
  (fetch_entries n (l1 ++ l2) s).1 =
  match (fetch_entries n l1 s).1 with
  | Returned v => Returned v
  | Raised _ => (fetch_entries n l2 s).1
  end.
Proof.
  induction l1 as [|e l1 IH]; [done |].
  rewrite <- app_comm_cons, !fetch_entries_cons. by destruct (yields s e).
Qed.

(** X22.  [inject] with a uuid that is new to the storage (no task has
    it and no entry names it), without peer writes, returns and only
    fills gaps: a name [fetch] returned a value for still fetches that
    value, a name [fetch] raised for fetches the injected value when the
    pairs have one, and still raises when they have none. *)
Theorem inject_fills_unfetched_names s u (pairs : gmap string Value) :
  no_peer_writes (_backend s) → task s u = None →
  (∀ n l, _reverse_mapping s !! n = Some l → u ∉ l.*1) →
  let s' := (inject u pairs s).2 in
  (inject u pairs s).1 = Returned tt ∧
  ∀ n, fetch_value s' n = match fetch_value s n with
                          | Some v => Some v
                          | None => pairs !! n
                          end.
Proof.
  intros Hq Hu Hnew s'. subst s'.
  destruct (inject_fresh u pairs s Hq Hu) as (s' & -> & _ & Hut & Ho & Hrm).
  simpl. split; [done |]. intros n.
  assert (∀ l, _reverse_mapping s !! n = Some l →
               (fetch_entries n l s').1 = (fetch_entries n l s).1) as Hold.
  { intros l Hl. apply fetch_entries_ext. intros [u' index] Hin.
    unfold yields. simpl. rewrite Ho; [done |]. intros ->.
    apply (Hnew n l Hl). apply list_elem_of_fmap. by exists (u, index). }
  assert (yields s' (u, Some (KStr n)) = pairs !! n) as Hy.
  { unfold yields. simpl. by rewrite Hut. }
  unfold fetch_value. rewrite !fetch_cases, Hrm.
  destruct (pairs !! n) as [v|] eqn:Hp.
  - rewrite decide_True by done.
    rewrite fetch_entries_app, fetch_entries_cons, Hy.
    destruct (_reverse_mapping s !! n) as [l|] eqn:Hl; simpl; [| done].
    rewrite (Hold l eq_refl). by destruct (fetch_entries n l s).1.
  - rewrite decide_False by by intros [? ?].
    destruct (_reverse_mapping s !! n) as [l|] eqn:Hl; simpl; [| done].
    rewrite (Hold l eq_refl). by destruct (fetch_entries n l s).1.
Qed.

Lemma inject_fills_unfetched_names_witness :
  let s := (set_result_mapping "u" {["a" := Some (KInt 0)]} saved_storage).2 in
  let s' := (inject "i" {["a" := VInt 1; "b" := VInt 2]} s).2 in
  fetch_value s' "a" = Some (VInt 42) ∧ fetch_value s' "b" = Some (VInt 2).
Proof.
  intros s s'.
  assert (∀ n l, _reverse_mapping s !! n = Some l → "i"%string ∉ l.*1) as Hnew.
  { intros n l.
    change (_reverse_mapping s) with
      (<["a"%string := [("u"%string, Some (KInt 0))]]> (∅ : gmap string (list (string * Index)))).
    intros [[_ <-]|[_ Hl]]%lookup_insert_Some; [| by rewrite lookup_empty in Hl].
    by intros [[=]|[]%elem_of_nil]%elem_of_cons. }
  destruct (inject_fills_unfetched_names s "i" {["a" := VInt 1; "b" := VInt 2]} I eq_refl Hnew)
    as [_ Hf].
  split; [exact (Hf "a"%string) | exact (Hf "b"%string)].
Defined.

End StorageProps.
